(** * P2P shuffle engine: worker-side runs and plugin registry

    A shallow embedding of [distributed/shuffle/_worker_plugin.py],
    [distributed/shuffle/_shuffle.py] and [distributed/shuffle/_rechunk.py].

    Python objects that are shared and mutated (the shuffle runs held by the
    plugin registry, the [_runs] set and the scheduled close tasks) live in
    an explicit store indexed by object identity.  Coroutines are embedded
    as state-passing functions; what an [await] hands back from outside the
    worker (a scheduler reply) is an explicit argument. *)

From stdpp Require Import gmap strings list sorting.
From Stdlib Require Import ZArith Lia.

Local Open Scope Z_scope.
Set Warnings "-register-all".

(** ** Exceptions and results *)

Inductive Exception : Type :=
| RuntimeError (message : string)
| ShuffleClosedError (message : string)
| KeyError (message : string)
| IndexError (message : string)
| TypeError (message : string)
| AssertionError (message : string)
| ValueError (message : string)
| UnpicklingError
| Reschedule.

Inductive result (A : Type) : Type :=
| Ok (a : A)
| Raise (e : Exception).
Arguments Ok {A} a.
Arguments Raise {A} e.

#[global] Instance result_ret : MRet result := λ A a, Ok a.
#[global] Instance result_bind : MBind result := λ A B k r,
  match r with
  | Ok a => k a
  | Raise e => Raise e
  end.

Notation "'let*' x := r 'in' k" := (mbind (M:=result) (λ x, k) r)
  (at level 10, x binder, r at level 100, k at level 200,
   format "'[v' 'let*'  x  :=  r  'in' '/' k ']'").

(** A [for] loop whose body may raise. *)
Fixpoint foldM {A S : Type} (f : S → A → result S) (s : S) (l : list A)
    : result S :=
  match l with
  | [] => Ok s
  | x :: l' => let* s' := f s x in foldM f s' l'
  end.

Definition raises {A : Type} (r : result A) : Prop := ∃ e, r = Raise e.

(** ** Python containers and built-ins used by the sources *)

(** A dict built from key/value pairs in order: a later pair with the same
    key replaces the earlier one. *)
Definition dict `{Countable K} {V : Type} (items : list (K * V)) : gmap K V :=
  foldl (λ m kv, <[kv.1 := kv.2]> m) ∅ items.

(** [list.sort(key=...)] and the stable sorts of numpy and pyarrow:
    insertion behind every element whose key is not larger. *)
Fixpoint insert_by {A : Type} (key : A → Z) (x : A) (l : list A) : list A :=
  match l with
  | [] => [x]
  | y :: l' =>
      if bool_decide (key y ≤ key x) then y :: insert_by key x l'
      else x :: y :: l'
  end.

Definition sort_by {A : Type} (key : A → Z) (l : list A) : list A :=
  foldl (λ acc x, insert_by key x acc) [] l.

(** The order that a sort by [key] establishes. *)
Definition key_le {A : Type} (key : A → Z) (a b : A) : Prop := key a ≤ key b.

(** [enumerate(l)] *)
Definition enumerate {A : Type} (l : list A) : list (nat * A) :=
  zip (seq 0 (length l)) l.

(** [itertools.product] of the lists [ls]: the last position varies
    fastest. *)
Fixpoint product {A : Type} (ls : list (list A)) : list (list A) :=
  match ls with
  | [] => [[]]
  | l :: rest => x ← l; (λ p, x :: p) <$> product rest
  end.

(** [toolz.sliding_window(2, l)]. *)
Definition sliding_window2 {A : Type} (l : list A) : list (A * A) :=
  zip l (tail l).

(** [np.where(codes[1:] != codes[:-1])[0] + 1], with [i] the position of
    the head of [codes]. *)
Fixpoint change_points (i : nat) (codes : list Z) : list nat :=
  match codes with
  | a :: tl =>
      match tl with
      | b :: _ =>
          if bool_decide (b ≠ a) then S i :: change_points (S i) tl
          else change_points (S i) tl
      | [] => []
      end
  | [] => []
  end.

(** The slicing idiom shared by [split_by_worker] and
    [split_by_partition]:
    [splits = concatenate([[0], where(codes[1:] != codes[:-1])[0] + 1])],
    then one [t.slice(offset=a, length=b - a)] per window of [splits] and
    a last [t.slice(offset=splits[-1], length=None)]. *)
Definition splits_of (codes : list Z) : list nat :=
  0%nat :: change_points 0 codes.

Definition slice_table {A : Type} (t : list A) (offset length : nat) : list A :=
  take length (drop offset t).

Definition shards_of {A : Type} (t : list A) (splits : list nat) : list (list A) :=
  map (λ ab, slice_table t ab.1 (ab.2 - ab.1)) (sliding_window2 splits)
  ++ [drop (List.last splits 0%nat) t].

(** ** Identifiers *)

Abbreviation ShuffleId := string.
Abbreviation WorkerAddress := string.
Abbreviation NDIndex := (list nat).
Abbreviation bytes := (list Byte.byte).

(** Chunk sizes along one axis.  The source allows a float that is an
    integer or NaN; the embedding covers known (integer) sizes. *)
Abbreviation ChunkedAxis := (list nat).
Abbreviation ChunkedAxes := (list ChunkedAxis).

(** ** The part of a run that the plugin touches *)

Module ShuffleRun.

(** Mutable fields of [ShuffleRun] shared by both flavours. *)
Record Core : Type := mkCore {
  _exception : option Exception;
  closed : bool;
}.

Definition fresh : Core := {| _exception := None; closed := false |}.

(** Modelled from the spec: [ShuffleRun.fail] of [_core.py], which is not
    part of the sources at hand.  "latch the exception": the exception
    given becomes the run's sticky exception. *)
Definition fail (exception : Exception) (c : Core) : Core :=
  {| _exception := Some exception; closed := closed c |}.

(** Modelled from the spec: [ShuffleRun.raise_if_closed] of [_core.py].
    A closed run refuses every operation, with its latched exception if
    it has one and with [ShuffleClosedError] otherwise. *)
Definition raise_if_closed (c : Core) : result unit :=
  if closed c then
    match _exception c with
    | Some e => Raise e
    | None => Raise (ShuffleClosedError "already closed")
    end
  else Ok tt.

(** The state of one run: the shared fields of [ShuffleRun], with the
    comm buffer and the disk buffer as the log of what was written to
    them.  [P] is the type of partition ids, [K] the type of the keys of
    the disk buffer. *)
Record State (P K : Type) `{Countable P, Countable K} : Type := mkState {
  core : Core;
  run_id : Z;
  local_address : WorkerAddress;
  received : gset P;
  total_recvd : Z;
  transferred : bool;
  comm : list (gmap WorkerAddress (P * bytes));
  disk : list (gmap K bytes);
}.
Arguments mkState {P K _ _ _ _} _ _ _ _ _ _ _ _.
Arguments core {P K _ _ _ _} _.
Arguments run_id {P K _ _ _ _} _.
Arguments local_address {P K _ _ _ _} _.
Arguments received {P K _ _ _ _} _.
Arguments total_recvd {P K _ _ _ _} _.
Arguments transferred {P K _ _ _ _} _.
Arguments comm {P K _ _ _ _} _.
Arguments disk {P K _ _ _ _} _.

(** Methods of a run: they read and update the state and may raise. *)
Definition op (S A : Type) : Type := S → result A * S.

#[global] Instance op_ret {S} : MRet (op S) := λ A a s, (Ok a, s).
#[global] Instance op_bind {S} : MBind (op S) := λ A B k m s,
  match m s with
  | (Ok a, s') => k a s'
  | (Raise e, s') => (Raise e, s')
  end.

Definition raise {S A : Type} (e : Exception) : op S A := λ s, (Raise e, s).
Definition lift {S A : Type} (r : result A) : op S A := λ s, (r, s).
Definition get {S : Type} : op S S := λ s, (Ok s, s).
Definition modify {S : Type} (f : S → S) : op S unit := λ s, (Ok tt, f s).

(** [try: body except Exception as e: handler(e)] *)
Definition try_except {S A : Type} (body : op S A)
    (handler : Exception → op S A) : op S A := λ s,
  match body s with
  | (Ok a, s') => (Ok a, s')
  | (Raise e, s') => handler e s'
  end.

Section methods.
Context {P K : Type} `{Countable P, Countable K}.

Definition set_exception (e : Exception) : op (State P K) unit :=
  modify (λ s, mkState (mkCore (Some e) (closed (core s))) (run_id s)
                 (local_address s) (received s) (total_recvd s)
                 (transferred s) (comm s) (disk s)).

Definition check_closed : op (State P K) unit := λ s,
  (raise_if_closed (core s), s).

(** Modelled from the spec: [ShuffleRun.offload] of [_core.py]: the
    closure runs on the worker pool and its value, or the exception it
    raised, comes back; a closed run refuses. *)
Definition offload {A : Type} (func : result A) : op (State P K) A :=
  check_closed;; lift func.

(** Modelled from the spec: [ShuffleRun._write_to_comm] with the comm
    buffer of [_comms.py]: the payloads per destination are appended to
    the queues. *)
Definition _write_to_comm (data : gmap WorkerAddress (P * bytes))
    : op (State P K) unit :=
  check_closed;;
  modify (λ s, mkState (core s) (run_id s) (local_address s) (received s)
                 (total_recvd s) (transferred s) (comm s ++ [data]) (disk s)).

(** Modelled from the spec: [ShuffleRun._write_to_disk] with the disk
    buffer of [_disk.py]: each group is appended to the file of its key. *)
Definition _write_to_disk (data : gmap K bytes) : op (State P K) unit :=
  check_closed;;
  modify (λ s, mkState (core s) (run_id s) (local_address s) (received s)
                 (total_recvd s) (transferred s) (comm s) (disk s ++ [data])).

(** Modelled from the spec: the disk buffer's [read]: "the full
    concatenation of bytes written under that key", [KeyError] "if the
    key was never written". *)
Definition disk_read (writes : list (gmap K bytes)) (id : K) : result bytes :=
  match omap (λ groups : gmap K bytes, groups !! id) writes with
  | [] => Raise (KeyError "disk buffer")
  | parts => Ok (concat parts)
  end.

Definition _read_from_disk (id : K) : op (State P K) bytes :=
  check_closed;;
  s ← get;
  lift (disk_read (disk s) id).

(** Modelled from the spec: [ShuffleRun.flush_receive]: a latched
    exception is raised again; otherwise the pending disk writes are
    awaited, which the log already holds. *)
Definition flush_receive : op (State P K) unit := λ s,
  match _exception (core s) with
  | Some e => (Raise e, s)
  | None => (Ok tt, s)
  end.

(** Modelled from the spec: [ShuffleRun._ensure_output_worker]: "if
    [worker_for[j]] is not [local_address], raise a Reschedule signal". *)
Definition _ensure_output_worker (assigned_worker : result WorkerAddress)
    : op (State P K) unit :=
  w ← lift assigned_worker;
  s ← get;
  if bool_decide (w ≠ local_address s) then raise Reschedule else mret tt.

End methods.

End ShuffleRun.

(** ** Worker plugin: the registry of runs *)

Module ShuffleWorkerPlugin.

Inductive ShuffleType : Type := DATAFRAME | ARRAY_RECHUNK.

(** What the constructor of a run receives from the scheduler's reply,
    by flavour. *)
Inductive RunSpec : Type :=
| DataFrameSpec (column : string) (worker_for : gmap Z WorkerAddress)
| ArrayRechunkSpec (old new : ChunkedAxes)
    (worker_for : gmap NDIndex WorkerAddress).

(** A run object: its identity in the store and the fields that are
    fixed at construction. *)
Record Run : Type := mkRun {
  obj : nat;
  id : ShuffleId;
  run_id : Z;
  output_workers : gset WorkerAddress;
  local_address : WorkerAddress;
  spec : RunSpec;
}.

(** The [result] dict of [shuffle_get] / [shuffle_get_or_create]. *)
Inductive SchedulerReply : Type :=
| ReplyError (message : string)
| ReplyOK (reply_run_id : Z) (reply_output_workers : gset WorkerAddress)
    (reply_spec : RunSpec).

(** Tasks handed to [worker._ongoing_background_tasks.call_soon]. *)
Inductive Background : Type :=
| CloseShuffleRun (shuffle : Run).

Record Plugin : Type := mkPlugin {
  address : WorkerAddress;
  shuffles : gmap ShuffleId Run;
  _runs : list Run;
  closed : bool;
  background : list Background;
  (** mutable state of every run object, by identity *)
  store : gmap nat ShuffleRun.Core;
  (** identity of the next object to be constructed *)
  next_obj : nat;
}.

Definition core_of (p : Plugin) (shuffle : Run) : ShuffleRun.Core :=
  default ShuffleRun.fresh (store p !! obj shuffle).

Definition set_shuffles (f : gmap ShuffleId Run → gmap ShuffleId Run)
    (p : Plugin) : Plugin :=
  mkPlugin (address p) (f (shuffles p)) (_runs p) (closed p)
    (background p) (store p) (next_obj p).

Definition set_core (shuffle : Run)
    (f : ShuffleRun.Core → ShuffleRun.Core) (p : Plugin) : Plugin :=
  mkPlugin (address p) (shuffles p) (_runs p) (closed p) (background p)
    (<[obj shuffle := f (core_of p shuffle)]> (store p)) (next_obj p).

Definition call_soon (task : Background) (p : Plugin) : Plugin :=
  mkPlugin (address p) (shuffles p) (_runs p) (closed p)
    (background p ++ [task]) (store p) (next_obj p).

(** [shuffle_fail]: synchronous handler of the [shuffle-fail] stream
    message. *)
Definition shuffle_fail (shuffle_id : ShuffleId) (run_id' : Z)
    (message : string) (p : Plugin) : Plugin :=
  match shuffles p !! shuffle_id with
  | None => p
  | Some shuffle =>
      if bool_decide (run_id shuffle ≠ run_id') then p
      else
        let p := set_shuffles (delete shuffle_id) p in
        let exception := RuntimeError message in
        let p := set_core shuffle (ShuffleRun.fail exception) p in
        call_soon (CloseShuffleRun shuffle) p
  end.

(** [_create_shuffle_run] followed by the installation at the end of
    [_refresh_shuffle].  The reply's type selects the constructor; the
    [TypeError] branch for an unknown type cannot be taken with the two
    members of [ShuffleType]. *)
Definition _create_shuffle_run (shuffle_id : ShuffleId)
    (reply_run_id : Z) (ws : gset WorkerAddress) (sp : RunSpec)
    (p : Plugin) : Run :=
  {| obj := next_obj p; id := shuffle_id; run_id := reply_run_id;
     output_workers := ws; local_address := address p; spec := sp |}.

Definition install (shuffle_id : ShuffleId) (shuffle : Run)
    (p : Plugin) : Plugin :=
  mkPlugin (address p) (<[shuffle_id := shuffle]> (shuffles p))
    (_runs p ++ [shuffle]) (closed p) (background p)
    (<[obj shuffle := ShuffleRun.fresh]> (store p)) (S (next_obj p)).

(** [_refresh_shuffle], from the point where the scheduler's reply
    has arrived; [p] is the plugin as it is at that point. *)
Definition _refresh_shuffle (shuffle_id : ShuffleId)
    (reply : SchedulerReply) (p : Plugin) : result Run * Plugin :=
  match reply with
  | ReplyError message => (Raise (RuntimeError message), p)
  | ReplyOK reply_run_id ws sp =>
      if closed p then
        (Raise (ShuffleClosedError "plugin has already been closed"), p)
      else
        let create p :=
          let shuffle := _create_shuffle_run shuffle_id reply_run_id ws sp p in
          (Ok shuffle, install shuffle_id shuffle p) in
        match shuffles p !! shuffle_id with
        | Some existing =>
            if bool_decide (reply_run_id ≤ run_id existing) then
              (Ok existing, p)
            else
              let p := set_shuffles (delete shuffle_id) p in
              let p := set_core existing
                (ShuffleRun.fail (RuntimeError "stale")) p in
              let p := call_soon (CloseShuffleRun existing) p in
              create p
        | None => create p
        end
  end.

(** [_get_shuffle_run].  The refresh suspends on the scheduler RPC;
    [during_await] is whatever other handlers did to the plugin while
    this coroutine was suspended. *)
Definition _get_shuffle_run (shuffle_id : ShuffleId) (run_id' : Z)
    (reply : SchedulerReply) (during_await : Plugin → Plugin)
    (p : Plugin) : result Run * Plugin :=
  let refreshed :=
    match shuffles p !! shuffle_id with
    | None => _refresh_shuffle shuffle_id reply (during_await p)
    | Some shuffle =>
        if bool_decide (run_id shuffle < run_id') then
          _refresh_shuffle shuffle_id reply (during_await p)
        else (Ok shuffle, p)
    end in
  match refreshed with
  | (Raise e, p) => (Raise e, p)
  | (Ok shuffle, p) =>
      if bool_decide (run_id shuffle > run_id') then
        (Raise (RuntimeError "run_id stale"), p)
      else if bool_decide (run_id shuffle < run_id') then
        (Raise (RuntimeError "run_id invalid"), p)
      else
        match ShuffleRun._exception (core_of p shuffle) with
        | Some e => (Raise e, p)
        | None => (Ok shuffle, p)
        end
  end.

End ShuffleWorkerPlugin.

(** ** Tables: pandas frames and arrow tables *)

Module Table.

(** A row maps column names to values; the values that take part in the
    shuffle are integers (partition numbers). *)
Abbreviation Row := (gmap string Z).

(** [pd.DataFrame] and [pa.Table] alike: a schema and rows in order. *)
Record DataFrame : Type := mkDataFrame {
  columns : list string;
  rows : list Row;
}.

Definition len (t : DataFrame) : nat := length (rows t).

(** [meta.copy()] *)
Definition copy (t : DataFrame) : DataFrame :=
  {| columns := columns t; rows := rows t |}.

(** The values of one column, row by row.  A column that is not in the
    schema, or a row without a value in it, raises. *)
Definition column_values (column : string) (t : DataFrame) : result (list Z) :=
  if bool_decide (column ∈ columns t) then
    match mapM (λ r : Row, r !! column) (rows t) with
    | Some vs => Ok vs
    | None => Raise (KeyError column)
    end
  else Raise (KeyError column).

(** [pd.Series(worker_for, name="_workers").astype("category")]: the
    categories are the distinct addresses in sorted order, the code of an
    address is its position among them. *)
Definition categories (worker_for : gmap Z WorkerAddress) : list WorkerAddress :=
  merge_sort (λ a b, String.leb a b) (remove_dups (snd <$> map_to_list worker_for)).

Definition code_of (cats : list WorkerAddress) (w : WorkerAddress) : option nat :=
  fst <$> list_find (λ c, c = w) cats.

(** [worker_for.cat.codes]: the code of the worker of each partition. *)
Definition cat_codes (worker_for : gmap Z WorkerAddress) (partition : Z) : option nat :=
  w ← worker_for !! partition; code_of (categories worker_for) w.

(** [df.merge(right=codes.rename("_worker"), left_on=column,
    right_index=True, how="inner")]: every row whose value in [column]
    is a key of [worker_for] is kept, in the order of [df], next to its
    [_worker] code; the other rows are dropped. *)
Definition merge_worker (rows : list Row) (column : string)
    (worker_for : gmap Z WorkerAddress) : list (Row * Z) :=
  omap (λ r : Row,
          v ← r !! column;
          code ← cat_codes worker_for v;
          Some (r, Z.of_nat code)) rows.

(** [split_by_worker].  The frame that comes out of the merge carries the
    helper column [_worker]; a frame that already has a column of that
    name gets suffixed names from the merge, and [sort_by("_worker")]
    then finds no such column. *)
Definition split_by_worker (df : DataFrame) (column : string)
    (worker_for : gmap Z WorkerAddress)
    : result (gmap WorkerAddress DataFrame) :=
  if bool_decide (column ∈ columns df) then
    if bool_decide ("_worker" ∈ columns df) then Raise (KeyError "_worker")
    else
      let df' := merge_worker (rows df) column worker_for in
      let nrows := length df' in
      if bool_decide (nrows = 0%nat) then Ok ∅
      else
        let t := sort_by snd df' in
        let codes := snd <$> t in
        let t := fst <$> t in
        let splits := splits_of codes in
        let shards := shards_of t splits in
        let unique_codes := omap (λ s, codes !! s) splits in
        let cats := categories worker_for in
        let out :=
          dict (omap (λ cs : Z * list Row,
                        w ← cats !! Z.to_nat cs.1;
                        Some (w, mkDataFrame (columns df) cs.2))
                  (zip unique_codes shards)) in
        if bool_decide (sum_list (len <$> (snd <$> map_to_list out)) = nrows)
        then Ok out
        else Raise (AssertionError "split_by_worker")
  else Raise (KeyError column).

(** [split_by_partition] *)
Definition split_by_partition (t : DataFrame) (column : string)
    : result (gmap Z DataFrame) :=
  let* vs := column_values column t in
  let partitions := sort_by (λ v, v) (remove_dups vs) in
  let key (r : Row) := default 0 (r !! column) in
  let t' := sort_by key (rows t) in
  let partition := key <$> t' in
  let splits := splits_of partition in
  let shards := shards_of t' splits in
  if bool_decide (len t = sum_list (length <$> shards)) then
    if bool_decide (length partitions = length shards) then
      Ok (dict (zip partitions (mkDataFrame (columns t) <$> shards)))
    else Raise (AssertionError "split_by_partition: partitions")
  else Raise (AssertionError "split_by_partition: length").

(** [pa.concat_tables]: rows of all tables in order, schema of the first. *)
Definition concat_tables (ts : list DataFrame) : DataFrame :=
  {| columns := default [] (columns <$> head ts);
     rows := concat (rows <$> ts) |}.

End Table.

(** ** Arrays: splits, bricks and the shard codec of [_rechunk.py] *)

Module Rechunk.

(** [slice(start, stop, None)] with known bounds. *)
Record Slice : Type := mkSlice {
  start : nat;
  stop : nat;
}.

Record Split : Type := mkSplit {
  chunk_index : nat;
  split_index : nat;
  slice : Slice;
}.

Abbreviation SplitChunk := (list Split).
Abbreviation SplitAxis := (list SplitChunk).
Abbreviation SplitAxes := (list SplitAxis).

(** The value of [dask.array.rechunk.old_to_new(old, new)]: per axis and
    per new chunk, the [(old_chunk_index, slice)] pairs it is made of. *)
Abbreviation OldToNew := (list (list (list (nat * Slice)))).

(** [old_axis[old_chunk_index].append(split)] *)
Definition append_split (old_axis : SplitAxis) (old_chunk_index : nat)
    (split : Split) : result SplitAxis :=
  match old_axis !! old_chunk_index with
  | Some old_chunk => Ok (<[old_chunk_index := old_chunk ++ [split]]> old_axis)
  | None => Raise (IndexError "list index out of range")
  end.

(** The body of the loop over the axes in [split_axes]. *)
Definition split_axis (old_axis_chunks : ChunkedAxis)
    (new_axis : list (list (nat * Slice))) : result SplitAxis :=
  let* old_axis :=
    foldM (λ old_axis nc,
             foldM (λ old_axis sc,
                      append_split old_axis sc.2.1
                        (mkSplit nc.1 sc.1 sc.2.2))
               old_axis (enumerate nc.2))
      (replicate (length old_axis_chunks) []) (enumerate new_axis) in
  Ok (map (λ old_chunk, sort_by (λ split, Z.of_nat (start (slice split))) old_chunk)
        old_axis).

Section split_axes.
Variable old_to_new : ChunkedAxes → ChunkedAxes → OldToNew.

Definition split_axes (old new : ChunkedAxes) : result SplitAxes :=
  let _old_to_new := old_to_new old new in
  mapM (λ an : nat * list (list (nat * Slice)),
          match old !! an.1 with
          | Some old_axis_chunks => split_axis old_axis_chunks an.2
          | None => Raise (IndexError "tuple index out of range")
          end)
    (enumerate _old_to_new).

End split_axes.

(** An n-dimensional array as nested lists, outermost axis first. *)
Inductive ndarray : Type :=
| Item (v : Z)
| Nested (items : list ndarray).

(** Number of elements. *)
Fixpoint size (a : ndarray) : nat :=
  match a with
  | Item _ => 1%nat
  | Nested items => sum_list (map size items)
  end.

(** [l[start:stop]] on a sequence. *)
Definition getslice {A : Type} (s : Slice) (l : list A) : list A :=
  take (stop s - start s) (drop (start s) l).

(** [data[ndslice]] with a tuple of slices: basic slicing, one slice per
    leading axis. *)
Fixpoint getitem (data : ndarray) (ndslice : list Slice) : result ndarray :=
  match ndslice with
  | [] => Ok data
  | s :: rest =>
      match data with
      | Item _ => Raise (IndexError "too many indices for array")
      | Nested items =>
          let* items' :=
            (fix go (l : list ndarray) : result (list ndarray) :=
               match l with
               | [] => Ok []
               | x :: l' =>
                   let* y := getitem x rest in
                   let* ys := go l' in
                   Ok (y :: ys)
               end) (getslice s items) in
          Ok (Nested items')
      end
  end.

(** [pickle.dumps] and [pickle.load] on a stream for values of one type.
    A load reads one pickled object from the front of the stream and
    leaves the rest; [dumps] writes at least the final STOP opcode. *)
Class Pickle (A : Type) : Type := {
  dumps : A → bytes;
  load : bytes → option (A * bytes);
  load_dumps : ∀ a rest, load (dumps a ++ rest) = Some (a, rest);
  load_advances : ∀ b a rest, load b = Some (a, rest) →
    (length rest < length b)%nat;
}.

(** What [ndarray.tolist()] gives for an object array: nested lists with
    the cells at the leaves. *)
Inductive nested (A : Type) : Type :=
| Leaf (a : A)
| Nest (l : list (nested A)).
Arguments Leaf {A} a.
Arguments Nest {A} l.

(** An insertion-ordered dict: [d[k] = v] replaces the value of a key
    that is present and adds the key at the end otherwise. *)
Fixpoint setitem {K V : Type} `{EqDecision K} (d : list (K * V)) (k : K)
    (v : V) : list (K * V) :=
  match d with
  | [] => [(k, v)]
  | kv :: d' =>
      if decide (kv.1 = k) then (k, v) :: d' else kv :: setitem d' k v
  end.

(** The argument tuples of [zip] over all [keys]: one tuple per
    position, as many as the shortest key has. *)
Definition zip_star (keys : list NDIndex) : list (list nat) :=
  match keys with
  | [] => []
  | k :: keys' =>
      let n := foldr Nat.min (length k) (length <$> keys') in
      (λ d, omap (λ key : NDIndex, key !! d) keys) <$> seq 0 n
  end.

(** [np.prod] *)
Definition prod (shape : list nat) : nat := foldr Nat.mul 1%nat shape.

(** [rec_cat_arg[tuple(index)] = shard] on the object array of shape
    [subshape]: the index must name one cell. *)
Definition set_cell (subshape : list nat) (arr : gmap NDIndex ndarray)
    (index : NDIndex) (shard : ndarray) : result (gmap NDIndex ndarray) :=
  if bool_decide (length index = length subshape
                  ∧ Forall2 (λ i n, i < n)%nat index subshape)
  then Ok (<[index := shard]> arr)
  else Raise (IndexError "index out of bounds").

(** [rec_cat_arg.tolist()]: nested lists along the axes of [subshape];
    a cell that was never assigned holds [None]. *)
Fixpoint tolist (subshape : list nat) (prefix : NDIndex)
    (arr : gmap NDIndex ndarray) : nested (option ndarray) :=
  match subshape with
  | [] => Leaf (arr !! prefix)
  | n :: rest => Nest ((λ i, tolist rest (prefix ++ [i]) arr) <$> seq 0 n)
  end.

Section convert_chunk.
Context `{Pickle (list (NDIndex * ndarray))}.
(** [dask.array.core.concatenate3] *)
Variable concatenate3 : nested (option ndarray) → result ndarray.

(** The loop [while file.tell() < len(data)] of [convert_chunk]; every
    load moves the position forward, so [fuel] bounds the number of
    loads when it is the number of bytes left. *)
Fixpoint load_shards (fuel : nat) (file : bytes)
    (shards : list (NDIndex * ndarray)) : result (list (NDIndex * ndarray)) :=
  match file with
  | [] => Ok shards
  | _ :: _ =>
      match fuel with
      | O => Ok shards
      | S fuel' =>
          match load file with
          | None => Raise UnpicklingError
          | Some (block, rest) =>
              load_shards fuel' rest
                (foldl (λ shards (kv : NDIndex * ndarray),
                          setitem shards kv.1 kv.2) shards block)
          end
      end
  end.

Definition convert_chunk (data : bytes) : result ndarray :=
  let* shards := load_shards (length data) data [] in
  let subshape := (λ dim, S (max_list dim)) <$> zip_star (fst <$> shards) in
  if bool_decide (length shards = prod subshape) then
    let* rec_cat_arg :=
      foldM (λ arr (kv : NDIndex * ndarray), set_cell subshape arr kv.1 kv.2)
        ∅ shards in
    let arrs := tolist subshape [] rec_cat_arg in
    concatenate3 arrs
  else Raise (AssertionError "len(shards) == np.prod(subshape)").

End convert_chunk.

(** *** [rechunk_p2p]: the task graph of a rechunk *)

(** What [rechunk_p2p] reads of the dask array [x]. *)
Record Array : Type := mkArray {
  name : string;
  shape : list nat;
  chunks : ChunkedAxes;
  dtype : string;
}.

(** [x.size] *)
Definition array_size (x : Array) : nat := prod (shape x).

(** [np.ndindex(shape)]: all indices in row-major order. *)
Definition ndindex (shape : list nat) : list NDIndex :=
  product ((λ n, seq 0 n) <$> shape).

Abbreviation Key := (string * NDIndex)%type.

Inductive Task : Type :=
| rechunk_transfer (input : Key) (id : ShuffleId) (input_chunk : NDIndex)
    (new old : ChunkedAxes)
| shuffle_barrier (id : ShuffleId) (run_ids : list Key)
| rechunk_unpack (id : ShuffleId) (output_chunk : NDIndex)
    (barrier_run_id : Key).

(** The array handed back: either what [da.empty] builds on its own, or
    an array over the materialized layer [dsk]. *)
Inductive Rechunked : Type :=
| da_empty (shape : list nat) (chunks : ChunkedAxes) (dtype : string)
| da_Array (dsk : list (Key * Task)) (name : string) (chunks : ChunkedAxes)
    (meta : Array).

Section rechunk_p2p.
(** [dask.base.tokenize] and [barrier_key] of [_core.py]. *)
Variable tokenize : Array → ChunkedAxes → string.
Variable barrier_key : ShuffleId → Key.

Definition rechunk_p2p (x : Array) (chunks' : ChunkedAxes) : Rechunked :=
  if bool_decide (array_size x = 0%nat) then
    da_empty (shape x) chunks' (dtype x)
  else
    let token := tokenize x chunks' in
    let _barrier_key := barrier_key token in
    let name := "rechunk-transfer-" +:+ token in
    let transfers :=
      (λ index,
         ((name, index),
          rechunk_transfer (Rechunk.name x, index) token index chunks'
            (chunks x)))
      <$> ndindex (length <$> chunks x) in
    let transfer_keys := fst <$> transfers in
    let barrier := (_barrier_key, shuffle_barrier token transfer_keys) in
    let name := "rechunk-p2p-" +:+ token in
    let unpacks :=
      (λ index,
         ((name, index), rechunk_unpack token index _barrier_key))
      <$> ndindex (length <$> chunks') in
    da_Array (transfers ++ [barrier] ++ unpacks) name chunks' x.

(** The tasks of the shuffle machinery in the graph of the result. *)
Definition shuffle_tasks (a : Rechunked) : list (Key * Task) :=
  match a with
  | da_empty _ _ _ => []
  | da_Array dsk _ _ _ => dsk
  end.

End rechunk_p2p.

End Rechunk.

(** ** [ArrayRechunkRun] *)

Module ArrayRechunkRun.
Import ShuffleRun Rechunk.

Abbreviation State := (ShuffleRun.State NDIndex NDIndex).

(** A shard on the wire: its position in the output brick and the data. *)
Abbreviation Shard := (NDIndex * ndarray)%type.

Section run.
(** Fixed at construction; [split_axes] is the value of
    [split_axes(old, new)]. *)
Variable worker_for : gmap NDIndex WorkerAddress.
Variable split_axes : SplitAxes.
(** [distributed.sizeof.sizeof] *)
Variable sizeof : NDIndex * bytes → Z.
Context `{Pickle (list (NDIndex * Shard)), Pickle (list Shard)}.

Definition _repartition_shards (data : list bytes)
    : result (gmap NDIndex bytes) :=
  let* repartitioned :=
    foldM (λ (repartitioned : gmap NDIndex (list Shard)) (buffer : bytes),
             match load (A:=list (NDIndex * Shard)) buffer with
             | None => Raise UnpicklingError
             | Some (items, _) =>
                 Ok (foldl (λ (rep : gmap NDIndex (list Shard))
                              (item : NDIndex * Shard),
                              <[item.1 := default [] (rep !! item.1) ++ [item.2]]> rep)
                       repartitioned items)
             end)
      ∅ data in
  Ok (dumps <$> repartitioned).

Definition receive_loop (data : list (NDIndex * bytes)) (s : State)
    : list bytes * State :=
  foldl (λ (acc : list bytes * State) d,
           let '(filtered, s) := acc in
           let '(id, payload) := d in
           if bool_decide (id ∈ received s) then (filtered, s)
           else
             (filtered ++ [payload],
              mkState (core s) (run_id s) (local_address s)
                ({[id]} ∪ received s) (total_recvd s + sizeof d)
                (transferred s) (comm s) (disk s)))
    ([], s) data.

Definition _receive (data : list (NDIndex * bytes)) : op State unit :=
  check_closed;;
  filtered ← (λ s, let fs := receive_loop data s in (Ok fs.1, fs.2));
  match filtered with
  | [] => mret tt
  | _ =>
      try_except
        (shards ← offload (_repartition_shards filtered);
         _write_to_disk shards)
        (λ e, set_exception e;; raise e)
  end.

(** One turn of the loop over [ndsplits] in the closure of
    [add_partition]. *)
Definition add_ndsplit (data : ndarray)
    (out : gmap WorkerAddress (list (NDIndex * Shard))) (ndsplit : list Split)
    : result (gmap WorkerAddress (list (NDIndex * Shard))) :=
  match ndsplit with
  | [] => Raise (ValueError "not enough values to unpack")
  | _ =>
      let chunk_index := chunk_index <$> ndsplit in
      let shard_index := split_index <$> ndsplit in
      let ndslice := slice <$> ndsplit in
      match worker_for !! chunk_index with
      | None => Raise (KeyError "worker_for")
      | Some w =>
          let* shard := getitem data ndslice in
          Ok (<[w := default [] (out !! w) ++ [(chunk_index, (shard_index, shard))]]> out)
      end
  end.

(** The splits of the input brick, axis by axis: [axis[i]] for the axes
    zipped with [partition_id]. *)
Definition brick_splits (partition_id : NDIndex) : result (list SplitChunk) :=
  mapM (λ ai : SplitAxis * nat,
          match ai.1 !! ai.2 with
          | Some splits => Ok splits
          | None => Raise (IndexError "list index out of range")
          end)
    (zip split_axes partition_id).

(** The closure that [add_partition] offloads. *)
Definition split_partition (data : ndarray) (partition_id : NDIndex)
    : result (gmap WorkerAddress (NDIndex * bytes)) :=
  let* axes := brick_splits partition_id in
  let ndsplits := product axes in
  let* out := foldM (add_ndsplit data) ∅ ndsplits in
  Ok ((λ v, (partition_id, dumps v)) <$> out).

Definition add_partition (data : ndarray) (partition_id : NDIndex)
    : op State Z :=
  check_closed;;
  s ← get;
  if transferred s then raise (RuntimeError "Cannot add more partitions")
  else
    out ← offload (split_partition data partition_id);
    _write_to_comm out;;
    s ← get;
    mret (run_id s).

End run.

End ArrayRechunkRun.

(** ** [DataFrameShuffleRun] *)

Module DataFrameShuffleRun.
Import ShuffleRun Table.

(** Partition ids are ints; the disk key [(k,)] is kept as its one
    component. *)
Abbreviation State := (ShuffleRun.State Z Z).

Section run.
(** Fixed at construction. *)
Variable column : string.
Variable worker_for : gmap Z WorkerAddress.
(** [distributed.sizeof.sizeof] *)
Variable sizeof : Z * bytes → Z.
(** The arrow codec of [_arrow.py]. *)
Variable list_of_buffers_to_table : list bytes → result DataFrame.
Variable serialize_table : DataFrame → bytes.
Variable convert_partition : bytes → DataFrame → result DataFrame.

Definition _repartition_buffers (data : list bytes) : result (gmap Z bytes) :=
  let* table := list_of_buffers_to_table data in
  let* groups := split_by_partition table column in
  if bool_decide (len table = sum_list (len <$> (snd <$> map_to_list groups)))
  then Ok (serialize_table <$> groups)
  else Raise (AssertionError "_repartition_buffers").

(** The loop of [_receive] over [data]: the payloads that pass the
    filter, with the updated [received] and [total_recvd]. *)
Definition receive_loop (data : list (Z * bytes)) (s : State)
    : list bytes * State :=
  foldl (λ (acc : list bytes * State) d,
           let '(filtered, s) := acc in
           if bool_decide (d.1 ∉ received s) then
             (filtered ++ [d.2],
              mkState (core s) (run_id s) (local_address s)
                ({[d.1]} ∪ received s) (total_recvd s + sizeof d)
                (transferred s) (comm s) (disk s))
           else (filtered, s))
    ([], s) data.

Definition _receive (data : list (Z * bytes)) : op State unit :=
  check_closed;;
  filtered ← (λ s, let fs := receive_loop data s in (Ok fs.1, fs.2));
  match filtered with
  | [] => mret tt
  | _ =>
      try_except
        (groups ← offload (_repartition_buffers filtered);
         _write_to_disk groups)
        (λ e, set_exception e;; raise e)
  end.

Definition receive (data : list (Z * bytes)) : op State unit :=
  _receive data.

Definition add_partition (data : DataFrame) (partition_id : Z) : op State Z :=
  check_closed;;
  s ← get;
  if transferred s then raise (RuntimeError "Cannot add more partitions")
  else
    out ← offload
      (let* out := split_by_worker data column worker_for in
       Ok ((λ t, (partition_id, serialize_table t)) <$> out));
    _write_to_comm out;;
    s ← get;
    mret (run_id s).

(** [self.worker_for[id]] on the categorical series. *)
Definition _get_assigned_worker (id : Z) : result WorkerAddress :=
  match worker_for !! id with
  | Some w => Ok w
  | None => Raise (KeyError "worker_for")
  end.

Definition get_output_partition (partition_id : Z) (key : string)
    (meta : option DataFrame) : op State DataFrame :=
  check_closed;;
  match meta with
  | None => raise (AssertionError "meta is not None")
  | Some meta =>
      s ← get;
      if negb (transferred s) then
        raise (AssertionError "`get_output_partition` called before barrier task")
      else
        _ensure_output_worker (_get_assigned_worker partition_id);;
        flush_receive;;
        try_except
          (data ← _read_from_disk partition_id;
           offload (convert_partition data meta))
          (λ e, match e with
                | KeyError _ => mret (copy meta)
                | _ => raise e
                end)
  end.

End run.

End DataFrameShuffleRun.

(** ** Worked inputs *)

Module Examples.
Import ShuffleWorkerPlugin.

(** A worker with one plugin, used to run the handlers on. *)
Definition plugin0 : Plugin :=
  {| address := "tcp://w0"; shuffles := ∅; _runs := []; closed := false;
     background := []; store := ∅; next_obj := 0 |}.

Definition reply_run (run_id' : Z) : SchedulerReply :=
  ReplyOK run_id' {["tcp://w0"]}
    (DataFrameSpec "_partitions" {[0 := "tcp://w0"]}).

(** The plugin after the run with [run_id] 2 of shuffle ["s"] was
    installed. *)
Definition plugin2 : Plugin :=
  (_refresh_shuffle "s" (reply_run 2) plugin0).2.

Definition run2 : Run :=
  {| obj := 0; id := "s"; run_id := 2; output_workers := {["tcp://w0"]};
     local_address := "tcp://w0";
     spec := DataFrameSpec "_partitions" {[0 := "tcp://w0"]} |}.

End Examples.

(** The exception with which a method refuses to go past its guards on a
    run that is closed or has crossed the barrier. *)
Definition refusal (c : ShuffleRun.Core) : Exception :=
  match ShuffleRun.raise_if_closed c with
  | Raise e => e
  | Ok _ => RuntimeError "Cannot add more partitions"
  end.

Module RunExamples.
Import ShuffleRun Table.

(** A tabular run on worker ["tcp://w0"] that has crossed the barrier
    without having received anything. *)
Definition barriered : DataFrameShuffleRun.State :=
  mkState fresh 1 "tcp://w0" ∅ 0 true [] [].

(** The same run before the barrier. *)
Definition accepting : DataFrameShuffleRun.State :=
  mkState fresh 1 "tcp://w0" ∅ 0 false [] [].

Definition meta0 : DataFrame := mkDataFrame ["k"; "v"] [].

End RunExamples.

(** ** A concrete shard codec

    The runs only rely on the framing that [Pickle] states.  This codec
    has it and is used to run them: numbers in unary, sequences with
    their length in front, arrays with a tag per node. *)

Module Framing.
Import Rechunk.

Fixpoint dumps_nat (n : nat) : bytes :=
  match n with
  | O => [Byte.x00]
  | S n' => Byte.x01 :: dumps_nat n'
  end.

Fixpoint load_nat (b : bytes) : option (nat * bytes) :=
  match b with
  | [] => None
  | c :: rest =>
      if Byte.eqb c Byte.x00 then Some (O, rest)
      else if Byte.eqb c Byte.x01 then
        match load_nat rest with
        | Some (n, rest') => Some (S n, rest')
        | None => None
        end
      else None
  end.

Definition dumps_Z (z : Z) : bytes :=
  (if bool_decide (0 ≤ z) then Byte.x00 else Byte.x01)
    :: dumps_nat (Z.abs_nat z).

Definition load_Z (b : bytes) : option (Z * bytes) :=
  match b with
  | [] => None
  | c :: rest =>
      match load_nat rest with
      | Some (n, rest') =>
          Some (if Byte.eqb c Byte.x00 then Z.of_nat n else - Z.of_nat n,
                rest')
      | None => None
      end
  end.

(** [n] values in a row. *)
Fixpoint load_n {A : Type} (load : bytes → option (A * bytes)) (n : nat)
    (b : bytes) : option (list A * bytes) :=
  match n with
  | O => Some ([], b)
  | S n' =>
      match load b with
      | Some (x, rest) =>
          match load_n load n' rest with
          | Some (xs, rest') => Some (x :: xs, rest')
          | None => None
          end
      | None => None
      end
  end.

Definition dumps_list {A : Type} (dumps : A → bytes) (l : list A) : bytes :=
  dumps_nat (length l) ++ concat (map dumps l).

Definition load_list {A : Type} (load : bytes → option (A * bytes))
    (b : bytes) : option (list A * bytes) :=
  match load_nat b with
  | Some (n, rest) => load_n load n rest
  | None => None
  end.

Definition dumps_pair {A B : Type} (da : A → bytes) (db : B → bytes)
    (ab : A * B) : bytes :=
  da ab.1 ++ db ab.2.

Definition load_pair {A B : Type} (la : bytes → option (A * bytes))
    (lb : bytes → option (B * bytes)) (b : bytes) : option ((A * B) * bytes) :=
  match la b with
  | Some (a, rest) =>
      match lb rest with
      | Some (b', rest') => Some ((a, b'), rest')
      | None => None
      end
  | None => None
  end.

Fixpoint dumps_ndarray (a : ndarray) : bytes :=
  match a with
  | Item v => Byte.x00 :: dumps_Z v
  | Nested items =>
      Byte.x01 :: dumps_nat (length items) ++ concat (map dumps_ndarray items)
  end.

(** [fuel] bounds the nesting depth; the number of bytes is enough. *)
Fixpoint load_ndarray_fuel (fuel : nat) (b : bytes) : option (ndarray * bytes) :=
  match fuel with
  | O => None
  | S fuel' =>
      match b with
      | [] => None
      | c :: rest =>
          if Byte.eqb c Byte.x00 then
            match load_Z rest with
            | Some (v, rest') => Some (Item v, rest')
            | None => None
            end
          else if Byte.eqb c Byte.x01 then
            match load_nat rest with
            | Some (n, rest') =>
                match load_n (load_ndarray_fuel fuel') n rest' with
                | Some (items, rest'') => Some (Nested items, rest'')
                | None => None
                end
            | None => None
            end
          else None
      end
  end.

Definition load_ndarray (b : bytes) : option (ndarray * bytes) :=
  load_ndarray_fuel (length b) b.

End Framing.

Module ArrayRunExamples.
Import ShuffleRun Rechunk.

(** A rechunk run on worker ["tcp://w0"], before and after the barrier. *)
Definition accepting : ArrayRechunkRun.State :=
  mkState fresh 1 "tcp://w0" ∅ 0 false [] [].

Definition barriered : ArrayRechunkRun.State :=
  mkState fresh 1 "tcp://w0" ∅ 0 true [] [].

End ArrayRunExamples.

Module RechunkExamples.
Import ShuffleRun Rechunk.
Local Open Scope nat_scope.

(** One axis, one old chunk of four elements; the new chunking keeps it
    whole and ends with a chunk of size zero: [old = ((4,),)],
    [new = ((4, 0),)].  The old chunk gives [0:4] to new chunk 0 and the
    empty slice [4:4] to new chunk 1. *)
Definition old_40 : ChunkedAxes := [[4]].
Definition new_40 : ChunkedAxes := [[4; 0]].
Definition old_to_new_40 : OldToNew :=
  [[ [(0, mkSlice 0 4)]; [(0, mkSlice 4 4)] ]].

Definition split_axes_40 : SplitAxes :=
  [[ [mkSplit 0 0 (mkSlice 0 4); mkSplit 1 0 (mkSlice 4 4)] ]].

Definition worker_for_40 : gmap NDIndex WorkerAddress :=
  {[ [0] := "tcp://w0"; [1] := "tcp://w1" ]}.

Definition brick_40 : ndarray := Nested [Item 10; Item 11; Item 12; Item 13].

(** Scenario S2 of the specification: [old = ((4, 4, 4),)],
    [new = ((3, 3, 3, 3),)]. *)
Definition old_444 : ChunkedAxes := [[4; 4; 4]].
Definition new_3333 : ChunkedAxes := [[3; 3; 3; 3]].
Definition old_to_new_444 : OldToNew :=
  [[ [(0, mkSlice 0 3)];
     [(0, mkSlice 3 4); (1, mkSlice 0 2)];
     [(1, mkSlice 2 4); (2, mkSlice 0 1)];
     [(2, mkSlice 1 4)] ]].

End RechunkExamples.

(** ** What a brick contributes, entry by entry *)

Module Payload.
Import Rechunk ArrayRechunkRun.

Section payload.
Variable worker_for : gmap NDIndex WorkerAddress.

(** The entry that one element of the product contributes, with the
    worker it goes to. *)
Definition entry_of (data : ndarray) (ndsplit : list Split)
    (e : WorkerAddress * (NDIndex * Shard)) : Prop :=
  ∃ shard,
    getitem data (slice <$> ndsplit) = Ok shard
    ∧ worker_for !! (chunk_index <$> ndsplit) = Some e.1
    ∧ e.2 = (chunk_index <$> ndsplit, (split_index <$> ndsplit, shard)).

(** [out[w].append(item)] on the defaultdict. *)
Definition out_append (out : gmap WorkerAddress (list (NDIndex * Shard)))
    (e : WorkerAddress * (NDIndex * Shard))
    : gmap WorkerAddress (list (NDIndex * Shard)) :=
  <[e.1 := default [] (out !! e.1) ++ [e.2]]> out.

End payload.

End Payload.

(** ** What the splits of an axis have to say about the new chunking *)

Module SplitSpec.
Import Rechunk.
Local Open Scope nat_scope.

(** Number of elements between the bounds of a slice. *)
Definition slice_len (s : Slice) : nat := stop s - start s.

(** Position along the axis of the first element of chunk [i]. *)
Definition offset (axis : ChunkedAxis) (i : nat) : nat := sum_list (take i axis).

(** Laid end to end from position [pos] of the axis, in the order given,
    the slices of the old chunks are consecutive pieces of the axis; each
    slice lies within its old chunk. *)
Fixpoint tiles_from (old : ChunkedAxis) (pos : nat)
    (pairs : list (nat * Slice)) : Prop :=
  match pairs with
  | [] => True
  | p :: rest =>
      (∃ n, old !! p.1 = Some n ∧ start p.2 ≤ stop p.2 ≤ n)
      ∧ offset old p.1 + start p.2 = pos
      ∧ tiles_from old (pos + slice_len p.2) rest
  end.

(** The pairs exactly tile new chunk [j]: they start where the chunk
    starts, are consecutive, and their lengths sum to its size. *)
Definition tiles (old new : ChunkedAxis) (j : nat)
    (pairs : list (nat * Slice)) : Prop :=
  ∃ n, new !! j = Some n
       ∧ tiles_from old (offset new j) pairs
       ∧ sum_list ((λ p, slice_len p.2) <$> pairs) = n.

(** What [split_axes] relies on from [dask.array.rechunk.old_to_new]: one
    entry per axis, in it one list per new chunk, and the list of a new
    chunk tiles it with slices of old chunks. *)
Definition old_to_new_contract (old new : ChunkedAxes) (o2n : OldToNew) : Prop :=
  length o2n = length old
  ∧ length new = length old
  ∧ ∀ a old_a new_a o2n_a,
      old !! a = Some old_a → new !! a = Some new_a → o2n !! a = Some o2n_a →
      length o2n_a = length new_a
      ∧ ∀ j pairs, o2n_a !! j = Some pairs → tiles old_a new_a j pairs.

(** All splits of an axis next to the index of their old chunk. *)
Definition indexed_splits (axis : SplitAxis) : list (nat * Split) :=
  ic ← enumerate axis; (λ split, (ic.1, split)) <$> ic.2.

(** The splits assigned to new chunk [j], in [split_index] order. *)
Definition splits_of_new_chunk (axis : SplitAxis) (j : nat)
    : list (nat * Split) :=
  sort_by (λ p, Z.of_nat (split_index p.2))
    (filter (λ p, chunk_index p.2 = j) (indexed_splits axis)).

End SplitSpec.

Module SplitEntries.
Import Rechunk.

(** The iteration space of the loop nest of [split_axes] over one axis:
    for each new chunk and each of its pairs in order, the old chunk that
    gets a split and the split it gets. *)
Definition axis_entries (new_axis : list (list (nat * Slice)))
    : list (nat * Split) :=
  nc ← enumerate new_axis;
  (λ sc : nat * (nat * Slice), (sc.2.1, mkSplit nc.1 sc.1 sc.2.2))
    <$> enumerate nc.2.

(** The entries that new chunk [j] contributes, in the order of its
    pairs. *)
Definition chunk_entries (j : nat) (pairs : list (nat * Slice))
    : list (nat * Split) :=
  (λ sc : nat * (nat * Slice), (sc.2.1, mkSplit j sc.1 sc.2.2))
    <$> enumerate pairs.

End SplitEntries.

Module Blob.
Import Rechunk.

(** The bytes under one key of the disk buffer: the pickled blocks one
    after the other. *)
Definition blob `{Pickle (list (NDIndex * ndarray))}
    (blocks : list (list (NDIndex * ndarray))) : bytes :=
  concat (dumps <$> blocks).

End Blob.

(** Number of elements of the product of the lists [ls]. *)
Definition prod_lengths {A : Type} (ls : list (list A)) : nat :=
  foldr Nat.mul 1%nat (length <$> ls).

Module ConcatExamples.
Import Rechunk.

(** [concatenate3] on a one-dimensional lattice of one-dimensional
    shards. *)
Definition concatenate_1d (arrs : nested (option ndarray)) : result ndarray :=
  match arrs with
  | Nest cells =>
      let* items :=
        mapM (λ cell,
                match cell with
                | Leaf (Some (Nested items)) => Ok items
                | _ => Raise (ValueError "expected a one-dimensional shard")
                end) cells in
      Ok (Nested (concat items))
  | Leaf _ => Raise (ValueError "expected a one-dimensional lattice")
  end.

End ConcatExamples.

(** ** Runs of equal codes

    What the slicing idiom of [split_by_worker] and [split_by_partition]
    computes, told by recursion over the table: [cur] holds the rows of
    the run under way, [c] the code at its first row. *)
Fixpoint runs_from {A : Type} (key : A → Z) (c : Z) (cur l : list A)
    : list (Z * list A) :=
  match l with
  | [] => []
  | x :: tl =>
      match tl with
      | [] => [(c, cur ++ [x])]
      | y :: _ =>
          if bool_decide (key y ≠ key x)
          then (c, cur ++ [x]) :: runs_from key (key y) [] tl
          else runs_from key c (cur ++ [x]) tl
      end
  end.

(** ** The tabular shuffle from input partitions to output partitions *)

Module TabularShuffle.
Import Table.

(** The rows of a shard that may be missing. *)
Definition rows_of (shard : option DataFrame) : list Row :=
  default [] (rows <$> shard).

Section shuffle.
Variable column : string.
Variable worker_for : gmap Z WorkerAddress.

(** The worker of the output partition that a row names in [column]. *)
Definition dest_worker (r : Row) : option WorkerAddress :=
  v ← r !! column; worker_for !! v.

(** [add_partition] on every input partition: each is split by worker. *)
Definition transfer (parts : list DataFrame)
    : result (list (gmap WorkerAddress DataFrame)) :=
  mapM (λ df, split_by_worker df column worker_for) parts.

(** What arrives at a worker: shards with the column, with rows, all of
    them rows of that worker. *)
Definition good_shard (w : WorkerAddress) (shard : DataFrame) : Prop :=
  column ∈ columns shard ∧ rows shard ≠ []
  ∧ Forall (λ r, dest_worker r = Some w) (rows shard).

(** The shards that were sent to worker [w]. *)
Definition inbox (w : WorkerAddress)
    (outs : list (gmap WorkerAddress DataFrame)) : list DataFrame :=
  omap (λ out : gmap WorkerAddress DataFrame, out !! w) outs.

(** [_repartition_buffers] on every batch that [_receive] lets through:
    the shards of the batch are concatenated and split by partition. *)
Definition regroup (batches : list (list DataFrame))
    : result (list (gmap Z DataFrame)) :=
  mapM (λ batch, split_by_partition (concat_tables batch) column) batches.

(** Output partition [j] as [get_output_partition] reads it from the
    disk buffer of its worker: the groups written under [j], one after
    the other; no rows when nothing was written. *)
Definition output (disk : list (gmap Z DataFrame)) (j : Z) : list Row :=
  concat (rows <$> omap (λ groups : gmap Z DataFrame, groups !! j) disk).

(** A delivery in which each shard travels in a batch of its own. *)
Definition one_by_one (outs : list (gmap WorkerAddress DataFrame))
    (w : WorkerAddress) : list (list DataFrame) :=
  (λ shard, [shard]) <$> inbox w outs.

(** Output partition [j], read on the worker that owns it from what this
    worker has received, batch by batch. *)
Definition shuffle_output (received : WorkerAddress → list (list DataFrame))
    (j : Z) : result (list Row) :=
  match worker_for !! j with
  | Some w => let* disk := regroup (received w) in Ok (output disk j)
  | None => Raise (KeyError "worker_for")
  end.

(** All [M] output partitions, in order. *)
Definition shuffle_outputs (received : WorkerAddress → list (list DataFrame))
    (M : nat) : result (list (list Row)) :=
  mapM (λ j : nat, shuffle_output received (Z.of_nat j)) (seq 0 M).

(** The destination bucket of a row under a hash of its value in
    [column]. *)
Definition bucket (hash : Z → Z) (M : nat) (r : Row) : Z :=
  hash (default 0 (r !! column)) `mod` Z.of_nat M.

End shuffle.

End TabularShuffle.


(** ** Tables of the examples *)

Module TableExamples.
Import Table.

(** Two workers, two output partitions. *)
Definition worker_for_2 : gmap Z WorkerAddress :=
  {[ 0 := "W0"; 1 := "W1" ]}.

(** A row with key [k], its output partition [k mod 2] held in
    [_partitions]. *)
Definition row_k (k : Z) : Row :=
  {[ "k" := k; "_partitions" := k `mod` 2 ]}.

(** Six rows, [k] from 0 to 5, in two input partitions. *)
Definition part_a : DataFrame :=
  mkDataFrame ["k"; "_partitions"] (row_k <$> [0; 1; 2]).

Definition part_b : DataFrame :=
  mkDataFrame ["k"; "_partitions"] (row_k <$> [3; 4; 5]).

(** A table of one row whose value in column [k] is no output
    partition. *)
Definition stray : DataFrame :=
  mkDataFrame ["k"] [{[ "k" := 5 ]}].

End TableExamples.


(** ** Worker assignment: [get_worker_for_range_sharding] and
    [get_worker_for_hash_sharding] *)

Module Sharding.

(** What the arithmetic and the indexing of the two functions raise. *)
Inductive Raised : Type :=
| ZeroDivisionError
| IndexError.

#[global] Instance Raised_eq_dec : EqDecision Raised.
Proof. solve_decision. Defined.

(** [workers[i]] on a sequence: a negative index counts from the end. *)
Definition getitem {A : Type} (workers : list A) (i : Z) : Raised + A :=
  let n := Z.of_nat (length workers) in
  let i := if bool_decide (i < 0) then i + n else i in
  if bool_decide (0 ≤ i < n) then
    match workers !! Z.to_nat i with
    | Some w => inr w
    | None => inl IndexError
    end
  else inl IndexError.

(** [a // b] on ints: the quotient rounded down. *)
Definition floordiv (a b : Z) : Raised + Z :=
  if bool_decide (b = 0) then inl ZeroDivisionError else inr (a `div` b).

(** [a % b] on ints: the remainder has the sign of [b]. *)
Definition pymod (a b : Z) : Raised + Z :=
  if bool_decide (b = 0) then inl ZeroDivisionError else inr (a `mod` b).

Definition get_worker_for_range_sharding (npartitions output_partition : Z)
    (workers : list WorkerAddress) : Raised + WorkerAddress :=
  match floordiv (Z.of_nat (length workers) * output_partition) npartitions with
  | inl e => inl e
  | inr i => getitem workers i
  end.

Section hash_sharding.
(** The built-in [hash] on index tuples. *)
Variable hash : NDIndex → Z.

Definition get_worker_for_hash_sharding (output_partition : NDIndex)
    (workers : list WorkerAddress) : Raised + WorkerAddress :=
  match pymod (hash output_partition) (Z.of_nat (length workers)) with
  | inl e => inl e
  | inr i => getitem workers i
  end.

End hash_sharding.

(** The output partitions [0 .. npartitions - 1] that range sharding
    gives to the worker [w]. *)
Definition partitions_of_worker (npartitions : nat)
    (workers : list WorkerAddress) (w : WorkerAddress) : list nat :=
  filter (λ p : nat,
            get_worker_for_range_sharding (Z.of_nat npartitions) (Z.of_nat p)
              workers = inr w)
    (seq 0 npartitions).

End Sharding.


(** ** [P2PShuffleLayer]: the graph layer of a tabular shuffle *)

Module P2PShuffleLayer.
Import Table.

(** Keys of a task graph: a tuple of a name and indices, or a string. *)
Inductive Key : Type :=
| TupleKey (name : string) (index : list nat)
| StrKey (s : string).

#[global] Instance Key_eq_dec : EqDecision Key.
Proof. solve_decision. Defined.

#[global] Instance Key_countable : Countable Key.
Proof.
  refine (inj_countable'
            (λ k, match k with
                  | TupleKey name index => inl (name, index)
                  | StrKey s => inr s
                  end)
            (λ x, match x with
                  | inl (name, index) => TupleKey name index
                  | inr s => StrKey s
                  end) _).
  by intros [].
Defined.

(** The tasks of the low-level graph, by the function they call. *)
Inductive Task : Type :=
| shuffle_transfer (input : Key) (id : ShuffleId) (input_partition : nat)
    (npartitions : nat) (column : string) (parts_out : gset nat)
| shuffle_barrier (id : ShuffleId) (run_ids : list Key)
| shuffle_unpack (id : ShuffleId) (output_partition : nat)
    (barrier_run_id : Key) (meta : DataFrame).

Record Layer : Type := mkLayer {
  name : string;
  column : string;
  npartitions : nat;
  name_input : string;
  meta_input : DataFrame;
  parts_out : gset nat;
  npartitions_input : nat;
}.

(** [__init__]: a [parts_out] that is [None] or empty selects every
    output partition. *)
Definition init (name column : string) (npartitions npartitions_input : nat)
    (name_input : string) (meta_input : DataFrame)
    (parts_out : option (gset nat)) : Layer :=
  {| name := name; column := column; npartitions := npartitions;
     name_input := name_input; meta_input := meta_input;
     parts_out :=
       match parts_out with
       | Some parts =>
           if decide (parts = ∅) then list_to_set (seq 0 npartitions)
           else parts
       | None => list_to_set (seq 0 npartitions)
       end;
     npartitions_input := npartitions_input |}.

Definition get_output_keys (self : Layer) : gset Key :=
  set_map (λ part : nat, TupleKey (name self) [part]) (parts_out self).

Definition _cull (self : Layer) (parts_out : gset nat) : Layer :=
  init (name self) (column self) (npartitions self) (npartitions_input self)
    (name_input self) (meta_input self) (Some parts_out).

(** [_keys_to_parts]: the second component of every two-element tuple
    whose first component is the name of the layer. *)
Definition _keys_to_parts (self : Layer) (keys : list Key) : gset nat :=
  foldl (λ (parts : gset nat) key,
           match key with
           | TupleKey _name [_part] =>
               if decide (_name ≠ name self) then parts
               else {[_part]} ∪ parts
           | _ => parts
           end)
    ∅ keys.

Definition cull (self : Layer) (keys : list Key)
    : Layer * gmap Key (gset Key) :=
  let parts_out := _keys_to_parts self keys in
  let input_parts : gset Key :=
    list_to_set ((λ i, TupleKey (name_input self) [i])
                   <$> seq 0 (npartitions_input self)) in
  let culled_deps : gmap Key (gset Key) :=
    dict ((λ part, (TupleKey (name self) [part], input_parts))
            <$> elements parts_out) in
  if decide (parts_out ≠ P2PShuffleLayer.parts_out self) then
    (_cull self parts_out, culled_deps)
  else (self, culled_deps).

Section graph.
(** [dask.base.tokenize] on the four arguments of [_construct_graph],
    and [barrier_key] of [_core.py]. *)
Variable tokenize : string → string → nat → gset nat → string.
Variable barrier_key : ShuffleId → string.

Definition _construct_graph (self : Layer) : gmap Key Task :=
  let token :=
    tokenize (name_input self) (column self) (npartitions self)
      (parts_out self) in
  let _barrier_key := StrKey (barrier_key token) in
  let name := "shuffle-transfer-" +:+ token in
  let transfers :=
    (λ i, (TupleKey name [i],
           shuffle_transfer (TupleKey (name_input self) [i]) token i
             (npartitions self) (column self) (parts_out self)))
    <$> seq 0 (npartitions_input self) in
  let transfer_keys := fst <$> transfers in
  let barrier := (_barrier_key, shuffle_barrier token transfer_keys) in
  let name := P2PShuffleLayer.name self in
  let unpacks :=
    (λ part_out,
       (TupleKey name [part_out],
        shuffle_unpack token part_out _barrier_key (meta_input self)))
    <$> elements (parts_out self) in
  dict (transfers ++ [barrier] ++ unpacks).

(** [__getitem__] on the materialized layer. *)
Definition getitem (self : Layer) (key : Key) : result Task :=
  match _construct_graph self !! key with
  | Some task => Ok task
  | None => Raise (KeyError "key")
  end.

(** [__len__] *)
Definition len (self : Layer) : nat := size (_construct_graph self).

End graph.

End P2PShuffleLayer.


Module LayerExamples.
Import Table P2PShuffleLayer.

(** A layer from two input partitions to three output partitions, all
    of them selected. *)
Definition layer0 : Layer :=
  init "shuffle-p2p-t" "_partitions" 3 2 "input"
    (mkDataFrame ["k"; "_partitions"] []) None.

Definition tokenize0 (name_input column : string) (npartitions : nat)
    (parts_out : gset nat) : string := "t".

Definition barrier_key0 (id : ShuffleId) : string :=
  "shuffle-barrier-" +:+ id.

End LayerExamples.


(** ** Worker plugin: creation on demand, close tasks and teardown *)

Module PluginLifecycle.
Import ShuffleWorkerPlugin.

(** [setup]: the registry of a plugin that was just attached to its
    worker. *)
Definition setup (address : WorkerAddress) : Plugin :=
  {| address := address; shuffles := ∅; _runs := []; closed := false;
     background := []; store := ∅; next_obj := 0 |}.

(** Modelled from the spec: [ShuffleRun.close] of [_core.py]: the run
    reaches its state CLOSED. *)
Definition close (c : ShuffleRun.Core) : ShuffleRun.Core :=
  {| ShuffleRun._exception := ShuffleRun._exception c;
     ShuffleRun.closed := true |}.

Definition set_runs (f : list Run → list Run) (p : Plugin) : Plugin :=
  mkPlugin (address p) (shuffles p) (f (_runs p)) (closed p)
    (background p) (store p) (next_obj p).

Definition set_background (f : list Background → list Background)
    (p : Plugin) : Plugin :=
  mkPlugin (address p) (shuffles p) (_runs p) (closed p)
    (f (background p)) (store p) (next_obj p).

Definition set_closed (b : bool) (p : Plugin) : Plugin :=
  mkPlugin (address p) (shuffles p) (_runs p) b
    (background p) (store p) (next_obj p).

(** The run that a background task closes. *)
Definition task_run (task : Background) : Run :=
  match task with CloseShuffleRun shuffle => shuffle end.

(** [_close_shuffle_run], which is also the body of the closure that
    [_refresh_shuffle] schedules: the run is closed and then taken out
    of the set [_runs], whose members are run objects; [set.remove]
    raises [KeyError] when the object is not in the set. *)
Definition _close_shuffle_run (shuffle : Run) (p : Plugin)
    : result unit * Plugin :=
  let p := set_core shuffle close p in
  if bool_decide (obj shuffle ∈ obj <$> _runs p) then
    (Ok tt, set_runs (filter (λ r, obj r ≠ obj shuffle)) p)
  else (Raise (KeyError "shuffle"), p).

(** One of the tasks given to [call_soon] runs to its end: the [i]-th
    of those that are pending.  The tasks are independent coroutines
    and finish in any order. *)
Definition run_background (i : nat) (p : Plugin) : result unit * Plugin :=
  match background p !! i with
  | None => (Ok tt, p)
  | Some task =>
      _close_shuffle_run (task_run task) (set_background (delete i) p)
  end.

(** [_get_or_create_shuffle].  As in [_get_shuffle_run], the refresh
    suspends on the scheduler RPC; [reply] is what comes back and
    [during_await] what other handlers did to the plugin meanwhile.
    The arguments of the RPC are built from [type], [key] and [kwargs]
    and do not enter what the plugin does with the reply. *)
Definition _get_or_create_shuffle (shuffle_id : ShuffleId)
    (reply : SchedulerReply) (during_await : Plugin → Plugin)
    (p : Plugin) : result Run * Plugin :=
  let refreshed :=
    match shuffles p !! shuffle_id with
    | None => _refresh_shuffle shuffle_id reply (during_await p)
    | Some shuffle => (Ok shuffle, p)
    end in
  match refreshed with
  | (Raise e, p) => (Raise e, p)
  | (Ok shuffle, p) =>
      if closed p then
        (Raise (ShuffleClosedError "plugin has already been closed"), p)
      else
        match ShuffleRun._exception (core_of p shuffle) with
        | Some e => (Raise e, p)
        | None => (Ok shuffle, p)
        end
  end.

(** [_barrier].  [barrier] is [ShuffleRun.barrier] of [_core.py] on the
    run found, with whatever it does to the plugin's worker. *)
Definition _barrier (shuffle_id : ShuffleId) (run_ids : list Z)
    (reply : SchedulerReply) (during_await : Plugin → Plugin)
    (barrier : Run → Plugin → result unit * Plugin)
    (p : Plugin) : result Z * Plugin :=
  match run_ids with
  | [] => (Raise (IndexError "list index out of range"), p)
  | run_id :: _ =>
      if forallb (λ id, bool_decide (run_id = id)) run_ids then
        match _get_shuffle_run shuffle_id run_id reply during_await p with
        | (Raise e, p) => (Raise e, p)
        | (Ok shuffle, p) =>
            match barrier shuffle p with
            | (Raise e, p) => (Raise e, p)
            | (Ok _, p) => (Ok run_id, p)
            end
        end
      else (Raise (AssertionError "all(run_id == id for id in run_ids)"), p)
  end.

(** [add_partition] of the plugin: the run is fetched or created and its
    own [add_partition] called, which differs by flavour and is the
    argument [run_add_partition]. *)
Definition add_partition {A : Type} (shuffle_id : ShuffleId)
    (reply : SchedulerReply) (during_await : Plugin → Plugin)
    (run_add_partition : Run → Plugin → result A * Plugin)
    (p : Plugin) : result A * Plugin :=
  match _get_or_create_shuffle shuffle_id reply during_await p with
  | (Raise e, p) => (Raise e, p)
  | (Ok shuffle, p) => run_add_partition shuffle p
  end.

(** [get_output_partition] of the plugin. *)
Definition get_output_partition {A : Type} (shuffle_id : ShuffleId)
    (run_id : Z) (reply : SchedulerReply) (during_await : Plugin → Plugin)
    (run_get_output_partition : Run → Plugin → result A * Plugin)
    (p : Plugin) : result A * Plugin :=
  match _get_shuffle_run shuffle_id run_id reply during_await p with
  | (Raise e, p) => (Raise e, p)
  | (Ok shuffle, p) => run_get_output_partition shuffle p
  end.

(** [barrier] of the plugin. *)
Definition barrier (shuffle_id : ShuffleId) (run_ids : list Z)
    (reply : SchedulerReply) (during_await : Plugin → Plugin)
    (run_barrier : Run → Plugin → result unit * Plugin)
    (p : Plugin) : result Z * Plugin :=
  _barrier shuffle_id run_ids reply during_await run_barrier p.

Section teardown.
(** [dict.popitem] on the registry: some item of a dict that is not
    empty.  Which one is a matter of the order of insertion, which the
    registry does not record; the function stands for any choice. *)
Variable popitem : gmap ShuffleId Run → option (ShuffleId * Run).

(** The loop [while self.shuffles] of [teardown]; every turn takes one
    item out, so the number of items bounds the number of turns. *)
Fixpoint pop_all (fuel : nat) (p : Plugin) : Plugin :=
  match fuel with
  | O => p
  | S fuel' =>
      match popitem (shuffles p) with
      | None => p
      | Some (shuffle_id, shuffle) =>
          pop_all fuel'
            (call_soon (CloseShuffleRun shuffle)
               (set_shuffles (delete shuffle_id) p))
      end
  end.

(** [teardown] up to the point where it waits for [_runs] to drain. *)
Definition teardown (p : Plugin) : result unit * Plugin :=
  if closed p then (Raise (AssertionError "not self.closed"), p)
  else
    let p := set_closed true p in
    (Ok tt, pop_all (size (shuffles p)) p).

(** What happens on the event loop of the worker, one handler or task
    at a time.  The methods of a run update the run's own fields. *)
Inductive step : Plugin → Plugin → Prop :=
| step_shuffle_fail shuffle_id run_id message p :
    step p (shuffle_fail shuffle_id run_id message p)
| step_refresh_shuffle shuffle_id reply p :
    step p (_refresh_shuffle shuffle_id reply p).2
| step_background i p :
    step p (run_background i p).2
| step_teardown p :
    step p (teardown p).2
| step_run_method shuffle f p :
    step p (set_core shuffle f p).

Definition reachable (address : WorkerAddress) (p : Plugin) : Prop :=
  rtc step (setup address) p.

End teardown.

(** What [dict.popitem] guarantees. *)
Definition popitem_contract
    (popitem : gmap ShuffleId Run → option (ShuffleId * Run)) : Prop :=
  ∀ m, match popitem m with
       | None => m = ∅
       | Some (k, v) => m !! k = Some v
       end.

(** The bookkeeping of the registry. *)
Record consistent (p : Plugin) : Prop := mkConsistent {
  (** a registered run is in [_runs] and is registered under its id *)
  registered_in_runs : ∀ k r, shuffles p !! k = Some r →
    r ∈ _runs p ∧ id r = k;
  (** the runs are different objects, all made by this plugin *)
  runs_made : ∀ r, r ∈ _runs p → (obj r < next_obj p)%nat;
  runs_NoDup : NoDup (obj <$> _runs p);
  (** a run whose close task is pending is still in [_runs], is not
      registered any more, and has one such task *)
  pending_in_runs : ∀ task, task ∈ background p → task_run task ∈ _runs p;
  pending_not_registered : ∀ task k r, task ∈ background p →
    shuffles p !! k = Some r → obj (task_run task) ≠ obj r;
  pending_NoDup : NoDup (obj ∘ task_run <$> background p);
  (** every run in [_runs] is registered or about to be closed *)
  runs_accounted : ∀ r, r ∈ _runs p →
    shuffles p !! id r = Some r ∨ CloseShuffleRun r ∈ background p;
  (** a closed plugin has no registered run *)
  closed_empty : closed p = true → shuffles p = ∅;
}.

End PluginLifecycle.


(** ** The task functions of the graph *)

Module Tasks.

(** [shuffle_transfer]; [add_partition] is the outcome of the call of
    the plugin's [add_partition]. *)
Definition shuffle_transfer {A : Type} (id : ShuffleId)
    (add_partition : result A) : result A :=
  match add_partition with
  | Ok run_id => Ok run_id
  | Raise (ShuffleClosedError _) => Raise Reschedule
  | Raise _ =>
      Raise (RuntimeError ("shuffle_transfer failed during shuffle " +:+ id))
  end.

Definition shuffle_unpack {A : Type} (id : ShuffleId)
    (get_output_partition : result A) : result A :=
  match get_output_partition with
  | Ok partition => Ok partition
  | Raise Reschedule => Raise Reschedule
  | Raise (ShuffleClosedError _) => Raise Reschedule
  | Raise _ =>
      Raise (RuntimeError ("shuffle_unpack failed during shuffle " +:+ id))
  end.

Definition shuffle_barrier {A : Type} (id : ShuffleId)
    (barrier : result A) : result A :=
  match barrier with
  | Ok run_id => Ok run_id
  | Raise _ =>
      Raise (RuntimeError ("shuffle_barrier failed during shuffle " +:+ id))
  end.

Definition rechunk_transfer {A : Type} (id : ShuffleId)
    (add_partition : result A) : result A :=
  match add_partition with
  | Ok run_id => Ok run_id
  | Raise _ =>
      Raise (RuntimeError ("rechunk_transfer failed during shuffle " +:+ id))
  end.

Definition rechunk_unpack {A : Type} (id : ShuffleId)
    (get_output_partition : result A) : result A :=
  match get_output_partition with
  | Ok chunk => Ok chunk
  | Raise Reschedule => Raise Reschedule
  | Raise _ =>
      Raise (RuntimeError ("rechunk_unpack failed during shuffle " +:+ id))
  end.

End Tasks.

Module LifecycleExamples.
Import ShuffleWorkerPlugin PluginLifecycle.

(** A [popitem] that takes the first item of the registry. *)
Definition popitem_first (m : gmap ShuffleId Run)
    : option (ShuffleId * Run) :=
  head (map_to_list m).

(** The plugin of [Examples] after its run was failed by a peer: the
    close task of the run is pending. *)
Definition plugin_failed : Plugin :=
  shuffle_fail "s" 2 "peer lost" Examples.plugin2.

End LifecycleExamples.


(** ** Deliveries: what is new in a batch *)

Module Delivery.

(** The entries of [data] that [_receive] lets through when the
    producers in [seen] have been received before: the first entry of
    every producer that is not in [seen]. *)
Fixpoint fresh_entries {P : Type} `{Countable P} (seen : gset P)
    (data : list (P * bytes)) : list (P * bytes) :=
  match data with
  | [] => []
  | d :: data' =>
      if decide (d.1 ∈ seen) then fresh_entries seen data'
      else d :: fresh_entries ({[d.1]} ∪ seen) data'
  end.

(** The sum of [sizeof] over entries. *)
Definition total_size {P : Type} (sizeof : P * bytes → Z)
    (entries : list (P * bytes)) : Z :=
  foldr (λ d acc, sizeof d + acc) 0 entries.

(** The shards of the items that carry the index [id], in order. *)
Definition shards_for {S : Type} (id : NDIndex)
    (items : list (NDIndex * S)) : list S :=
  snd <$> filter (λ item, item.1 = id) items.

End Delivery.

(** * Properties *)

(** ** The registry *)

Section registry.
Import ShuffleWorkerPlugin.

Lemma refresh_installed shuffle_id reply p shuffle p' :
  _refresh_shuffle shuffle_id reply p = (Ok shuffle, p') →
  shuffles p' !! shuffle_id = Some shuffle.
Proof.
  unfold _refresh_shuffle. intros Hr.
  destruct reply as [message|rid ws sp]; [done|].
  destruct (closed p); [done|].
  destruct (shuffles p !! shuffle_id) as [existing|] eqn:Hex.
  - case_bool_decide.
    + by simplify_eq.
    + simplify_eq. cbn. by rewrite lookup_insert_eq.
  - simplify_eq. cbn. by rewrite lookup_insert_eq.
Qed.

(** After the lookup and the optional refresh, the run that
    [_get_shuffle_run] goes on with is the one installed in the
    registry. *)
Lemma get_shuffle_run_installed shuffle_id run_id' reply during_await p r p' :
  _get_shuffle_run shuffle_id run_id' reply during_await p = (r, p') →
  (∃ e, r = Raise e) ∨
  (∃ shuffle, r = Ok shuffle ∧ shuffles p' !! shuffle_id = Some shuffle
              ∧ run_id shuffle = run_id').
Proof.
  unfold _get_shuffle_run. intros Hg.
  set (refreshed := match shuffles p !! shuffle_id with
                    | Some shuffle =>
                        if bool_decide (run_id shuffle < run_id')
                        then _refresh_shuffle shuffle_id reply (during_await p)
                        else (Ok shuffle, p)
                    | None => _refresh_shuffle shuffle_id reply (during_await p)
                    end) in *.
  assert (Hinst : ∀ shuffle q, refreshed = (Ok shuffle, q) →
                    shuffles q !! shuffle_id = Some shuffle).
  { intros shuffle q. unfold refreshed.
    destruct (shuffles p !! shuffle_id) as [existing|] eqn:Hex.
    - case_bool_decide.
      + apply refresh_installed.
      + intros ?; by simplify_eq.
    - apply refresh_installed. }
  destruct refreshed as [[shuffle|e] q]; [|left; simplify_eq; eauto].
  specialize (Hinst shuffle q eq_refl).
  repeat case_bool_decide; try (left; simplify_eq; eauto; fail).
  destruct (ShuffleRun._exception (core_of q shuffle));
    simplify_eq; [left; eauto|].
  right. exists shuffle. repeat split; [done|lia].
Qed.

End registry.

Section registry_claims.
Import ShuffleWorkerPlugin Examples.

(** C4. Stale-run rejection.  Whatever the scheduler replies and whatever
    happens to the plugin while the refresh is suspended:
    [_get_shuffle_run] never returns a run whose [run_id] differs from the
    requested one, and when the run installed for [shuffle_id] after the
    optional refresh has a [run_id] strictly greater than the requested
    one, the call raises. *)
Theorem get_shuffle_run_rejects_stale
    (shuffle_id : ShuffleId) (run_id' : Z) (reply : SchedulerReply)
    (during_await : Plugin → Plugin) (p : Plugin)
    (r : result Run) (p' : Plugin) :
  _get_shuffle_run shuffle_id run_id' reply during_await p = (r, p') →
  (∀ shuffle, r = Ok shuffle → run_id shuffle = run_id') ∧
  (∀ installed, shuffles p' !! shuffle_id = Some installed →
     run_id' < run_id installed → raises r).
Proof.
  intros Hg.
  destruct (get_shuffle_run_installed _ _ _ _ _ _ _ Hg)
    as [[e ->]|(shuffle & -> & Hin & Hid)].
  - split; [done|]. intros; by exists e.
  - split.
    + intros ? [= <-]. done.
    + intros installed Hin' Hlt. rewrite Hin in Hin'. simplify_eq. lia.
Qed.

Lemma get_shuffle_run_rejects_stale_witness :
  raises (_get_shuffle_run "s" 1 (reply_run 2) (λ p, p) plugin2).1.
Proof.
  destruct (get_shuffle_run_rejects_stale "s" 1 (reply_run 2) (λ p, p)
              plugin2 _ _ (surjective_pairing _)) as [_ Hstale].
  apply (Hstale run2); [vm_compute; reflexivity|vm_compute; reflexivity].
Defined.

(** C5. [shuffle_fail]: when a run is registered under [shuffle_id] and
    its [run_id] is the one given, the run is removed from the registry,
    a [RuntimeError] carrying [message] becomes its latched exception and
    its close is scheduled, nothing else changes; when no run is
    registered under [shuffle_id], or the registered run has another
    [run_id], the plugin and every run stay as they are. *)
Theorem shuffle_fail_matching_or_ignored
    (shuffle_id : ShuffleId) (run_id' : Z) (message : string) (p : Plugin) :
  (∀ shuffle, shuffles p !! shuffle_id = Some shuffle →
     run_id shuffle = run_id' →
     let p' := shuffle_fail shuffle_id run_id' message p in
     shuffles p' = delete shuffle_id (shuffles p)
     ∧ ShuffleRun._exception (core_of p' shuffle) = Some (RuntimeError message)
     ∧ background p' = background p ++ [CloseShuffleRun shuffle]
     ∧ (∀ o, o ≠ obj shuffle → store p' !! o = store p !! o)
     ∧ _runs p' = _runs p ∧ closed p' = closed p) ∧
  ((shuffles p !! shuffle_id = None
    ∨ ∃ shuffle, shuffles p !! shuffle_id = Some shuffle
                 ∧ run_id shuffle ≠ run_id') →
   shuffle_fail shuffle_id run_id' message p = p).
Proof.
  split.
  - intros shuffle Hsh Hid. unfold shuffle_fail. rewrite Hsh.
    rewrite bool_decide_eq_false_2 by (intros ?; done).
    cbn. unfold core_of. cbn. rewrite lookup_insert_eq. cbn.
    repeat split; try done.
    intros o Ho. by rewrite lookup_insert_ne.
  - intros [Hnone|(shuffle & Hsh & Hne)]; unfold shuffle_fail.
    + by rewrite Hnone.
    + rewrite Hsh. by rewrite bool_decide_eq_true_2.
Qed.

Lemma shuffle_fail_matching_or_ignored_witness :
  shuffles (shuffle_fail "s" 2 "worker lost" plugin2) !! "s" = None
  ∧ ShuffleRun._exception
      (core_of (shuffle_fail "s" 2 "worker lost" plugin2) run2)
    = Some (RuntimeError "worker lost")
  ∧ background (shuffle_fail "s" 2 "worker lost" plugin2)
    = [CloseShuffleRun run2]
  ∧ shuffle_fail "s" 1 "worker lost" plugin2 = plugin2
  ∧ shuffle_fail "t" 2 "worker lost" plugin2 = plugin2.
Proof.
  destruct (shuffle_fail_matching_or_ignored "s" 2 "worker lost" plugin2)
    as [Hmatch _].
  destruct (Hmatch run2) as (Hreg & Hexc & Hbg & _);
    [vm_compute; reflexivity|reflexivity|].
  destruct (shuffle_fail_matching_or_ignored "s" 1 "worker lost" plugin2)
    as [_ Hstale].
  destruct (shuffle_fail_matching_or_ignored "t" 2 "worker lost" plugin2)
    as [_ Hunknown].
  split; [rewrite Hreg; apply lookup_delete_eq|].
  split; [exact Hexc|]. split; [exact Hbg|].
  split.
  - apply Hstale. right. exists run2.
    split; [vm_compute; reflexivity|cbn; lia].
  - apply Hunknown. left. vm_compute; reflexivity.
Defined.

End registry_claims.

(** ** Guards of the run methods *)

Section run_guards.
Import ShuffleRun Table Rechunk.

(** C6. Once [transferred] is true, [add_partition] of either flavour
    raises: the closed run's own exception, or [RuntimeError] "Cannot add
    more partitions".  The exception does not depend on the data, nothing
    is split, nothing is written to the comm buffer and the state of the
    run is left as it was. *)
Theorem add_partition_after_barrier_raises :
  (∀ (column : string) (worker_for : gmap Z WorkerAddress)
     (serialize_table : DataFrame → bytes) (data : DataFrame)
     (partition_id : Z) (s : DataFrameShuffleRun.State),
     transferred s = true →
     DataFrameShuffleRun.add_partition column worker_for serialize_table
       data partition_id s = (Raise (refusal (core s)), s)) ∧
  (∀ (worker_for : gmap NDIndex WorkerAddress) (split_axes : SplitAxes)
     (pickle : Pickle (list (NDIndex * ArrayRechunkRun.Shard)))
     (data : ndarray) (partition_id : NDIndex) (s : ArrayRechunkRun.State),
     transferred s = true →
     ArrayRechunkRun.add_partition worker_for split_axes data partition_id s
     = (Raise (refusal (core s)), s)).
Proof.
  split; intros.
  - unfold DataFrameShuffleRun.add_partition, refusal, mbind, op_bind,
      check_closed, get, raise.
    destruct (raise_if_closed (core s)) as [[]|e]; [|done].
    by rewrite H.
  - unfold ArrayRechunkRun.add_partition, refusal, mbind, op_bind,
      check_closed, get, raise.
    destruct (raise_if_closed (core s)) as [[]|e]; [|done].
    by rewrite H.
Qed.

(** C9. On a run past the barrier that is neither closed nor failed, on
    the worker that owns output [partition_id], when nothing was ever
    written to the disk buffer under the key of that output, so that the
    read raises [KeyError], [get_output_partition] returns [meta.copy()]:
    a frame with the schema and the (empty) rows of [meta]. *)
Theorem get_output_partition_absent_key
    (worker_for : gmap Z WorkerAddress)
    (convert_partition : bytes → DataFrame → result DataFrame)
    (partition_id : Z) (key : string) (meta : DataFrame)
    (s : DataFrameShuffleRun.State) :
  closed (core s) = false →
  _exception (core s) = None →
  transferred s = true →
  worker_for !! partition_id = Some (local_address s) →
  (∃ message, disk_read (disk s) partition_id = Raise (KeyError message)) →
  DataFrameShuffleRun.get_output_partition worker_for convert_partition
    partition_id key (Some meta) s = (Ok (copy meta), s)
  ∧ columns (copy meta) = columns meta
  ∧ (rows meta = [] → rows (copy meta) = []).
Proof.
  intros Hopen Hexc Htr Hown [message Hread].
  split; [|done].
  unfold DataFrameShuffleRun.get_output_partition,
    DataFrameShuffleRun._get_assigned_worker, _ensure_output_worker,
    flush_receive, try_except, _read_from_disk, mbind, op_bind,
    check_closed, raise_if_closed, get, raise, lift.
  rewrite Hopen, Htr, Hown. cbn.
  rewrite bool_decide_eq_false_2 by (intros Hne; by apply Hne).
  cbn. rewrite Hexc, Hopen, Hread. done.
Qed.

End run_guards.

Lemma get_output_partition_absent_key_witness :
  DataFrameShuffleRun.get_output_partition {[0 := "tcp://w0"]}
    (λ _ meta, Ok meta) 0 "unpack-0" (Some RunExamples.meta0)
    RunExamples.barriered
  = (Ok (Table.copy RunExamples.meta0), RunExamples.barriered).
Proof.
  apply (get_output_partition_absent_key {[0 := "tcp://w0"]}
           (λ _ meta, Ok meta) 0 "unpack-0" RunExamples.meta0
           RunExamples.barriered);
    [reflexivity|reflexivity|reflexivity|vm_compute; reflexivity|].
  exists "disk buffer". reflexivity.
Defined.

(** ** The graph of a rechunk *)

Section graph.
Import Rechunk.
Local Open Scope nat_scope.

(** C10. For an array without elements, [rechunk_p2p] hands back
    [da.empty] of the same shape and dtype with the requested chunks; the
    result has no transfer, barrier or unpack task. *)
Theorem rechunk_p2p_empty_array
    (tokenize : Array → ChunkedAxes → string) (barrier_key : ShuffleId → Key)
    (x : Array) (chunks' : ChunkedAxes) :
  array_size x = 0%nat →
  rechunk_p2p tokenize barrier_key x chunks'
  = da_empty (shape x) chunks' (dtype x)
  ∧ shuffle_tasks (rechunk_p2p tokenize barrier_key x chunks') = [].
Proof.
  intros Hsize. unfold rechunk_p2p.
  by rewrite bool_decide_eq_true_2.
Qed.

Lemma rechunk_p2p_empty_array_witness :
  rechunk_p2p (λ _ _, "token") (λ id, ("shuffle-barrier-" +:+ id, []))
    (mkArray "x" [3; 0] [[2; 1]; [0]] "f8") [[3]; [0]]
  = da_empty [3; 0] [[3]; [0]] "f8"
  ∧ shuffle_tasks
      (rechunk_p2p (λ _ _, "token") (λ id, ("shuffle-barrier-" +:+ id, []))
         (mkArray "x" [3; 0] [[2; 1]; [0]] "f8") [[3]; [0]]) = [].
Proof.
  apply (rechunk_p2p_empty_array (λ _ _, "token")
           (λ id, ("shuffle-barrier-" +:+ id, []))
           (mkArray "x" [3; 0] [[2; 1]; [0]] "f8") [[3]; [0]]).
  reflexivity.
Defined.

(** For contrast: an array with elements gets one transfer task per old
    chunk, one barrier and one unpack task per new chunk. *)
Lemma rechunk_p2p_tasks tokenize barrier_key x chunks' :
  array_size x ≠ 0%nat →
  length (shuffle_tasks (rechunk_p2p tokenize barrier_key x chunks'))
  = (length (ndindex (length <$> chunks x)) + 1
     + length (ndindex (length <$> chunks')))%nat.
Proof.
  intros Hsize. unfold rechunk_p2p.
  rewrite bool_decide_eq_false_2 by done. cbn.
  rewrite length_app, !length_fmap. cbn. rewrite length_fmap. lia.
Qed.

End graph.

(** ** Receiving shards *)

Section receive_tabular.
Import ShuffleRun Table DataFrameShuffleRun.
Variable column : string.
Variable sizeof : Z * bytes → Z.
Variable list_of_buffers_to_table : list bytes → result DataFrame.
Variable serialize_table : DataFrame → bytes.

Local Abbreviation _receive :=
  (DataFrameShuffleRun._receive column sizeof list_of_buffers_to_table
     serialize_table).
Local Abbreviation receive_loop := (DataFrameShuffleRun.receive_loop sizeof).

Lemma df_receive_loop_seen (d : Z * bytes) (n : nat)
    (filtered : list bytes) (s : State) :
  d.1 ∈ received s →
  foldl (λ (acc : list bytes * State) d,
           let '(filtered, s) := acc in
           if bool_decide (d.1 ∉ received s) then
             (filtered ++ [d.2],
              mkState (core s) (run_id s) (local_address s)
                ({[d.1]} ∪ received s) (total_recvd s + sizeof d)
                (transferred s) (comm s) (disk s))
           else (filtered, s)) (filtered, s) (replicate n d) = (filtered, s).
Proof.
  intros Hin. induction n as [|n IH]; [done|].
  cbn. rewrite bool_decide_eq_false_2 by (intros Hn; by apply Hn). apply IH.
Qed.

Lemma df_receive_loop_repeat (d : Z * bytes) (n : nat) (s : State) :
  receive_loop (replicate (S n) d) s = receive_loop [d] s.
Proof.
  unfold DataFrameShuffleRun.receive_loop. cbn.
  case_bool_decide as Hd.
  - apply df_receive_loop_seen. cbn.
    set_solver.
  - apply df_receive_loop_seen. exact Hd.
Qed.

Lemma df_receive_repeat (d : Z * bytes) (n : nat) (s : State) :
  _receive (replicate (S n) d) s = _receive [d] s.
Proof.
  unfold DataFrameShuffleRun._receive, mbind, op_bind, check_closed.
  destruct (raise_if_closed (core s)) as [[]|e]; [|done].
  by rewrite df_receive_loop_repeat.
Qed.

Lemma df_receive_closed data (s : State) e :
  raise_if_closed (core s) = Raise e → _receive data s = (Raise e, s).
Proof.
  intros Hc. unfold DataFrameShuffleRun._receive, mbind, op_bind, check_closed.
  by rewrite Hc.
Qed.

(** What one delivery leaves behind on an open run: the guard is still
    open and the producer is in [received]. *)
Lemma df_receive_once (d : Z * bytes) (s : State) :
  raise_if_closed (core s) = Ok tt →
  raise_if_closed (core (_receive [d] s).2) = Ok tt
  ∧ d.1 ∈ received (_receive [d] s).2.
Proof.
  intros Hopen.
  assert (Hcl : closed (core s) = false).
  { unfold raise_if_closed in Hopen. destruct (closed (core s)); [|done].
    by destruct (_exception (core s)). }
  unfold DataFrameShuffleRun._receive, mbind, op_bind, check_closed.
  rewrite Hopen. unfold DataFrameShuffleRun.receive_loop. cbn.
  case_bool_decide as Hd; cbn.
  - unfold try_except, offload, _write_to_disk, mbind, op_bind, check_closed,
      lift, modify, set_exception, raise. cbn. rewrite Hopen.
    destruct (_repartition_buffers _ _ _ _) as [groups|e]; cbn.
    + rewrite Hopen. cbn. split; [done|].
      set_solver.
    + unfold raise_if_closed. cbn. rewrite Hcl. split; [done|].
      set_solver.
  - split; [done|exact Hd].
Qed.

Lemma df_receive_seen (d : Z * bytes) (s : State) :
  raise_if_closed (core s) = Ok tt → d.1 ∈ received s →
  _receive [d] s = (Ok tt, s).
Proof.
  intros Hopen Hin.
  unfold DataFrameShuffleRun._receive, mbind, op_bind, check_closed.
  rewrite Hopen. unfold DataFrameShuffleRun.receive_loop. cbn.
  rewrite bool_decide_eq_false_2 by (intros Hn; by apply Hn). done.
Qed.

Lemma df_receive_iter (d : Z * bytes) (n : nat) (s : State) :
  Nat.iter (S n) (λ s, (_receive [d] s).2) s = (_receive [d] s).2.
Proof.
  induction n as [|n IH]; [done|].
  change (Nat.iter (S (S n)) ?f s) with (f (Nat.iter (S n) f s)).
  rewrite IH.
  destruct (raise_if_closed (core s)) as [[]|e] eqn:Hopen.
  - destruct (df_receive_once d s Hopen) as [Hopen' Hin].
    by rewrite (df_receive_seen d _ Hopen' Hin).
  - rewrite (df_receive_closed [d] s e Hopen). cbn.
    by rewrite (df_receive_closed [d] s e Hopen).
Qed.

End receive_tabular.

Section receive_array.
Import ShuffleRun Rechunk ArrayRechunkRun.
Variable sizeof : NDIndex * bytes → Z.
Context `{Pickle (list (NDIndex * Shard)), Pickle (list Shard)}.

#[local] Arguments ArrayRechunkRun._repartition_shards : simpl never.
Local Abbreviation _receive := (ArrayRechunkRun._receive sizeof).
Local Abbreviation receive_loop := (ArrayRechunkRun.receive_loop sizeof).

Lemma arr_receive_loop_seen (d : NDIndex * bytes) (n : nat)
    (filtered : list bytes) (s : State) :
  d.1 ∈ received s →
  foldl (λ (acc : list bytes * State) d,
           let '(filtered, s) := acc in
           let '(id, payload) := d in
           if bool_decide (id ∈ received s) then (filtered, s)
           else
             (filtered ++ [payload],
              mkState (core s) (run_id s) (local_address s)
                ({[id]} ∪ received s) (total_recvd s + sizeof d)
                (transferred s) (comm s) (disk s)))
    (filtered, s) (replicate n d) = (filtered, s).
Proof.
  intros Hin. induction n as [|n IH]; [done|].
  destruct d as [id payload]. cbn in *.
  rewrite bool_decide_eq_true_2 by done. apply IH.
Qed.

Lemma arr_receive_loop_repeat (d : NDIndex * bytes) (n : nat) (s : State) :
  receive_loop (replicate (S n) d) s = receive_loop [d] s.
Proof.
  unfold ArrayRechunkRun.receive_loop.
  change (replicate (S n) d) with (d :: replicate n d).
  destruct d as [id payload] eqn:Hd. cbn [foldl].
  case_bool_decide as Hs.
  - by apply (arr_receive_loop_seen (id, payload)).
  - apply (arr_receive_loop_seen (id, payload)). cbn. set_solver.
Qed.

Lemma arr_receive_repeat (d : NDIndex * bytes) (n : nat) (s : State) :
  _receive (replicate (S n) d) s = _receive [d] s.
Proof.
  unfold ArrayRechunkRun._receive, mbind, op_bind, check_closed.
  destruct (raise_if_closed (core s)) as [[]|e]; [|done].
  by rewrite arr_receive_loop_repeat.
Qed.

Lemma arr_receive_closed (data : list (NDIndex * bytes)) (s : State)
    (e : Exception) :
  raise_if_closed (core s) = Raise e → _receive data s = (Raise e, s).
Proof.
  intros Hc. unfold ArrayRechunkRun._receive, mbind, op_bind, check_closed.
  by rewrite Hc.
Qed.

Lemma arr_receive_once (d : NDIndex * bytes) (s : State) :
  raise_if_closed (core s) = Ok tt →
  raise_if_closed (core (_receive [d] s).2) = Ok tt
  ∧ d.1 ∈ received (_receive [d] s).2.
Proof.
  intros Hopen.
  assert (Hcl : closed (core s) = false).
  { unfold raise_if_closed in Hopen. destruct (closed (core s)); [|done].
    by destruct (_exception (core s)). }
  unfold ArrayRechunkRun._receive, mbind, op_bind, check_closed.
  rewrite Hopen. unfold ArrayRechunkRun.receive_loop.
  destruct d as [id payload]. cbn.
  case_bool_decide as Hd; cbn; [done|].
  unfold try_except, offload, _write_to_disk, mbind, op_bind, check_closed,
    lift, modify, set_exception, raise. cbn. rewrite Hopen.
  destruct (_repartition_shards [payload]) as [groups|e]; cbn.
  - rewrite Hopen. cbn. split; [done|set_solver].
  - unfold raise_if_closed. cbn. rewrite Hcl. split; [done|set_solver].
Qed.

Lemma arr_receive_seen (d : NDIndex * bytes) (s : State) :
  raise_if_closed (core s) = Ok tt → d.1 ∈ received s →
  _receive [d] s = (Ok tt, s).
Proof.
  intros Hopen Hin.
  unfold ArrayRechunkRun._receive, mbind, op_bind, check_closed.
  rewrite Hopen. unfold ArrayRechunkRun.receive_loop.
  destruct d as [id payload]. cbn in *.
  by rewrite bool_decide_eq_true_2.
Qed.

Lemma arr_receive_iter (d : NDIndex * bytes) (n : nat) (s : State) :
  Nat.iter (S n) (λ s, (_receive [d] s).2) s = (_receive [d] s).2.
Proof.
  induction n as [|n IH]; [done|].
  change (Nat.iter (S (S n)) ?f s) with (f (Nat.iter (S n) f s)).
  rewrite IH.
  destruct (raise_if_closed (core s)) as [[]|e] eqn:Hopen.
  - destruct (arr_receive_once d s Hopen) as [Hopen' Hin].
    by rewrite (arr_receive_seen d _ Hopen' Hin).
  - rewrite (arr_receive_closed [d] s e Hopen). cbn.
    by rewrite (arr_receive_closed [d] s e Hopen).
Qed.

End receive_array.

(** C3. Idempotence of receive, for both flavours of run and every
    shard [d = (producer_id, bytes)]: delivering [d] any number of times,
    in separate calls of [_receive] or repeated within one call, leaves
    the run in the state that one delivery leaves it in (the same writes
    to the disk buffer, the same [received] set, the same [total_recvd]);
    after the first delivery on an open run the producer is in
    [received], so that the loop of a later delivery lets nothing
    through. *)
Theorem receive_idempotent :
  (∀ (column : string) (sizeof : Z * bytes → Z)
     (list_of_buffers_to_table : list bytes → result Table.DataFrame)
     (serialize_table : Table.DataFrame → bytes)
     (d : Z * bytes) (n : nat) (s : DataFrameShuffleRun.State),
     let _receive := DataFrameShuffleRun._receive column sizeof
                       list_of_buffers_to_table serialize_table in
     let once := (_receive [d] s).2 in
     Nat.iter (S n) (λ s, (_receive [d] s).2) s = once
     ∧ (_receive (replicate (S n) d) s).2 = once
     ∧ (ShuffleRun.raise_if_closed (ShuffleRun.core s) = Ok tt →
        d.1 ∈ ShuffleRun.received once
        ∧ DataFrameShuffleRun.receive_loop sizeof [d] once = ([], once)
        ∧ _receive [d] once = (Ok tt, once))) ∧
  (∀ (sizeof : NDIndex * bytes → Z)
     (pickle_in : Rechunk.Pickle (list (NDIndex * ArrayRechunkRun.Shard)))
     (pickle_out : Rechunk.Pickle (list ArrayRechunkRun.Shard))
     (d : NDIndex * bytes) (n : nat) (s : ArrayRechunkRun.State),
     let _receive := ArrayRechunkRun._receive sizeof in
     let once := (_receive [d] s).2 in
     Nat.iter (S n) (λ s, (_receive [d] s).2) s = once
     ∧ (_receive (replicate (S n) d) s).2 = once
     ∧ (ShuffleRun.raise_if_closed (ShuffleRun.core s) = Ok tt →
        d.1 ∈ ShuffleRun.received once
        ∧ ArrayRechunkRun.receive_loop sizeof [d] once = ([], once)
        ∧ _receive [d] once = (Ok tt, once))).
Proof.
  split.
  - intros column sizeof lobt ser d n s _receive once.
    split; [apply df_receive_iter|].
    split; [unfold _receive; by rewrite df_receive_repeat|].
    intros Hopen.
    destruct (df_receive_once column sizeof lobt ser d s Hopen)
      as [Hopen' Hin].
    split; [exact Hin|]. split.
    + by apply (df_receive_loop_seen sizeof d 1 []).
    + by apply df_receive_seen.
  - intros sizeof pin pout d n s _receive once.
    split; [apply arr_receive_iter|].
    split; [unfold _receive; by rewrite arr_receive_repeat|].
    intros Hopen.
    destruct (arr_receive_once sizeof d s Hopen) as [Hopen' Hin].
    split; [exact Hin|]. split.
    + by apply (arr_receive_loop_seen sizeof d 1 []).
    + by apply arr_receive_seen.
Qed.

(** ** The concrete codec has the framing of [Pickle] *)

Section framing.
Import Rechunk Framing.
Local Open Scope nat_scope.

Lemma load_dumps_nat n rest : load_nat (dumps_nat n ++ rest) = Some (n, rest).
Proof. induction n as [|n IH]; cbn; [done|]. by rewrite IH. Qed.

Lemma load_nat_advances b n rest :
  load_nat b = Some (n, rest) → length rest < length b.
Proof.
  revert n rest. induction b as [|c b IH]; intros n rest; cbn; [done|].
  destruct (Byte.eqb c Byte.x00).
  { intros [= <- <-]. lia. }
  destruct (Byte.eqb c Byte.x01); [|done].
  destruct (load_nat b) as [[m r]|] eqn:Hb; [|done].
  intros [= <- <-]. specialize (IH _ _ eq_refl). lia.
Qed.

Lemma load_dumps_Z z rest : load_Z (dumps_Z z ++ rest) = Some (z, rest).
Proof.
  unfold dumps_Z, load_Z. cbn. rewrite load_dumps_nat.
  case_bool_decide; cbn; do 2 f_equal; lia.
Qed.

Lemma load_Z_advances b z rest :
  load_Z b = Some (z, rest) → length rest < length b.
Proof.
  destruct b as [|c b]; cbn; [done|].
  destruct (load_nat b) as [[m r]|] eqn:Hb; [|done].
  intros [= <- <-]. apply load_nat_advances in Hb. lia.
Qed.

Lemma load_n_dumps {A} (dumps : A → bytes) (load : bytes → option (A * bytes))
    (l : list A) rest :
  Forall (λ a, ∀ rest, load (dumps a ++ rest) = Some (a, rest)) l →
  load_n load (length l) (concat (map dumps l) ++ rest) = Some (l, rest).
Proof.
  induction 1 as [|a l Ha _ IH]; cbn; [done|].
  by rewrite <- app_assoc, Ha, IH.
Qed.

Lemma load_n_advances {A} (load : bytes → option (A * bytes)) n :
  (∀ b a rest, load b = Some (a, rest) → length rest < length b) →
  ∀ b l rest, load_n load n b = Some (l, rest) → length rest ≤ length b.
Proof.
  intros Hload. induction n as [|n IH]; intros b l rest; cbn.
  { intros [= <- <-]. lia. }
  destruct (load b) as [[x r]|] eqn:Hx; [|done].
  destruct (load_n load n r) as [[xs r']|] eqn:Hxs; [|done].
  intros [= <- <-]. apply Hload in Hx. apply IH in Hxs. lia.
Qed.

Lemma ndarray_ind_nested (P : ndarray → Prop) :
  (∀ v, P (Item v)) →
  (∀ items, Forall P items → P (Nested items)) →
  ∀ a, P a.
Proof.
  intros HItem HNested.
  fix IH 1. intros [v|items]; [apply HItem|].
  apply HNested. induction items as [|a items IHitems]; constructor.
  - apply IH.
  - apply IHitems.
Qed.

Lemma load_ndarray_fuel_advances fuel b a rest :
  load_ndarray_fuel fuel b = Some (a, rest) → length rest < length b.
Proof.
  revert b a rest. induction fuel as [|fuel IH]; intros b a rest; cbn; [done|].
  destruct b as [|c b]; [done|].
  destruct (Byte.eqb c Byte.x00).
  { destruct (load_Z b) as [[v r]|] eqn:Hv; [|done].
    intros [= <- <-]. apply load_Z_advances in Hv. cbn. lia. }
  destruct (Byte.eqb c Byte.x01); [|done].
  destruct (load_nat b) as [[n r]|] eqn:Hn; [|done].
  destruct (load_n (load_ndarray_fuel fuel) n r) as [[items r']|] eqn:Hi;
    [|done].
  intros [= <- <-]. apply load_nat_advances in Hn.
  apply (load_n_advances _ _ IH) in Hi. cbn. lia.
Qed.

Lemma concat_dumps_length {A} (dumps : A → bytes) (l : list A) a :
  a ∈ l → length (dumps a) ≤ length (concat (map dumps l)).
Proof.
  induction 1 as [a l|a b l _ IH]; cbn; rewrite length_app; lia.
Qed.

#[local] Arguments dumps_Z : simpl never.
#[local] Arguments load_Z : simpl never.

Lemma load_dumps_ndarray_fuel a :
  ∀ fuel rest, length (dumps_ndarray a) ≤ fuel →
    load_ndarray_fuel fuel (dumps_ndarray a ++ rest) = Some (a, rest).
Proof.
  induction a as [v|items IH] using ndarray_ind_nested; intros fuel rest Hfuel.
  - destruct fuel as [|fuel]; [cbn in Hfuel; lia|].
    cbn. by rewrite load_dumps_Z.
  - destruct fuel as [|fuel]; [cbn in Hfuel; lia|].
    cbn in *. rewrite length_app in Hfuel.
    rewrite <- app_assoc, load_dumps_nat, load_n_dumps; [done|].
    apply Forall_forall. intros a Ha rest'.
    rewrite Forall_forall in IH. apply IH; [done|].
    pose proof (concat_dumps_length dumps_ndarray items a Ha). lia.
Qed.

Lemma load_dumps_ndarray a rest :
  load_ndarray (dumps_ndarray a ++ rest) = Some (a, rest).
Proof.
  unfold load_ndarray. apply load_dumps_ndarray_fuel.
  rewrite length_app. lia.
Qed.

#[export] Instance pickle_nat : Pickle nat :=
  {| dumps := dumps_nat; load := load_nat;
     load_dumps := load_dumps_nat; load_advances := load_nat_advances |}.

#[export] Instance pickle_ndarray : Pickle ndarray :=
  {| dumps := dumps_ndarray; load := load_ndarray;
     load_dumps := load_dumps_ndarray;
     load_advances := λ b, load_ndarray_fuel_advances (length b) b |}.

#[export] Program Instance pickle_pair {A B} `{Pickle A, Pickle B}
    : Pickle (A * B) :=
  {| dumps := dumps_pair dumps dumps; load := load_pair load load |}.
Next Obligation.
  intros A B ? ? [a b] rest. unfold dumps_pair, load_pair. cbn.
  by rewrite <- app_assoc, !load_dumps.
Qed.
Next Obligation.
  intros A B ? ? b [a b'] rest. unfold load_pair.
  destruct (load b) as [[a' r]|] eqn:Ha; [|done].
  destruct (load r) as [[b'' r']|] eqn:Hb; [|done].
  intros [= <- <- <-]. apply load_advances in Ha, Hb. lia.
Qed.

#[export] Program Instance pickle_list {A} `{Pickle A} : Pickle (list A) :=
  {| dumps := dumps_list dumps; load := load_list load |}.
Next Obligation.
  intros A ? l rest. unfold dumps_list, load_list.
  rewrite <- app_assoc, load_dumps_nat. apply load_n_dumps.
  apply Forall_forall. intros a _ rest'. apply load_dumps.
Qed.
Next Obligation.
  intros A ? b l rest. unfold load_list.
  destruct (load_nat b) as [[n r]|] eqn:Hn; [|done].
  intros Hl. apply load_nat_advances in Hn.
  apply (load_n_advances _ _ load_advances) in Hl. lia.
Qed.

End framing.

(** ** The guards and the receive filter on concrete runs *)

Lemma add_partition_after_barrier_raises_witness :
  DataFrameShuffleRun.add_partition "k" {[0 := "tcp://w0"]} (λ _, [])
    RunExamples.meta0 0 RunExamples.barriered
  = (Raise (RuntimeError "Cannot add more partitions"), RunExamples.barriered)
  ∧ ArrayRechunkRun.add_partition {[[0%nat] := "tcp://w0"]} []
      (Rechunk.Item 7) [0%nat] ArrayRunExamples.barriered
    = (Raise (RuntimeError "Cannot add more partitions"),
       ArrayRunExamples.barriered).
Proof.
  destruct add_partition_after_barrier_raises as [Htab Harr].
  split.
  - apply (Htab "k" {[0 := "tcp://w0"]} (λ _, []) RunExamples.meta0 0
             RunExamples.barriered).
    reflexivity.
  - apply (Harr {[[0%nat] := "tcp://w0"]} [] _ (Rechunk.Item 7) [0%nat]
             ArrayRunExamples.barriered).
    reflexivity.
Defined.

Lemma receive_idempotent_witness :
  (let _receive :=
     DataFrameShuffleRun._receive "k" (λ d, Z.of_nat (length d.2))
       (λ _, Raise UnpicklingError) (λ _, []) in
   let once := (_receive [(7, [Byte.x00])] RunExamples.accepting).2 in
   7 ∈ ShuffleRun.received once
   ∧ _receive [(7, [Byte.x00])] once = (Ok tt, once))
  ∧ (let _receive :=
       ArrayRechunkRun._receive (λ d, Z.of_nat (length d.2)) in
     let once :=
       (_receive [([0%nat], [Byte.x00])] ArrayRunExamples.accepting).2 in
     [0%nat] ∈ ShuffleRun.received once
     ∧ _receive [([0%nat], [Byte.x00])] once = (Ok tt, once)).
Proof.
  destruct receive_idempotent as [Htab Harr].
  split.
  - destruct (Htab "k" (λ d, Z.of_nat (length d.2))
                (λ _, Raise UnpicklingError) (λ _, [])
                (7, [Byte.x00]) 0%nat RunExamples.accepting)
      as (_ & _ & Hopen).
    destruct (Hopen eq_refl) as (Hin & _ & Hagain).
    split; [exact Hin|exact Hagain].
  - destruct (Harr (λ d, Z.of_nat (length d.2)) _ _
                ([0%nat], [Byte.x00]) 0%nat ArrayRunExamples.accepting)
      as (_ & _ & Hopen).
    destruct (Hopen eq_refl) as (Hin & _ & Hagain).
    split; [exact Hin|exact Hagain].
Defined.

(** ** Splitting a brick *)

Section split_partition.
Import ShuffleRun Rechunk ArrayRechunkRun Payload.
Variable worker_for : gmap NDIndex WorkerAddress.
Variable split_axes : SplitAxes.
Context `{Pickle (list (NDIndex * Shard))}.

Lemma add_ndsplit_entry data out ndsplit out' :
  add_ndsplit worker_for data out ndsplit = Ok out' →
  ∃ e, entry_of worker_for data ndsplit e ∧ out' = out_append out e.
Proof.
  unfold add_ndsplit. destruct ndsplit as [|sp ndsplit]; [done|].
  destruct (worker_for !! _) as [w|] eqn:Hw; [|done].
  destruct (getitem data _) as [shard|] eqn:Hshard; [|done].
  cbn. intros [= <-].
  exists (w, (chunk_index <$> sp :: ndsplit,
              (split_index <$> sp :: ndsplit, shard))).
  split; [|done]. exists shard. by rewrite Hshard, Hw.
Qed.

Lemma foldM_add_ndsplit data ndsplits out out' :
  foldM (add_ndsplit worker_for data) out ndsplits = Ok out' →
  ∃ entries, Forall2 (entry_of worker_for data) ndsplits entries
             ∧ out' = foldl out_append out entries.
Proof.
  revert out. induction ndsplits as [|ndsplit ndsplits IH]; intros out; cbn.
  - intros [= <-]. exists []. by split.
  - destruct (add_ndsplit worker_for data out ndsplit) as [out1|] eqn:H1;
      [|done].
    cbn. intros Hrest.
    destruct (add_ndsplit_entry _ _ _ _ H1) as (e & He & ->).
    destruct (IH _ Hrest) as (entries & Hentries & ->).
    exists (e :: entries). split; [by constructor|done].
Qed.

Lemma foldl_out_append_lookup entries out w :
  foldl out_append out entries !! w =
    match out !! w, filter (λ e, e.1 = w) entries with
    | None, [] => None
    | o, es => Some (default [] o ++ (snd <$> es))
    end.
Proof.
  revert out. induction entries as [|e entries IH]; intros out.
  - cbn. destruct (out !! w); cbn; [by rewrite app_nil_r|done].
  - cbn [foldl]. rewrite IH. unfold out_append at 1. rewrite filter_cons.
    destruct (decide (e.1 = w)) as [<-|Hne].
    + rewrite lookup_insert_eq. cbn.
      destruct (out !! e.1); cbn; rewrite <- ?app_assoc; done.
    + by rewrite lookup_insert_ne.
Qed.

Lemma split_partition_entries data partition_id out :
  split_partition worker_for split_axes data partition_id = Ok out →
  ∃ splits entries,
    brick_splits split_axes partition_id = Ok splits
    ∧ Forall2 (entry_of worker_for data) (product splits) entries
    ∧ ∀ w, out !! w =
        match filter (λ e, e.1 = w) entries with
        | [] => None
        | es => Some (partition_id, dumps (snd <$> es))
        end.
Proof.
  unfold split_partition.
  destruct (brick_splits split_axes partition_id) as [splits|] eqn:Hsp;
    [|done].
  cbn. destruct (foldM _ _ _) as [out0|] eqn:Hfold; [|done].
  cbn. intros [= <-].
  destruct (foldM_add_ndsplit _ _ _ _ Hfold) as (entries & Hentries & ->).
  exists splits, entries. repeat split; [done|].
  intros w. rewrite lookup_fmap, foldl_out_append_lookup, lookup_empty.
  by destruct (filter _ entries).
Qed.

End split_partition.

(** C8, as the code has it.  [add_partition] leaves no split out: when
    it succeeds, the payloads it writes to the comm buffer hold exactly
    one entry [(chunk_index, (shard_index, data[ndslice]))] for every
    element of the Cartesian product of the brick's per-axis splits, in
    the order of the product, under the worker that owns [chunk_index],
    whether or not the slice selects any element of the brick. *)
Theorem add_partition_sends_every_split
    (worker_for : gmap NDIndex WorkerAddress) (split_axes : Rechunk.SplitAxes)
    (pickle : Rechunk.Pickle (list (NDIndex * ArrayRechunkRun.Shard)))
    (data : Rechunk.ndarray) (partition_id : NDIndex)
    (s s' : ArrayRechunkRun.State) (run_id' : Z) :
  ArrayRechunkRun.add_partition worker_for split_axes data partition_id s
  = (Ok run_id', s') →
  ∃ splits entries out,
    ArrayRechunkRun.brick_splits split_axes partition_id = Ok splits
    ∧ Forall2 (Payload.entry_of worker_for data) (product splits) entries
    ∧ length entries = length (product splits)
    ∧ ShuffleRun.comm s' = ShuffleRun.comm s ++ [out]
    ∧ ∀ w, out !! w =
        match filter (λ e, e.1 = w) entries with
        | [] => None
        | es => Some (partition_id, Rechunk.dumps (snd <$> es))
        end.
Proof.
  unfold ArrayRechunkRun.add_partition, ShuffleRun.offload,
    ShuffleRun._write_to_comm, mbind, ShuffleRun.op_bind,
    ShuffleRun.check_closed, ShuffleRun.get, ShuffleRun.raise,
    ShuffleRun.lift, ShuffleRun.modify, mret, ShuffleRun.op_ret.
  destruct (ShuffleRun.raise_if_closed (ShuffleRun.core s)) as [[]|e]
    eqn:Hopen; [|done].
  destruct (ShuffleRun.transferred s); [done|].
  rewrite Hopen.
  destruct (ArrayRechunkRun.split_partition _ _ _ _) as [out|] eqn:Hout;
    cbn; rewrite ?Hopen; [|done].
  intros [= <- <-].
  destruct (split_partition_entries _ _ _ _ _ Hout)
    as (splits & entries & Hsplits & Hentries & Hlookup).
  exists splits, entries, out. repeat split; try done.
  symmetry. by eapply Forall2_length.
Qed.

Section split_partition_examples.
Import ShuffleRun Rechunk RechunkExamples.
Local Open Scope nat_scope.

(** The splits of the run below are those that [split_axes] computes for
    [old = ((4,),)] and [new = ((4, 0),)]. *)
Lemma split_axes_40_computed :
  split_axes (λ _ _, old_to_new_40) old_40 new_40 = Ok split_axes_40.
Proof. reflexivity. Qed.

(** C8 as stated fails: the brick [[10, 11, 12, 13]] of that run has a
    split whose slice [4:4] selects no element, and [add_partition]
    serializes the entry with the empty shard into the payload of the
    worker that owns new chunk 1. *)
Lemma add_partition_sends_empty_shard :
  getitem brick_40 [mkSlice 4 4] = Ok (Nested [])
  ∧ size (Nested []) = 0
  ∧ ∃ s' out,
      ArrayRechunkRun.add_partition worker_for_40 split_axes_40 brick_40 [0]
        ArrayRunExamples.accepting = (Ok 1%Z, s')
      ∧ comm s' = [out]
      ∧ out !! "tcp://w1"
        = Some ([0], dumps [([1], ([0], Nested []))]).
Proof.
  split; [reflexivity|]. split; [reflexivity|].
  eexists _, _. split; [vm_compute; reflexivity|].
  split; [reflexivity|]. vm_compute. reflexivity.
Qed.

Lemma add_partition_sends_every_split_witness :
  ∃ entries,
    Forall2 (Payload.entry_of worker_for_40 brick_40)
      (product [[mkSplit 0 0 (mkSlice 0 4); mkSplit 1 0 (mkSlice 4 4)]])
      entries
    ∧ length entries = 2.
Proof.
  destruct (add_partition_sends_every_split worker_for_40 split_axes_40 _
              brick_40 [0] ArrayRunExamples.accepting
              (ArrayRechunkRun.add_partition worker_for_40 split_axes_40
                 brick_40 [0] ArrayRunExamples.accepting).2 1%Z)
    as (splits & entries & out & Hsplits & Hentries & Hlen & _).
  - vm_compute. reflexivity.
  - injection Hsplits as <-. exists entries. split; [exact Hentries|].
    exact Hlen.
Defined.

End split_partition_examples.

(** ** The stable sort *)

Section sort_by.
Context {A : Type} (key : A → Z).
Local Abbreviation key_le := (key_le key).

Lemma insert_by_Permutation x l : insert_by key x l ≡ₚ x :: l.
Proof.
  induction l as [|y l IH]; cbn; [done|].
  case_bool_decide; [|done].
  rewrite IH. apply Permutation_swap.
Qed.

Lemma insert_by_sorted x l :
  StronglySorted key_le l → StronglySorted key_le (insert_by key x l).
Proof.
  induction 1 as [|y l Hl IH Hy]; cbn.
  - repeat constructor.
  - case_bool_decide as Hxy.
    + constructor; [done|].
      rewrite insert_by_Permutation. constructor; [done|done].
    + constructor; [by constructor|].
      constructor; [unfold key_le; lia|].
      eapply Forall_impl; [exact Hy|]. unfold key_le. intros z Hz. cbn in *. lia.
Qed.

Lemma foldl_insert_by_Permutation l acc :
  foldl (λ acc x, insert_by key x acc) acc l ≡ₚ acc ++ l.
Proof.
  revert acc. induction l as [|x l IH]; intros acc; cbn.
  - by rewrite app_nil_r.
  - rewrite IH, insert_by_Permutation. cbn. apply Permutation_middle.
Qed.

Lemma foldl_insert_by_sorted l acc :
  StronglySorted key_le acc →
  StronglySorted key_le (foldl (λ acc x, insert_by key x acc) acc l).
Proof.
  revert acc. induction l as [|x l IH]; intros acc Hacc; cbn; [done|].
  by apply IH, insert_by_sorted.
Qed.

Lemma sort_by_Permutation l : sort_by key l ≡ₚ l.
Proof. unfold sort_by. by rewrite foldl_insert_by_Permutation. Qed.

Lemma sort_by_sorted l : StronglySorted key_le (sort_by key l).
Proof. apply foldl_insert_by_sorted. constructor. Qed.

Lemma sort_by_length l : length (sort_by key l) = length l.
Proof. by rewrite sort_by_Permutation. Qed.

Lemma StronglySorted_weaken (R1 R2 : relation A) l :
  (∀ a b, R1 a b → R2 a b) → StronglySorted R1 l → StronglySorted R2 l.
Proof.
  intros HR. induction 1 as [|x l Hl IH Hx]; constructor; [done|].
  eapply Forall_impl; [exact Hx|]. intros; by apply HR.
Qed.

(** A list whose keys are already strictly increasing is what sorting
    any rearrangement of it gives. *)
Lemma sort_by_unique l l' :
  StronglySorted (λ a b, key a < key b) l → l' ≡ₚ l → sort_by key l' = l.
Proof.
  intros Hl Hperm.
  assert (Hinj : ∀ x1 x2, x1 ∈ l → x2 ∈ l → key x1 = key x2 → x1 = x2).
  { clear Hperm l'. induction Hl as [|x l Hl IH Hx]; intros x1 x2 H1 H2 Hk.
    { by apply elem_of_nil in H1. }
    rewrite Forall_forall in Hx.
    apply elem_of_cons in H1 as [->|H1]; apply elem_of_cons in H2 as [->|H2].
    - done.
    - specialize (Hx _ H2). lia.
    - specialize (Hx _ H1). lia.
    - by apply IH. }
  apply (StronglySorted_unique_strong key_le).
  - intros x1 x2 H1 H2 H12 H21. unfold key_le in *.
    apply Hinj; [|done|lia].
    by rewrite <- Hperm, <- sort_by_Permutation.
  - apply sort_by_sorted.
  - eapply StronglySorted_weaken; [|exact Hl].
    unfold key_le. intros a b. cbn. lia.
  - by rewrite sort_by_Permutation.
Qed.

End sort_by.

(** ** Loops that may raise *)

Lemma foldM_app {A S : Type} (f : S → A → result S) s l1 l2 :
  foldM f s (l1 ++ l2) = let* s' := foldM f s l1 in foldM f s' l2.
Proof.
  revert s. induction l1 as [|x l1 IH]; intros s; cbn; [done|].
  destruct (f s x) as [s'|e]; cbn; [apply IH|done].
Qed.

(** A loop nest is one loop over the flattened iteration space. *)
Lemma foldM_nested {S B C D : Type} (g : B → list C) (h : B → C → D)
    (f : S → D → result S) s (l : list B) :
  foldM (λ s b, foldM (λ s c, f s (h b c)) s (g b)) s l
  = foldM f s (b ← l; h b <$> g b).
Proof.
  revert s. induction l as [|b l IH]; intros s; cbn; [done|].
  rewrite foldM_app.
  assert (Hinner : foldM (λ s c, f s (h b c)) s (g b)
                   = foldM f s (h b <$> g b)).
  { generalize (g b) as cs. clear. intros cs. revert s.
    induction cs as [|c cs IH]; intros s; cbn; [done|].
    destruct (f s (h b c)); cbn; [apply IH|done]. }
  rewrite Hinner.
  destruct (foldM f s (h b <$> g b)) as [s'|e]; cbn; [apply IH|done].
Qed.

Lemma mapM_result_Forall2 {A B : Type} (f : A → result B) l l' :
  mapM f l = Ok l' ↔ Forall2 (λ x y, f x = Ok y) l l'.
Proof.
  revert l'. induction l as [|x l IH]; intros l'; cbn.
  - split; [intros [= <-]; constructor|by inversion 1].
  - split.
    + destruct (f x) as [y|] eqn:Hy; cbn; [|done].
      destruct (mapM f l) as [ys|] eqn:Hys; cbn; [|done].
      intros [= <-]. constructor; [done|]. by apply IH.
    + inversion 1 as [|? y ? ys Hy Hys]; subst.
      rewrite Hy. cbn. apply IH in Hys. rewrite Hys. done.
Qed.

(** ** [enumerate] *)

Section enumerate.
Context {A : Type}.
Local Open Scope nat_scope.

Lemma enumerate_lookup (l : list A) i p :
  enumerate l !! i = Some p ↔ p.1 = i ∧ l !! i = Some p.2.
Proof.
  unfold enumerate. destruct p as [j x]. cbn.
  rewrite lookup_zip_with_Some. split.
  - intros (j' & x' & [= <- <-] & Hj & Hx).
    apply lookup_seq in Hj as [-> _]. done.
  - intros [-> Hx]. exists i, x. repeat split; [|done].
    apply lookup_seq. split; [done|]. by eapply lookup_lt_Some.
Qed.

Lemma enumerate_length (l : list A) : length (enumerate l) = length l.
Proof. unfold enumerate. rewrite length_zip, length_seq. lia. Qed.

Lemma enumerate_snd (l : list A) : snd <$> enumerate l = l.
Proof. unfold enumerate. apply snd_zip. by rewrite length_seq. Qed.

Lemma enumerate_fst (l : list A) : fst <$> enumerate l = seq 0 (length l).
Proof. unfold enumerate. apply fst_zip. by rewrite length_seq. Qed.

End enumerate.

(** ** Splits along one axis *)

Section split_axis.
Import Rechunk SplitSpec SplitEntries.
Local Open Scope nat_scope.

Lemma split_axis_entries old_axis_chunks new_axis :
  split_axis old_axis_chunks new_axis =
    let* old_axis :=
      foldM (λ old_axis e, append_split old_axis e.1 e.2)
        (replicate (length old_axis_chunks) []) (axis_entries new_axis) in
    Ok (map (sort_by (λ split, Z.of_nat (start (slice split)))) old_axis).
Proof.
  unfold split_axis, axis_entries.
  by rewrite (foldM_nested (λ nc, enumerate nc.2)
                (λ nc sc, (sc.2.1, mkSplit nc.1 sc.1 sc.2.2))
                (λ old_axis e, append_split old_axis e.1 e.2)).
Qed.

(** Appending the entries one by one fills bucket [i] with the splits of
    the entries for old chunk [i], in the order of the entries. *)
Lemma foldM_append_split (entries : list (nat * Split)) (buckets : SplitAxis) :
  (∀ e, e ∈ entries → e.1 < length buckets) →
  ∃ buckets',
    foldM (λ old_axis e, append_split old_axis e.1 e.2) buckets entries
    = Ok buckets'
    ∧ length buckets' = length buckets
    ∧ ∀ i b, buckets !! i = Some b →
        buckets' !! i = Some (b ++ (snd <$> filter (λ e, e.1 = i) entries)).
Proof.
  revert buckets. induction entries as [|e entries IH]; intros buckets Hin.
  - exists buckets. cbn. split; [done|]. split; [done|].
    intros i b Hb. by rewrite app_nil_r.
  - destruct e as [i0 sp].
    assert (He : i0 < length buckets) by (apply (Hin (i0, sp)); left).
    destruct (lookup_lt_is_Some_2 _ _ He) as [b0 Hb0].
    assert (Hstep : append_split buckets i0 sp
                    = Ok (<[i0 := b0 ++ [sp]]> buckets)).
    { unfold append_split. by rewrite Hb0. }
    destruct (IH (<[i0 := b0 ++ [sp]]> buckets))
      as (buckets' & Hf & Hlen & Hlk).
    { intros e' He'. rewrite length_insert. apply Hin. by right. }
    exists buckets'. split; [cbn; by rewrite Hstep|].
    rewrite length_insert in Hlen.
    split; [done|]. intros i b Hb. rewrite filter_cons. cbn [fst].
    destruct (decide (i0 = i)) as [<-|Hne].
    + rewrite (Hlk i0 (b0 ++ [sp])).
      * simplify_eq. cbn. by rewrite <- app_assoc.
      * by apply list_lookup_insert_eq.
    + apply Hlk. by rewrite list_lookup_insert_ne.
Qed.

Lemma filter_split_Permutation {X : Type} (P Q R : X → Prop)
    `{∀ x, Decision (P x), ∀ x, Decision (Q x), ∀ x, Decision (R x)}
    (l : list X) :
  (∀ x, R x ↔ P x ∨ Q x) → (∀ x, P x → Q x → False) →
  filter P l ++ filter Q l ≡ₚ filter R l.
Proof.
  intros HR Hdisj. induction l as [|x l IH]; [done|].
  rewrite !filter_cons.
  pose proof (HR x) as HRx'. pose proof (Hdisj x) as Hdx.
  destruct (decide (P x)) as [HP|HP], (decide (Q x)) as [HQ|HQ],
    (decide (R x)) as [HRx|HRx];
    try (exfalso; tauto).
  - cbn. by rewrite IH.
  - rewrite <- Permutation_middle. by rewrite IH.
  - done.
Qed.

Lemma filter_fst_tag {X : Type} (m : nat) (l : list (nat * X)) :
  (λ x, (m, x)) <$> (snd <$> filter (λ e, e.1 = m) l)
  = filter (λ e, e.1 = m) l.
Proof.
  induction l as [|[i x] l IH]; [done|].
  rewrite filter_cons. cbn. case_decide; cbn; [|done].
  subst. by rewrite IH.
Qed.

(** Reading the buckets back, with the index of each, gives the entries
    again up to order. *)
Lemma indexed_buckets_Permutation (entries : list (nat * Split))
    (buckets : SplitAxis) (m : nat) :
  (∀ i b, buckets !! i = Some b →
     b ≡ₚ snd <$> filter (λ e, e.1 = m + i) entries) →
  (ic ← zip (seq m (length buckets)) buckets;
   (λ split, (ic.1, split)) <$> ic.2)
  ≡ₚ filter (λ e, m ≤ e.1 < m + length buckets) entries.
Proof.
  revert m. induction buckets as [|b buckets IH]; intros m Hb.
  - cbn. clear Hb. induction entries as [|e entries IHe]; [done|].
    rewrite filter_cons. case_decide as He; [cbn in He; lia|done].
  - cbn [length seq zip zip_with mbind list_bind]. cbn.
    rewrite (IH (S m)).
    2:{ intros i b' Hb'. rewrite (Hb (S i) b' Hb').
        by replace (m + S i) with (S m + i) by lia. }
    rewrite (Hb 0 b eq_refl). replace (m + 0) with m by lia.
    rewrite filter_fst_tag.
    apply filter_split_Permutation; intros; lia.
Qed.

Lemma indexed_splits_Permutation (entries : list (nat * Split))
    (buckets : SplitAxis) :
  (∀ e, e ∈ entries → e.1 < length buckets) →
  (∀ i b, buckets !! i = Some b →
     b ≡ₚ snd <$> filter (λ e, e.1 = i) entries) →
  indexed_splits buckets ≡ₚ entries.
Proof.
  intros Hin Hb. unfold indexed_splits, enumerate.
  rewrite (indexed_buckets_Permutation entries buckets 0 Hb).
  clear Hb. induction entries as [|e entries IH]; [done|].
  rewrite filter_cons.
  assert (e.1 < length buckets) by (apply Hin; left).
  case_decide; [|lia]. f_equiv. apply IH. intros; apply Hin; by right.
Qed.

End split_axis.

Section regroup.
Import Rechunk SplitSpec SplitEntries.
Local Open Scope nat_scope.

Lemma filter_chunk_entries j m pairs :
  filter (λ e : nat * Split, chunk_index e.2 = j) (chunk_entries m pairs)
  = if decide (m = j) then chunk_entries m pairs else [].
Proof.
  unfold chunk_entries. induction (enumerate pairs) as [|sc l IH].
  - cbn. by case_decide.
  - rewrite fmap_cons, filter_cons, IH. cbn. by case_decide.
Qed.

Lemma filter_axis_entries_from j m (l : list (list (nat * Slice))) :
  filter (λ e : nat * Split, chunk_index e.2 = j)
    (nc ← zip (seq m (length l)) l; chunk_entries nc.1 nc.2)
  = if decide (m ≤ j) then chunk_entries j (default [] (l !! (j - m)))
    else [].
Proof.
  revert m. induction l as [|pairs l IH]; intros m.
  - cbn. case_decide; [|done]. by rewrite lookup_nil.
  - cbn [length seq zip zip_with mbind list_bind]. cbn [fst snd].
    rewrite filter_app, filter_chunk_entries.
    change (filter _ (zip_with pair (seq (S m) (length l)) l ≫= _))
      with (filter (λ e : nat * Split, chunk_index e.2 = j)
              (nc ← zip (seq (S m) (length l)) l; chunk_entries nc.1 nc.2)).
    rewrite IH.
    destruct (decide (m = j)) as [->|Hne].
    + rewrite decide_False by lia. rewrite decide_True by lia.
      replace (j - j) with 0 by lia. cbn. by rewrite app_nil_r.
    + cbn. destruct (decide (S m ≤ j)) as [Hle|Hgt].
      * rewrite decide_True by lia.
        replace (j - m) with (S (j - S m)) by lia. done.
      * by rewrite decide_False by lia.
Qed.

Lemma filter_axis_entries j new_axis :
  filter (λ e : nat * Split, chunk_index e.2 = j) (axis_entries new_axis)
  = chunk_entries j (default [] (new_axis !! j)).
Proof.
  change (filter (λ e : nat * Split, chunk_index e.2 = j)
            (nc ← zip (seq 0 (length new_axis)) new_axis;
             chunk_entries nc.1 nc.2)
          = chunk_entries j (default [] (new_axis !! j))).
  rewrite filter_axis_entries_from. rewrite decide_True by lia.
  by replace (j - 0) with j by lia.
Qed.

Lemma chunk_entries_sorted_from j m (pairs : list (nat * Slice)) :
  StronglySorted
    (λ a b : nat * Split,
       (Z.of_nat (split_index a.2) < Z.of_nat (split_index b.2))%Z)
    ((λ sc : nat * (nat * Slice), (sc.2.1, mkSplit j sc.1 sc.2.2))
       <$> zip (seq m (length pairs)) pairs).
Proof.
  revert m. induction pairs as [|p pairs IH]; intros m; cbn; constructor.
  - apply IH.
  - apply Forall_forall. intros e He.
    apply list_elem_of_fmap in He as (sc & -> & Hsc).
    apply list_elem_of_lookup in Hsc as [i Hi].
    apply lookup_zip_with_Some in Hi as (k & x & -> & Hk & _).
    apply lookup_seq in Hk as [-> _]. cbn. lia.
Qed.

Lemma chunk_entries_sorted j pairs :
  StronglySorted
    (λ a b : nat * Split,
       (Z.of_nat (split_index a.2) < Z.of_nat (split_index b.2))%Z)
    (chunk_entries j pairs).
Proof. apply chunk_entries_sorted_from. Qed.

Lemma chunk_entries_pairs j pairs :
  (λ p : nat * Split, (p.1, slice p.2)) <$> chunk_entries j pairs = pairs.
Proof.
  unfold chunk_entries. rewrite <- list_fmap_compose.
  rewrite <- (enumerate_snd pairs) at 2.
  apply list_fmap_ext. by intros _ [k [i sl]] _.
Qed.

Lemma chunk_entries_split_index j pairs :
  (λ p : nat * Split, split_index p.2) <$> chunk_entries j pairs
  = seq 0 (length pairs).
Proof.
  unfold chunk_entries. rewrite <- list_fmap_compose.
  rewrite <- (enumerate_fst pairs).
  apply list_fmap_ext. by intros _ [k [i sl]] _.
Qed.

Lemma chunk_entries_chunk_index j pairs :
  Forall (λ p : nat * Split, chunk_index p.2 = j) (chunk_entries j pairs).
Proof.
  unfold chunk_entries. apply Forall_fmap, Forall_forall. by intros [k [i sl]] _.
Qed.

Lemma elem_of_axis_entries e new_axis :
  e ∈ axis_entries new_axis →
  ∃ j pairs sl, new_axis !! j = Some pairs ∧ (e.1, sl) ∈ pairs.
Proof.
  unfold axis_entries. intros He.
  apply list_elem_of_bind in He as (nc & He & Hnc).
  apply list_elem_of_fmap in He as (sc & -> & Hsc).
  apply list_elem_of_lookup in Hnc as [j Hj].
  apply enumerate_lookup in Hj as [_ Hj].
  apply list_elem_of_lookup in Hsc as [k Hk].
  apply enumerate_lookup in Hk as [_ Hk].
  exists j, nc.2, sc.2.2. split; [done|].
  apply list_elem_of_lookup. exists k. rewrite Hk. by destruct sc as [? []].
Qed.

End regroup.

Section split_axes_claim.
Import Rechunk SplitSpec SplitEntries.
Local Open Scope nat_scope.
#[local] Arguments split_axis : simpl never.

(** One axis: when every old chunk index that [old_to_new] names exists,
    the loop nest succeeds with one sorted list per old chunk, and
    reading the splits of new chunk [j] back in [split_index] order gives
    the pairs of [old_to_new] for [j]. *)
Lemma split_axis_regroup (old_a : ChunkedAxis)
    (o2n_a : list (list (nat * Slice))) :
  (∀ j pairs p, o2n_a !! j = Some pairs → p ∈ pairs → p.1 < length old_a) →
  ∃ axis,
    split_axis old_a o2n_a = Ok axis
    ∧ length axis = length old_a
    ∧ (∀ i old_chunk, axis !! i = Some old_chunk →
         StronglySorted (key_le (λ split, Z.of_nat (start (slice split))))
           old_chunk)
    ∧ (∀ j, splits_of_new_chunk axis j
            = chunk_entries j (default [] (o2n_a !! j))).
Proof.
  intros Hrange. rewrite split_axis_entries.
  destruct (foldM_append_split (axis_entries o2n_a)
              (replicate (length old_a) []))
    as (buckets & -> & Hlen & Hlk).
  { intros e He. rewrite length_replicate.
    destruct (elem_of_axis_entries _ _ He) as (j & pairs & sl & Hj & Hp).
    apply (Hrange j pairs (e.1, sl) Hj Hp). }
  rewrite length_replicate in Hlen. cbn.
  eexists. split; [done|]. split; [by rewrite length_map|].
  split.
  - intros i old_chunk Hi.
    change (map ?f buckets) with (f <$> buckets) in Hi.
    rewrite list_lookup_fmap in Hi.
    destruct (buckets !! i); [|done]. injection Hi as <-.
    apply sort_by_sorted.
  - intros j. unfold splits_of_new_chunk.
    apply sort_by_unique; [apply chunk_entries_sorted|].
    rewrite <- filter_axis_entries. apply filter_Permutation.
    apply indexed_splits_Permutation.
    + intros e He. rewrite length_map, Hlen.
      destruct (elem_of_axis_entries _ _ He) as (j' & pairs & sl & Hj & Hp).
      apply (Hrange j' pairs (e.1, sl) Hj Hp).
    + intros i b Hi.
      change (map ?f buckets) with (f <$> buckets) in Hi.
      rewrite list_lookup_fmap in Hi.
      destruct (buckets !! i) as [b'|] eqn:Hb'; [|done]. injection Hi as <-.
      rewrite sort_by_Permutation.
      assert (Hi' : replicate (length old_a) (@nil Split) !! i = Some []).
      { apply lookup_replicate. split; [done|].
        rewrite <- Hlen. by eapply lookup_lt_Some. }
      rewrite (Hlk i [] Hi') in Hb'. by injection Hb' as <-.
Qed.

(** C2. For old and new chunkings with equal totals on every axis for
    which [old_to_new] keeps its contract, [split_axes] returns one list
    per axis with exactly one list of splits per old chunk; each of these
    is sorted by [slice.start]; and on each axis the splits assigned to a
    new chunk, taken in [split_index] order, are the pairs of
    [old_to_new] for that chunk, numbered from 0, and exactly tile it:
    they start where the chunk starts, follow one another and their
    lengths sum to its size. *)
Theorem split_axes_tile_new_chunks
    (old_to_new : ChunkedAxes → ChunkedAxes → OldToNew)
    (old new : ChunkedAxes) :
  Forall2 (λ old_a new_a, sum_list old_a = sum_list new_a) old new →
  old_to_new_contract old new (old_to_new old new) →
  ∃ axes,
    split_axes old_to_new old new = Ok axes
    ∧ length axes = length old
    ∧ ∀ a axis old_a new_a,
        axes !! a = Some axis → old !! a = Some old_a →
        new !! a = Some new_a →
        length axis = length old_a
        ∧ (∀ i old_chunk, axis !! i = Some old_chunk →
             StronglySorted (key_le (λ split, Z.of_nat (start (slice split))))
               old_chunk)
        ∧ (∀ j, j < length new_a →
             (λ p, split_index p.2) <$> splits_of_new_chunk axis j
             = seq 0 (length (splits_of_new_chunk axis j))
             ∧ Forall (λ p, chunk_index p.2 = j) (splits_of_new_chunk axis j)
             ∧ tiles old_a new_a j
                 ((λ p, (p.1, slice p.2)) <$> splits_of_new_chunk axis j)).
Proof.
  intros _ (Hlen_o2n & Hlen_new & Hcontract).
  set (o2n := old_to_new old new) in *.
  assert (Haxis : ∀ a o2n_a old_a, o2n !! a = Some o2n_a →
            old !! a = Some old_a →
            ∀ j pairs p, o2n_a !! j = Some pairs → p ∈ pairs →
              p.1 < length old_a).
  { intros a o2n_a old_a Ho2n Hold j pairs p Hj Hp.
    destruct (lookup_lt_is_Some_2 new a) as [new_a Hnew].
    { rewrite Hlen_new. by eapply lookup_lt_Some. }
    destruct (Hcontract a old_a new_a o2n_a Hold Hnew Ho2n) as [_ Htiles].
    destruct (Htiles j pairs Hj) as (n & _ & Hfrom & _).
    clear -Hfrom Hp. revert Hfrom. generalize (offset new_a j) as pos.
    induction pairs as [|q pairs IH]; intros pos Hfrom.
    { by apply elem_of_nil in Hp. }
    cbn in Hfrom. destruct Hfrom as ((n & Hn & _) & _ & Hrest).
    apply elem_of_cons in Hp as [->|Hp]; [by eapply lookup_lt_Some|].
    by eapply IH. }
  assert (Hall : Forall2 (λ (an : nat * list (list (nat * Slice))) axis,
              match old !! an.1 with
              | Some old_axis_chunks => split_axis old_axis_chunks an.2
              | None => Raise (IndexError "tuple index out of range")
              end = Ok axis)
            (enumerate o2n)
            ((λ an : nat * list (list (nat * Slice)),
                match old !! an.1 with
                | Some old_a =>
                    match split_axis old_a an.2 with
                    | Ok axis => axis
                    | Raise _ => []
                    end
                | None => []
                end) <$> enumerate o2n)).
  { apply Forall2_fmap_r, Forall_Forall2_diag, Forall_forall.
    intros [a o2n_a] Han. apply list_elem_of_lookup in Han as [a' Han].
    apply enumerate_lookup in Han as [Ha Ho2n]. cbn in Ha, Ho2n. subst a'.
    lazy beta. cbn [fst snd].
    destruct (lookup_lt_is_Some_2 old a) as [old_a Hold].
    { rewrite <- Hlen_o2n. by eapply lookup_lt_Some. }
    rewrite Hold.
    destruct (split_axis_regroup old_a o2n_a (Haxis a o2n_a old_a Ho2n Hold))
      as (axis & Heq & _).
    unfold compose. cbn [fst snd]. by rewrite Hold, Heq. }
  apply mapM_result_Forall2 in Hall.
  eexists. split; [exact Hall|].
  split; [by rewrite length_fmap, enumerate_length|].
  intros a axis old_a new_a Ha Hold Hnew.
  rewrite list_lookup_fmap in Ha.
  destruct (enumerate o2n !! a) as [[a' o2n_a]|] eqn:Han; [|done].
  apply enumerate_lookup in Han as [Ha' Ho2n]. cbn in Ha', Ho2n. subst a'.
  cbn in Ha. rewrite Hold in Ha.
  destruct (split_axis_regroup old_a o2n_a (Haxis a o2n_a old_a Ho2n Hold))
    as (axis' & Heq & Hlen & Hsorted & Hregroup).
  rewrite Heq in Ha. injection Ha as <-.
  split; [done|]. split; [done|].
  intros j Hj. rewrite Hregroup.
  destruct (Hcontract a old_a new_a o2n_a Hold Hnew Ho2n) as [Hlen_a Htiles].
  destruct (lookup_lt_is_Some_2 o2n_a j) as [pairs Hpairs]; [lia|].
  rewrite Hpairs. cbn [default from_option id].
  split; [|split].
  - rewrite chunk_entries_split_index. unfold chunk_entries.
    by rewrite length_fmap, enumerate_length.
  - apply chunk_entries_chunk_index.
  - rewrite chunk_entries_pairs. by apply Htiles.
Qed.

End split_axes_claim.

Section split_axes_examples.
Import Rechunk SplitSpec RechunkExamples.
Local Open Scope nat_scope.

Local Ltac tile :=
  eexists; split; [reflexivity|]; split; [|reflexivity];
  cbn; repeat split; eauto with lia.

(** The table of scenario S2 keeps the contract of [old_to_new]. *)
Lemma old_to_new_444_contract :
  old_to_new_contract old_444 new_3333 old_to_new_444.
Proof.
  split; [reflexivity|]. split; [reflexivity|].
  intros [|a] old_a new_a o2n_a; [|done].
  intros [= <-] [= <-] [= <-]. split; [reflexivity|].
  intros [|[|[|[|j]]]] pairs; [| | | |done]; intros [= <-]; tile.
Qed.

Lemma split_axes_tile_new_chunks_witness :
  ∃ axes,
    split_axes (λ _ _, old_to_new_444) old_444 new_3333 = Ok axes
    ∧ length axes = 1.
Proof.
  destruct (split_axes_tile_new_chunks (λ _ _, old_to_new_444)
              old_444 new_3333) as (axes & Haxes & Hlen & _).
  - repeat constructor.
  - exact old_to_new_444_contract.
  - exists axes. split; [exact Haxes|exact Hlen].
Defined.

(** Scenario S2: the splits of the three old chunks, and the new chunks
    read back from them. *)
Lemma split_axes_444 :
  split_axes (λ _ _, old_to_new_444) old_444 new_3333
  = Ok [[ [mkSplit 0 0 (mkSlice 0 3); mkSplit 1 0 (mkSlice 3 4)];
          [mkSplit 1 1 (mkSlice 0 2); mkSplit 2 0 (mkSlice 2 4)];
          [mkSplit 2 1 (mkSlice 0 1); mkSplit 3 0 (mkSlice 1 4)] ]].
Proof. reflexivity. Qed.

End split_axes_examples.

(** ** Products and lattices of indices *)

Section product.
Context {A : Type}.
Local Open Scope nat_scope.

Lemma elem_of_product (ls : list (list A)) (p : list A) :
  p ∈ product ls ↔ Forall2 (λ x l, x ∈ l) p ls.
Proof.
  revert p. induction ls as [|l ls IH]; intros p; cbn.
  - rewrite list_elem_of_singleton. split; [intros ->; constructor|].
    by inversion 1.
  - rewrite list_elem_of_bind. split.
    + intros (x & Hp & Hx). apply list_elem_of_fmap in Hp as (q & -> & Hq).
      constructor; [done|]. by apply IH.
    + inversion 1 as [|x ? q ? Hx Hq]; subst. exists x. split; [|done].
      apply list_elem_of_fmap. exists q. split; [done|]. by apply IH.
Qed.

Lemma NoDup_product (ls : list (list A)) :
  Forall NoDup ls → NoDup (product ls).
Proof.
  induction 1 as [|l ls Hl Hls IH]; cbn.
  - apply NoDup_singleton.
  - apply NoDup_bind; [| |done].
    + intros x1 x2 p _ _ H1 H2.
      apply list_elem_of_fmap in H1 as (q1 & -> & _).
      apply list_elem_of_fmap in H2 as (q2 & [= <- _] & _). done.
    + intros x _. apply NoDup_fmap_2; [|done]. by intros q1 q2 [= <-].
Qed.

Lemma length_product (ls : list (list A)) :
  length (product ls) = prod_lengths ls.
Proof.
  unfold prod_lengths. induction ls as [|l ls IH]; cbn; [done|].
  rewrite <- IH. clear IH. induction l as [|x l IHl]; cbn; [done|].
  rewrite length_app, length_fmap, IHl. done.
Qed.

End product.

Section lattice.
Import Rechunk.
Local Open Scope nat_scope.

Lemma elem_of_ndindex (shape : list nat) (k : NDIndex) :
  k ∈ ndindex shape ↔ Forall2 (λ i n, i < n) k shape.
Proof.
  unfold ndindex. rewrite elem_of_product, Forall2_fmap_r.
  split; intros H; (eapply Forall2_impl; [exact H|]); intros i n; cbn;
    rewrite elem_of_seq; lia.
Qed.

Lemma NoDup_ndindex (shape : list nat) : NoDup (ndindex shape).
Proof.
  apply NoDup_product, Forall_fmap, Forall_forall. intros n _. apply NoDup_seq.
Qed.

Lemma length_ndindex (shape : list nat) : length (ndindex shape) = prod shape.
Proof.
  unfold ndindex. rewrite length_product. unfold prod_lengths, prod.
  induction shape as [|n shape IH]; cbn; [done|].
  by rewrite length_seq, IH.
Qed.

(** When all keys have [n] positions, the tuples of [zip_star] are the
    columns of the keys. *)
Lemma zip_star_columns (keys : list NDIndex) (n : nat) :
  keys ≠ [] → Forall (λ k, length k = n) keys →
  zip_star keys = (λ d, (λ k : NDIndex, default 0 (k !! d)) <$> keys) <$> seq 0 n.
Proof.
  intros Hne Hlen. destruct keys as [|k keys]; [done|].
  unfold zip_star.
  assert (Hmin : foldr Nat.min (length k) (length <$> keys) = n).
  { apply Forall_cons in Hlen as [Hk Hkeys]. rewrite Hk. clear Hk Hne.
    induction Hkeys as [|k' keys Hk' _ IH]; cbn; [done|]. rewrite IH. lia. }
  rewrite Hmin. apply list_fmap_ext. intros i d Hd.
  apply lookup_seq in Hd as [Heq Hd]. cbn in Heq. subst d.
  rename i into d.
  generalize (k :: keys) Hlen. clear -Hd. intros keys Hlen.
  induction Hlen as [|k keys Hk _ IH]; [done|]. cbn.
  destruct (lookup_lt_is_Some_2 k d) as [i Hi]; [lia|].
  rewrite Hi. cbn. by rewrite IH.
Qed.

(** On a full lattice the shape computed from the keys, one more than the
    largest index along each axis, is the shape of the lattice. *)
Lemma subshape_of_lattice (keys : list NDIndex) (shape : list nat) :
  Forall (λ n, 0 < n) shape → keys ≡ₚ ndindex shape →
  (λ dim, S (max_list dim)) <$> zip_star keys = shape.
Proof.
  intros Hpos Hkeys.
  assert (Htop : ((λ n, n - 1) <$> shape) ∈ keys).
  { rewrite Hkeys. apply elem_of_ndindex. apply Forall2_fmap_l.
    apply Forall_Forall2_diag. eapply Forall_impl; [exact Hpos|].
    intros n Hn. unfold compose. cbn beta in Hn. lia. }
  assert (Hlen : Forall (λ k, length k = length shape) keys).
  { apply Forall_forall. intros k Hk. rewrite Hkeys in Hk.
    apply elem_of_ndindex in Hk. by eapply Forall2_length. }
  rewrite (zip_star_columns keys (length shape)); [|by intros ->; inversion Htop|done].
  rewrite <- list_fmap_compose.
  apply list_eq_same_length with (length shape);
    [done|by rewrite length_fmap, length_seq|].
  intros d m n Hd Hm Hn. rewrite list_lookup_fmap in Hm.
  rewrite lookup_seq_lt in Hm by done. cbn in Hm. injection Hm as <-.
  assert (Hn_pos : 0 < n).
  { rewrite Forall_forall in Hpos. apply Hpos.
    apply list_elem_of_lookup. eauto. }
  set (col := (λ k : NDIndex, default 0 (k !! d)) <$> keys).
  assert (Hle : n - 1 ≤ max_list col).
  { apply max_list_elem_of_le. unfold col. apply list_elem_of_fmap.
    exists ((λ n, n - 1) <$> shape). split; [|done].
    by rewrite list_lookup_fmap, Hn. }
  assert (Hlt : max_list col < n).
  { assert (Hin : max_list col ∈ col).
    { apply max_list_elem_of. unfold col. intros Hnil.
      apply fmap_nil_inv in Hnil. rewrite Hnil in Htop. inversion Htop. }
    unfold col in Hin at 2. apply list_elem_of_fmap in Hin as (k & -> & Hk).
    rewrite Hkeys in Hk. apply elem_of_ndindex in Hk.
    destruct (k !! d) as [i|] eqn:Hi; cbn; [|done].
    by eapply (Forall2_lookup_lr _ k shape). }
  lia.
Qed.

Lemma setitem_fresh {V : Type} (d : list (NDIndex * V)) (k : NDIndex) (v : V) :
  k ∉ d.*1 → setitem d k v = d ++ [(k, v)].
Proof.
  induction d as [|[k' v'] d IH]; intros Hk; cbn; [done|].
  rewrite fmap_cons, not_elem_of_cons in Hk. destruct Hk as [Hne Hk].
  cbn in Hne. rewrite decide_False by done. by rewrite IH.
Qed.

Lemma foldl_setitem_fresh {V : Type} (l acc : list (NDIndex * V)) :
  NoDup ((acc ++ l).*1) →
  foldl (λ shards kv, setitem shards kv.1 kv.2) acc l = acc ++ l.
Proof.
  revert acc. induction l as [|[k v] l IH]; intros acc Hnd; cbn.
  - by rewrite app_nil_r.
  - rewrite setitem_fresh.
    + rewrite IH; rewrite <- app_assoc; done.
    + rewrite fmap_app, fmap_cons in Hnd. cbn in Hnd.
      apply NoDup_app in Hnd as (_ & Hdisj & _).
      intros Hk. apply (Hdisj k Hk). left.
Qed.

Lemma foldl_blocks_fresh {V : Type} (blocks : list (list (NDIndex * V)))
    (acc : list (NDIndex * V)) :
  NoDup ((acc ++ concat blocks).*1) →
  foldl (λ shards block,
           foldl (λ shards kv, setitem shards kv.1 kv.2) shards block)
    acc blocks = acc ++ concat blocks.
Proof.
  revert acc. induction blocks as [|block blocks IH]; intros acc Hnd; cbn.
  - by rewrite app_nil_r.
  - cbn in Hnd. rewrite app_assoc in Hnd.
    rewrite foldl_setitem_fresh.
    + rewrite IH by done. by rewrite <- app_assoc.
    + rewrite fmap_app in Hnd. by apply NoDup_app in Hnd as (? & _).
Qed.

Lemma foldM_set_cell (shape : list nat) (pairs : list (NDIndex * ndarray))
    (arr : gmap NDIndex ndarray) :
  Forall (λ kv, kv.1 ∈ ndindex shape) pairs →
  foldM (λ arr kv, set_cell shape arr kv.1 kv.2) arr pairs
  = Ok (foldl (λ m kv, <[kv.1 := kv.2]> m) arr pairs).
Proof.
  intros Hin. revert arr. induction Hin as [|kv pairs Hkv _ IH]; intros arr;
    [done|].
  assert (Hstep : set_cell shape arr kv.1 kv.2 = Ok (<[kv.1 := kv.2]> arr)).
  { unfold set_cell. apply elem_of_ndindex in Hkv.
    rewrite bool_decide_eq_true_2; [done|].
    split; [by eapply Forall2_length|done]. }
  cbn [foldM foldl]. rewrite Hstep. cbn. apply IH.
Qed.

End lattice.

(** ** Reassembling a brick *)

Lemma dict_snoc `{Countable K} {V : Type} (l : list (K * V)) (kv : K * V) :
  dict (l ++ [kv]) = <[kv.1 := kv.2]> (dict l).
Proof. unfold dict. by rewrite foldl_app. Qed.

Lemma dict_list_to_map `{Countable K} {V : Type} (l : list (K * V)) :
  dict l = list_to_map (reverse l).
Proof.
  induction l as [|kv l IH] using rev_ind; [done|].
  rewrite dict_snoc, reverse_snoc, IH. done.
Qed.

(** With distinct keys the dict does not depend on the order of the
    pairs. *)
Lemma dict_Permutation `{Countable K} {V : Type} (l l' : list (K * V)) :
  NoDup (l.*1) → l ≡ₚ l' → dict l = dict l'.
Proof.
  intros Hnd Hperm. rewrite !dict_list_to_map.
  apply list_to_map_proper.
  - by rewrite reverse_Permutation.
  - by rewrite !reverse_Permutation.
Qed.

Section convert_chunk.
Import Rechunk Blob.
Context `{Pickle (list (NDIndex * ndarray))}.
Variable concatenate3 : nested (option ndarray) → result ndarray.
Local Open Scope nat_scope.

Lemma dumps_nonempty (block : list (NDIndex * ndarray)) :
  0 < length (dumps block).
Proof.
  pose proof (load_advances _ _ _ (load_dumps block [])) as Hadv.
  rewrite app_nil_r in Hadv. cbn in Hadv. lia.
Qed.

Lemma load_shards_step fuel file shards :
  file ≠ [] →
  load_shards (S fuel) file shards =
    match load file with
    | None => Raise UnpicklingError
    | Some (block, rest) =>
        load_shards fuel rest
          (foldl (λ shards kv, setitem shards kv.1 kv.2) shards block)
    end.
Proof. by destruct file. Qed.

(** The loop of [convert_chunk] decodes every block up to the end of the
    buffer. *)
Lemma load_shards_blob blocks shards fuel :
  length (blob blocks) ≤ fuel →
  load_shards fuel (blob blocks) shards =
    Ok (foldl (λ shards block,
                 foldl (λ shards kv, setitem shards kv.1 kv.2) shards block)
          shards blocks).
Proof.
  revert shards fuel. induction blocks as [|block blocks IH];
    intros shards fuel Hfuel.
  - by destruct fuel.
  - unfold blob in *. cbn [fmap list_fmap concat] in *.
    rewrite length_app in Hfuel. pose proof (dumps_nonempty block).
    destruct fuel as [|fuel]; [lia|].
    rewrite load_shards_step.
    + rewrite load_dumps. apply IH. lia.
    + intros Hnil. apply (f_equal length) in Hnil.
      rewrite length_app in Hnil. cbn in Hnil. lia.
Qed.

Lemma convert_chunk_lattice blocks shape :
  Forall (λ n, 0 < n) shape →
  (concat blocks).*1 ≡ₚ ndindex shape →
  convert_chunk concatenate3 (blob blocks)
  = concatenate3 (tolist shape [] (dict (concat blocks))).
Proof.
  intros Hpos Hkeys. unfold convert_chunk.
  assert (Hnd : NoDup (concat blocks).*1).
  { rewrite Hkeys. apply NoDup_ndindex. }
  rewrite load_shards_blob by done.
  rewrite (foldl_blocks_fresh blocks []) by done.
  cbn [app mbind result_bind].
  rewrite (subshape_of_lattice _ shape Hpos Hkeys).
  rewrite bool_decide_eq_true_2.
  2:{ rewrite <- length_ndindex, <- Hkeys. by rewrite length_fmap. }
  rewrite foldM_set_cell; [done|].
  apply Forall_forall. intros kv Hkv. rewrite <- Hkeys.
  apply list_elem_of_fmap. by exists kv.
Qed.

End convert_chunk.

(** C7. Block concatenation and the array codec.  Let two blobs be the
    pickled blocks [blocks1] and [blocks2] written one after the other,
    and let the sub-indices of all their pairs be pairwise distinct and
    fill the lattice of shape [shape] (all of whose sides are positive).
    Then the decoder reads all blocks to the end of the buffer;
    the assertion on the size of the lattice holds and the result is what
    [concatenate3] makes of the lattice filled from the pairs;
    [convert_chunk] of the two blobs joined is [convert_chunk] of one
    blob with all pairs in one block, and of any other grouping or order
    of the same pairs. *)
Theorem convert_chunk_concat_blocks
    (pickle : Rechunk.Pickle (list (NDIndex * Rechunk.ndarray)))
    (concatenate3 : Rechunk.nested (option Rechunk.ndarray)
                    → result Rechunk.ndarray)
    (blocks1 blocks2 : list (list (NDIndex * Rechunk.ndarray)))
    (shape : list nat) :
  let pairs := concat (blocks1 ++ blocks2) in
  let data := Blob.blob blocks1 ++ Blob.blob blocks2 in
  Forall (λ n, 0 < n)%nat shape →
  pairs.*1 ≡ₚ Rechunk.ndindex shape →
  Rechunk.load_shards (length data) data [] = Ok pairs
  ∧ Rechunk.convert_chunk concatenate3 data
    = concatenate3 (Rechunk.tolist shape [] (dict pairs))
  ∧ Rechunk.convert_chunk concatenate3 data
    = Rechunk.convert_chunk concatenate3 (Rechunk.dumps pairs)
  ∧ ∀ blocks', concat blocks' ≡ₚ pairs →
      Rechunk.convert_chunk concatenate3 (Blob.blob blocks')
      = Rechunk.convert_chunk concatenate3 data.
Proof.
  intros pairs data Hpos Hkeys.
  assert (Hdata : data = Blob.blob (blocks1 ++ blocks2)).
  { unfold data, Blob.blob. by rewrite fmap_app, concat_app. }
  assert (Hnd : NoDup pairs.*1).
  { rewrite Hkeys. apply NoDup_ndindex. }
  assert (Hall : ∀ blocks', concat blocks' ≡ₚ pairs →
            Rechunk.convert_chunk concatenate3 (Blob.blob blocks')
            = concatenate3 (Rechunk.tolist shape [] (dict pairs))).
  { intros blocks' Hperm.
    rewrite (convert_chunk_lattice concatenate3 blocks' shape Hpos).
    - f_equal. f_equal. apply dict_Permutation; [|done].
      by rewrite Hperm.
    - by rewrite Hperm. }
  split; [|split; [|split]].
  - rewrite Hdata, load_shards_blob by done.
    by rewrite (foldl_blocks_fresh (blocks1 ++ blocks2) []).
  - rewrite Hdata. by apply Hall.
  - rewrite Hdata, (Hall (blocks1 ++ blocks2)) by done.
    replace (Rechunk.dumps pairs) with (Blob.blob [pairs]).
    + symmetry. apply Hall. cbn. by rewrite app_nil_r.
    + unfold Blob.blob. cbn. by rewrite app_nil_r.
  - intros blocks' Hperm. rewrite Hdata, (Hall (blocks1 ++ blocks2)) by done.
    by apply Hall.
Qed.

Section convert_chunk_examples.
Import Rechunk Blob ConcatExamples.
Local Open Scope nat_scope.

(** New chunk 1 of scenario S2 is made of the slice [3:4] of old chunk 0
    (sub-index 0) and the slice [0:2] of old chunk 1 (sub-index 1); here
    the second shard has reached the disk first. *)
Lemma convert_chunk_concat_blocks_witness :
  convert_chunk concatenate_1d
    (blob [[([1], Nested [Item 4; Item 5])]]
     ++ blob [[([0], Nested [Item 3])]])
  = Ok (Nested [Item 3; Item 4; Item 5]).
Proof.
  destruct (convert_chunk_concat_blocks _ concatenate_1d
              [[([1], Nested [Item 4; Item 5])]]
              [[([0], Nested [Item 3])]] [2]) as (_ & Hresult & _).
  - repeat constructor.
  - apply Permutation_swap.
  - rewrite Hresult. vm_compute. reflexivity.
Defined.

End convert_chunk_examples.

(** ** The slicing idiom of the tabular splits *)

Section runs.
Context {A : Type} (key : A → Z).
Local Open Scope nat_scope.

Lemma runs_from_cons2 (c : Z) (cur : list A) (x y : A) (tl : list A) :
  runs_from key c cur (x :: y :: tl)
  = if bool_decide (key y ≠ key x)
    then (c, cur ++ [x]) :: runs_from key (key y) [] (y :: tl)
    else runs_from key c (cur ++ [x]) (y :: tl).
Proof. done. Qed.

Lemma change_points_cons2 (i : nat) (a b : Z) (tl : list Z) :
  change_points i (a :: b :: tl)
  = if bool_decide (b ≠ a) then S i :: change_points (S i) (b :: tl)
    else change_points (S i) (b :: tl).
Proof. done. Qed.

Lemma omap_cons_Some {B C : Type} (f : B → option C) x y l :
  f x = Some y → omap f (x :: l) = y :: omap f l.
Proof. intros Hx. cbn. by rewrite Hx. Qed.

Lemma shards_of_cons2 (t : list A) (s s' : nat) (rest : list nat) :
  shards_of t (s :: s' :: rest)
  = slice_table t s (s' - s) :: shards_of t (s' :: rest).
Proof. done. Qed.

(** The windows of [splits] cut the table into the runs of its codes,
    and the codes at [splits] are the codes of the runs. *)
Lemma slices_runs (t l : list A) (s i : nat) (c : Z) :
  drop i t = l → l ≠ [] → s ≤ i → (key <$> t) !! s = Some c →
  omap (λ p, (key <$> t) !! p) (s :: change_points i (key <$> l))
  = (runs_from key c (take (i - s) (drop s t)) l).*1
  ∧ shards_of t (s :: change_points i (key <$> l))
    = (runs_from key c (take (i - s) (drop s t)) l).*2.
Proof.
  revert s i c. induction l as [|x tl IH]; intros s i c Hdrop Hne Hsi Hc;
    [done|].
  assert (Hx : t !! i = Some x).
  { rewrite <- (Nat.add_0_r i), <- lookup_drop, Hdrop. done. }
  assert (Hcur : take (S i - s) (drop s t) = take (i - s) (drop s t) ++ [x]).
  { replace (S i - s) with (S (i - s)) by lia. apply take_S_r.
    rewrite lookup_drop. by replace (s + (i - s)) with i by lia. }
  assert (Htl : drop (S i) t = tl).
  { replace (S i) with (i + 1) by lia. by rewrite <- drop_drop, Hdrop. }
  destruct tl as [|y tl'].
  - cbn. rewrite Hc. cbn. split; [done|]. f_equal.
    rewrite <- (take_drop (i - s) (drop s t)) at 1. f_equal.
    rewrite drop_drop. replace (s + (i - s)) with i by lia. done.
  - rewrite (fmap_cons key x), (fmap_cons key y), change_points_cons2.
      rewrite <- (fmap_cons key y), runs_from_cons2.
    assert (Hy : (key <$> t) !! S i = Some (key y)).
    { rewrite list_lookup_fmap.
      rewrite <- (Nat.add_0_r (S i)), <- lookup_drop, Htl. done. }
    case_bool_decide as Hchange.
    + rewrite shards_of_cons2.
      rewrite (omap_cons_Some (λ p, (key <$> t) !! p) s c _ Hc).
      rewrite (fmap_cons fst), (fmap_cons snd).
      specialize (IH (S i) (S i) (key y) Htl).
      replace (S i - S i) with 0 in IH by lia. rewrite take_0 in IH.
      destruct IH as [IH1 IH2]; [done|lia|done|].
      rewrite IH1, IH2. unfold slice_table. by rewrite Hcur.
    + rewrite <- Hcur. by apply IH; [done| |lia|].
Qed.

Lemma slices_runs_whole (x : A) (t : list A) :
  omap (λ p, (key <$> x :: t) !! p) (splits_of (key <$> x :: t))
  = (runs_from key (key x) [] (x :: t)).*1
  ∧ shards_of (x :: t) (splits_of (key <$> x :: t))
    = (runs_from key (key x) [] (x :: t)).*2.
Proof. by apply (slices_runs (x :: t) (x :: t) 0 0 (key x)). Qed.

Lemma sum_list_length_concat (ls : list (list A)) :
  sum_list (length <$> ls) = length (concat ls).
Proof.
  induction ls as [|l ls IH]; cbn; [done|]. by rewrite length_app, IH.
Qed.

End runs.

Section runs_properties.
Context {A : Type} (key : A → Z).
Local Open Scope Z_scope.

Lemma runs_from_concat (c : Z) (cur l : list A) :
  l ≠ [] → concat (runs_from key c cur l).*2 = cur ++ l.
Proof.
  revert c cur. induction l as [|x tl IH]; intros c cur Hne; [done|].
  destruct tl as [|y tl'].
  - cbn. by rewrite app_nil_r.
  - rewrite runs_from_cons2. case_bool_decide.
    + rewrite fmap_cons. cbn [concat snd]. rewrite IH by done.
      by rewrite <- app_assoc.
    + rewrite IH by done. by rewrite <- app_assoc.
Qed.

(** Every run is non-empty and carries one code, the one it is filed
    under. *)
Lemma runs_from_uniform (x : A) (tl cur : list A) :
  Forall (λ r, key r = key x) cur →
  Forall (λ cg : Z * list A, cg.2 ≠ [] ∧ Forall (λ r, key r = cg.1) cg.2)
    (runs_from key (key x) cur (x :: tl)).
Proof.
  revert x cur. induction tl as [|y tl' IH]; intros x cur Hcur.
  - cbn. constructor; [|constructor]. cbn. split.
    + intros Hnil. by apply app_eq_nil in Hnil as [_ ?].
    + apply Forall_app. split; [done|]. by constructor.
  - rewrite runs_from_cons2. case_bool_decide as Hchange.
    + constructor.
      * cbn. split.
        -- intros Hnil. by apply app_eq_nil in Hnil as [_ ?].
        -- apply Forall_app. split; [done|]. by constructor.
      * apply IH. constructor.
    + assert (Heq : key y = key x) by (destruct (decide (key y = key x)); tauto).
      rewrite <- Heq. apply IH. rewrite Heq.
      apply Forall_app. split; [done|]. by constructor.
Qed.

(** On a sorted table the codes of the runs increase strictly. *)
Lemma runs_from_increasing (x : A) (tl cur : list A) :
  StronglySorted (key_le key) (x :: tl) →
  StronglySorted Z.lt (runs_from key (key x) cur (x :: tl)).*1
  ∧ Forall (λ c, key x ≤ c) (runs_from key (key x) cur (x :: tl)).*1.
Proof.
  revert x cur. induction tl as [|y tl' IH]; intros x cur Hsorted.
  - cbn. split; repeat constructor. lia.
  - apply StronglySorted_inv in Hsorted as [Htl Hx].
    assert (Hxy : key x ≤ key y).
    { apply Forall_cons in Hx as [Hxy _]. exact Hxy. }
    rewrite runs_from_cons2. case_bool_decide as Hchange.
    + destruct (IH y [] Htl) as [Hs Hge].
      rewrite fmap_cons. cbn [fst]. split.
      * constructor; [done|].
        eapply Forall_impl; [exact Hge|]. cbn. intros c Hc. lia.
      * constructor; [lia|].
        eapply Forall_impl; [exact Hge|]. cbn. intros c Hc. lia.
    + assert (Heq : key y = key x) by (destruct (decide (key y = key x)); tauto).
      rewrite <- Heq. by apply IH.
Qed.

Lemma StronglySorted_lt_NoDup (l : list Z) : StronglySorted Z.lt l → NoDup l.
Proof.
  induction 1 as [|c l _ IH Hc]; constructor; [|done].
  intros Hin. rewrite Forall_forall in Hc. specialize (Hc c Hin). lia.
Qed.

(** Filtering the concatenation of uniform groups with distinct codes by
    a code gives the group of that code. *)
Lemma filter_groups (G : list (Z * list A)) (c : Z) :
  NoDup G.*1 →
  Forall (λ cg : Z * list A, cg.2 ≠ [] ∧ Forall (λ r, key r = cg.1) cg.2) G →
  filter (λ r, key r = c) (concat G.*2)
  = default [] ((list_to_map G : gmap Z (list A)) !! c).
Proof.
  intros Hnd HG. induction HG as [|[c' g] G [_ Hg] _ IH]; [done|].
  cbn in *. apply NoDup_cons in Hnd as [Hc' Hnd].
  rewrite filter_app, IH by done. destruct (decide (c' = c)) as [->|Hne].
  - rewrite lookup_insert_eq. cbn.
    rewrite (not_elem_of_list_to_map_1 G c) by done. cbn.
    rewrite app_nil_r. clear -Hg.
    induction Hg as [|r g Hr _ IH]; [done|].
    rewrite filter_cons, decide_True by done. by rewrite IH.
  - rewrite lookup_insert_ne by done.
    replace (filter (λ r, key r = c) g) with (@nil A); [done|].
    clear -Hg Hne. induction Hg as [|r g Hr _ IH]; [done|].
    rewrite filter_cons, decide_False by congruence. done.
Qed.

(** The runs of a sorted, non-empty table: distinct codes, and under
    each code the rows of that code. *)
Lemma runs_sorted (x : A) (t : list A) :
  StronglySorted (key_le key) (x :: t) →
  let G := runs_from key (key x) [] (x :: t) in
  StronglySorted Z.lt G.*1
  ∧ Forall (λ cg : Z * list A, cg.2 ≠ [] ∧ Forall (λ r, key r = cg.1) cg.2) G
  ∧ concat G.*2 = x :: t
  ∧ ∀ c, filter (λ r, key r = c) (x :: t)
         = default [] ((list_to_map G : gmap Z (list A)) !! c).
Proof.
  intros Hsorted G.
  destruct (runs_from_increasing x t [] Hsorted) as [Hinc _].
  pose proof (runs_from_uniform x t [] (Forall_nil_2 _)) as Hunif.
  pose proof (runs_from_concat (key x) [] (x :: t)) as Hcat.
  split; [done|]. split; [done|]. split; [by apply Hcat|].
  intros c. rewrite <- (Hcat ltac:(done)) at 1.
  apply filter_groups; [|done]. by apply StronglySorted_lt_NoDup.
Qed.

End runs_properties.

Section sliced.
Context {A : Type} (key : A → Z).
Local Open Scope Z_scope.

(** The slicing idiom on a non-empty table sorted by its codes. *)
Lemma sliced_sorted (t : list A) :
  t ≠ [] → StronglySorted (key_le key) t →
  ∃ G : list (Z * list A),
    omap (λ p, (key <$> t) !! p) (splits_of (key <$> t)) = G.*1
    ∧ shards_of t (splits_of (key <$> t)) = G.*2
    ∧ StronglySorted Z.lt G.*1
    ∧ Forall (λ cg : Z * list A, cg.2 ≠ [] ∧ Forall (λ r, key r = cg.1) cg.2) G
    ∧ concat G.*2 = t
    ∧ ∀ c, filter (λ r, key r = c) t
           = default [] ((list_to_map G : gmap Z (list A)) !! c).
Proof.
  intros Hne Hsorted. destruct t as [|x t]; [done|].
  exists (runs_from key (key x) [] (x :: t)).
  destruct (slices_runs_whole key x t) as [Hcodes Hshards].
  destruct (runs_sorted key x t Hsorted) as (Hinc & Hunif & Hcat & Hfilter).
  done.
Qed.

(** The codes of the groups are the codes that occur in the table. *)
Lemma group_codes (t : list A) (G : list (Z * list A)) (c : Z) :
  NoDup G.*1 →
  Forall (λ cg : Z * list A, cg.2 ≠ [] ∧ Forall (λ r, key r = cg.1) cg.2) G →
  (∀ c, filter (λ r, key r = c) t
        = default [] ((list_to_map G : gmap Z (list A)) !! c)) →
  c ∈ G.*1 ↔ c ∈ key <$> t.
Proof.
  intros Hnd Hunif Hfilter. specialize (Hfilter c). split.
  - intros Hc. apply list_elem_of_fmap in Hc as ([c' g] & -> & Hg).
    assert (Hlk : (list_to_map G : gmap Z (list A)) !! c' = Some g).
    { by apply elem_of_list_to_map. }
    cbn in Hfilter. rewrite Hlk in Hfilter. cbn in Hfilter.
    rewrite Forall_forall in Hunif. destruct (Hunif _ Hg) as [Hne _].
    cbn in Hne. destruct g as [|r g]; [done|].
    assert (Hr : r ∈ filter (λ r, key r = c') t) by (rewrite Hfilter; left).
    apply list_elem_of_filter in Hr as [<- Hr].
    apply list_elem_of_fmap. by exists r.
  - intros Hc. apply list_elem_of_fmap in Hc as (r & -> & Hr).
    destruct ((list_to_map G : gmap Z (list A)) !! key r) as [g|] eqn:Hlk.
    + apply elem_of_list_to_map in Hlk; [|done].
      apply list_elem_of_fmap. by exists (key r, g).
    + cbn in Hfilter.
      assert (Hr' : r ∈ filter (λ r', key r' = key r) t).
      { by apply list_elem_of_filter. }
      rewrite Hfilter in Hr'. by apply elem_of_nil in Hr'.
Qed.

End sliced.

(** ** Lists of lists up to order *)

Section concat.
Context {A : Type}.

Lemma concat_Forall2_Permutation (ls ls' : list (list A)) :
  Forall2 (≡ₚ) ls ls' → concat ls ≡ₚ concat ls'.
Proof. induction 1 as [|l l' ls ls' Hl _ IH]; cbn; [done|]. by rewrite Hl, IH. Qed.

Lemma concat_Permutation (ls ls' : list (list A)) :
  ls ≡ₚ ls' → concat ls ≡ₚ concat ls'.
Proof.
  induction 1 as [|l ls ls' _ IH|l1 l2 ls|ls1 ls2 ls3 _ IH1 _ IH2]; cbn.
  - done.
  - by rewrite IH.
  - rewrite !app_assoc. f_equiv. apply Permutation_app_comm.
  - by rewrite IH1.
Qed.

Lemma filter_concat (P : A → Prop) `{∀ x, Decision (P x)} (ls : list (list A)) :
  filter P (concat ls) = concat (filter P <$> ls).
Proof.
  induction ls as [|l ls IH]; cbn; [done|]. by rewrite filter_app, IH.
Qed.

Lemma filter_Forall_ext (P Q : A → Prop)
    `{∀ x, Decision (P x), ∀ x, Decision (Q x)} (l : list A) :
  Forall (λ x, P x ↔ Q x) l → filter P l = filter Q l.
Proof.
  induction 1 as [|x l Hx _ IH]; [done|].
  rewrite !filter_cons, IH. destruct (decide (P x)), (decide (Q x)); tauto.
Qed.

End concat.

(** ** [split_by_partition] *)

Section split_by_partition.
Import Table TabularShuffle.
Variable column : string.
Local Open Scope Z_scope.

Local Abbreviation key := (λ r : Row, default 0 (r !! column)).

Lemma column_values_total (t : DataFrame) :
  column ∈ columns t → Forall (λ r : Row, is_Some (r !! column)) (rows t) →
  column_values column t = Ok (key <$> rows t).
Proof.
  intros Hcol Hrows. unfold column_values. rewrite bool_decide_eq_true_2 by done.
  rewrite (mapM_Some_2 _ (rows t) (key <$> rows t)); [done|].
  apply Forall2_fmap_r, Forall_Forall2_diag.
  eapply Forall_impl; [exact Hrows|].
  intros r [v Hv]. unfold compose. by rewrite Hv.
Qed.

(** A table that has the column in every row is split into one group per
    value of the column: the group of [j] holds the rows with value [j],
    no group is empty, and every group keeps the schema. *)
Lemma split_by_partition_groups (t : DataFrame) :
  column ∈ columns t → rows t ≠ [] →
  Forall (λ r : Row, is_Some (r !! column)) (rows t) →
  ∃ groups,
    split_by_partition t column = Ok groups
    ∧ (∀ j, rows_of (groups !! j)
            ≡ₚ filter (λ r : Row, r !! column = Some j) (rows t))
    ∧ (∀ j g, groups !! j = Some g → columns g = columns t ∧ rows g ≠ [])
    ∧ sum_list (len <$> (map_to_list groups).*2) = len t.
Proof.
  intros Hcol Hne Hrows. unfold split_by_partition.
  rewrite column_values_total by done. cbn [mbind result_bind].
  set (t' := sort_by key (rows t)).
  assert (Hperm : t' ≡ₚ rows t) by apply sort_by_Permutation.
  destruct (sliced_sorted key t') as (G & Hcodes & Hshards & Hinc & Hunif
                                       & Hcat & Hfilter).
  { intros Hnil. rewrite Hnil in Hperm.
    by apply Permutation_nil in Hperm. }
  { apply sort_by_sorted. }
  assert (Hnd : NoDup G.*1) by by apply StronglySorted_lt_NoDup.
  rewrite Hshards.
  assert (Hparts : sort_by (λ v, v) (remove_dups (key <$> rows t)) = G.*1).
  { apply sort_by_unique; [done|].
    apply NoDup_Permutation; [apply NoDup_remove_dups|done|].
    intros c. rewrite elem_of_remove_dups.
    rewrite (group_codes key t' G c Hnd Hunif Hfilter). by rewrite Hperm. }
  rewrite Hparts.
  rewrite bool_decide_eq_true_2.
  2:{ unfold len. rewrite sum_list_length_concat, Hcat. by rewrite Hperm. }
  rewrite bool_decide_eq_true_2 by by rewrite !length_fmap.
  eexists. split; [done|].
  assert (Hdict : dict (zip G.*1 (mkDataFrame (columns t) <$> G.*2))
                  = mkDataFrame (columns t) <$> (list_to_map G : gmap Z (list Row))).
  { rewrite <- list_to_map_fmap.
    assert (Hzip : zip G.*1 (mkDataFrame (columns t) <$> G.*2)
                   = prod_map id (mkDataFrame (columns t)) <$> G).
    { clear. induction G as [|[c g] G IH]; cbn; [done|]. by rewrite IH. }
    rewrite Hzip, dict_list_to_map. apply list_to_map_proper.
    - rewrite reverse_Permutation, <- list_fmap_compose.
      by erewrite list_fmap_ext; [exact Hnd|].
    - apply reverse_Permutation. }
  rewrite Hdict. split; [|split].
  - intros j. rewrite lookup_fmap. unfold rows_of.
    rewrite <- Hperm.
    rewrite (filter_Forall_ext (λ r : Row, r !! column = Some j)
               (λ r, key r = j)).
    + rewrite Hfilter. by destruct (list_to_map G !! j).
    + rewrite Hperm. eapply Forall_impl; [exact Hrows|].
      intros r [v Hv]. cbn. rewrite Hv. cbn. split; congruence.
  - intros j g. rewrite lookup_fmap.
    destruct (list_to_map G !! j) as [g'|] eqn:Hg'; [|done].
    intros [= <-]. split; [done|]. cbn.
    apply elem_of_list_to_map in Hg'; [|done].
    rewrite Forall_forall in Hunif. by destruct (Hunif _ Hg').
  - rewrite map_to_list_fmap, <- !list_fmap_compose.
    rewrite (map_to_list_to_map G Hnd).
    unfold len. rewrite <- Hperm, <- Hcat, <- sum_list_length_concat.
    by rewrite <- list_fmap_compose.
Qed.

End split_by_partition.

(** ** [split_by_worker] *)

Section split_by_worker.
Import Table TabularShuffle.
Variable column : string.
Variable worker_for : gmap Z WorkerAddress.
Local Open Scope Z_scope.

Local Abbreviation cats := (categories worker_for).
Local Abbreviation dest := (dest_worker column worker_for).

Lemma omap_cons {B C : Type} (f : B → option C) (x : B) (l : list B) :
  omap f (x :: l) = match f x with
                    | Some y => y :: omap f l
                    | None => omap f l
                    end.
Proof. done. Qed.

(** Every worker of [worker_for] is a category and has a code. *)
Lemma code_of_worker (v : Z) (w : WorkerAddress) :
  worker_for !! v = Some w →
  ∃ code, code_of cats w = Some code ∧ cats !! code = Some w.
Proof.
  intros Hv.
  assert (Hin : w ∈ cats).
  { unfold categories. rewrite merge_sort_Permutation, elem_of_remove_dups.
    apply list_elem_of_fmap. exists (v, w). split; [done|].
    by apply elem_of_map_to_list. }
  destruct (list_find_elem_of (λ c, c = w) cats w Hin eq_refl) as [[i x] Hfind].
  exists i. unfold code_of. rewrite Hfind. split; [done|].
  apply list_find_Some in Hfind as (Hi & -> & _). done.
Qed.

Lemma code_of_category (w : WorkerAddress) (code : nat) :
  code_of cats w = Some code → cats !! code = Some w.
Proof.
  unfold code_of. destruct (list_find _ cats) as [[i x]|] eqn:Hfind; [|done].
  intros [= <-]. apply list_find_Some in Hfind as (Hi & -> & _). done.
Qed.

(** The rows that the merge keeps, each with the code of its worker. *)
Lemma merge_worker_entry (rs : list Row) (p : Row * Z) :
  p ∈ merge_worker rs column worker_for →
  p.1 ∈ rs ∧ ∃ w code, dest p.1 = Some w ∧ code_of cats w = Some code
                       ∧ p.2 = Z.of_nat code.
Proof.
  unfold merge_worker. intros Hp. apply list_elem_of_omap in Hp as (r & Hr & Hp).
  unfold dest_worker, cat_codes in *.
  destruct (r !! column) as [v|] eqn:Hv; [|done]. cbn in Hp.
  destruct (worker_for !! v) as [w|] eqn:Hw; [|done]. cbn in Hp.
  destruct (code_of cats w) as [code|] eqn:Hc; [|done]. cbn in Hp.
  injection Hp as <-. cbn. split; [done|]. exists w, code.
  rewrite Hv. cbn. by rewrite Hw.
Qed.

(** Among the merged rows, those with the code of [w] are the rows whose
    worker is [w]. *)
Lemma merge_worker_filter (rs : list Row) (w : WorkerAddress) (code : nat) :
  code_of cats w = Some code →
  (filter (λ p : Row * Z, p.2 = Z.of_nat code)
     (merge_worker rs column worker_for)).*1
  = filter (λ r, dest r = Some w) rs.
Proof.
  intros Hcode. unfold merge_worker.
  set (f := λ r : Row,
              v ← r !! column;
              code ← cat_codes worker_for v;
              Some (r, Z.of_nat code)).
  induction rs as [|r rs IH]; [done|].
  rewrite filter_cons, omap_cons.
  destruct (dest r) as [w'|] eqn:Hdest.
  - unfold dest_worker in Hdest.
    destruct (r !! column) as [v|] eqn:Hv; [|done]. cbn in Hdest.
    destruct (code_of_worker v w' Hdest) as (code' & Hcode' & Hcat').
    assert (Hf : f r = Some (r, Z.of_nat code')).
    { unfold f, cat_codes. rewrite Hv. cbn. rewrite Hdest. cbn.
      by rewrite Hcode'. }
    rewrite Hf, filter_cons. cbn [snd].
    destruct (decide (Some w' = Some w)) as [[= ->]|Hne].
    + rewrite Hcode in Hcode'. injection Hcode' as <-.
      rewrite decide_True by done. rewrite fmap_cons. cbn [fst].
      by rewrite IH.
    + rewrite decide_False; [exact IH|].
      intros Heq. apply Nat2Z.inj in Heq. subst code'.
      apply code_of_category in Hcode. congruence.
  - rewrite decide_False by done.
    assert (Hf : f r = None).
    { unfold f, cat_codes. unfold dest_worker in Hdest.
      destruct (r !! column) as [v|] eqn:Hv; [|done]. cbn in *.
      by rewrite Hdest. }
    by rewrite Hf.
Qed.

Lemma merge_worker_nil (rs : list Row) (w : WorkerAddress) :
  merge_worker rs column worker_for = [] →
  filter (λ r, dest r = Some w) rs = [].
Proof.
  intros Hnil. destruct (filter _ rs) as [|r rs'] eqn:Hf; [done|].
  assert (Hr : r ∈ filter (λ r, dest r = Some w) rs) by (rewrite Hf; left).
  apply list_elem_of_filter in Hr as [Hdest Hr].
  unfold dest_worker in Hdest.
  destruct (r !! column) as [v|] eqn:Hv; [|done]. cbn in Hdest.
  destruct (code_of_worker v w Hdest) as (code & Hcode & _).
  assert (Hin : (r, Z.of_nat code) ∈ merge_worker rs column worker_for).
  { unfold merge_worker. apply list_elem_of_omap. exists r. split; [done|].
    unfold cat_codes. rewrite Hv. cbn. rewrite Hdest. cbn. by rewrite Hcode. }
  rewrite Hnil in Hin. by apply elem_of_nil in Hin.
Qed.

End split_by_worker.

Section shards_of_fmap.
Context {A B : Type} (f : A → B).

Lemma shards_of_fmap (t : list A) (splits : list nat) :
  shards_of (f <$> t) splits = fmap (M:=list) f <$> shards_of t splits.
Proof.
  unfold shards_of, slice_table. rewrite fmap_app. cbn.
  rewrite fmap_drop. f_equal.
  change (map ?g ?l) with (g <$> l). rewrite <- list_fmap_compose.
  apply list_fmap_ext. intros _ [a b] _. cbn.
  by rewrite fmap_take, fmap_drop.
Qed.

Lemma elem_of_group (G : list (Z * list A)) (c : Z) (g : list A) (x : A) :
  (c, g) ∈ G → x ∈ g → x ∈ concat G.*2.
Proof.
  intros HG Hx. induction G as [|[c' g'] G IH].
  - by apply elem_of_nil in HG.
  - cbn. apply elem_of_app.
    apply elem_of_cons in HG as [[= <- <-]|HG]; [by left|right; by apply IH].
Qed.

End shards_of_fmap.

Section split_by_worker_shards.
Import Table TabularShuffle.
Variable column : string.
Variable worker_for : gmap Z WorkerAddress.
Local Open Scope Z_scope.

Local Abbreviation cats := (categories worker_for).
Local Abbreviation dest := (dest_worker column worker_for).

(** [split_by_worker] succeeds on a frame that has the column and no
    column named [_worker]; the shard of worker [w] holds the rows whose
    value in the column is a partition of [w]; no shard is empty and
    every shard keeps the schema. *)
Lemma split_by_worker_shards (df : DataFrame) :
  column ∈ columns df → "_worker" ∉ columns df →
  ∃ out,
    split_by_worker df column worker_for = Ok out
    ∧ (∀ w, rows_of (out !! w) ≡ₚ filter (λ r, dest r = Some w) (rows df))
    ∧ (∀ w shard, out !! w = Some shard →
         columns shard = columns df ∧ rows shard ≠ []).
Proof.
  intros Hcol Hworker. unfold split_by_worker.
  rewrite bool_decide_eq_true_2 by done.
  rewrite bool_decide_eq_false_2 by done.
  set (merged := merge_worker (rows df) column worker_for).
  case_bool_decide as Hn.
  { exists ∅. split; [done|]. split.
    - intros w. rewrite lookup_empty. cbn.
      rewrite (merge_worker_nil column worker_for); [done|].
      by apply nil_length_inv.
    - intros w shard. by rewrite lookup_empty. }
  set (tp := sort_by snd merged).
  assert (Hperm : tp ≡ₚ merged) by apply sort_by_Permutation.
  destruct (sliced_sorted snd tp)
    as (G & Hcodes & Hshards & Hinc & Hunif & Hcat & Hfilter).
  { intros Hnil. rewrite Hnil in Hperm. apply Permutation_nil in Hperm.
    by rewrite Hperm in Hn. }
  { apply sort_by_sorted. }
  assert (Hnd : NoDup G.*1) by by apply StronglySorted_lt_NoDup.
  rewrite shards_of_fmap, Hshards, Hcodes.
  (* every code of a group is the code of a worker *)
  assert (Hvalid : Forall (λ cg : Z * list (Row * Z),
                     ∃ w code, cg.1 = Z.of_nat code
                               ∧ code_of cats w = Some code) G).
  { apply Forall_forall. intros [c g] Hcg.
    rewrite Forall_forall in Hunif. destruct (Hunif _ Hcg) as [Hne Hc].
    cbn in Hne, Hc. destruct g as [|p g]; [done|].
    apply Forall_cons in Hc as [Hp _].
    assert (Hin : p ∈ merged).
    { rewrite <- Hperm, <- Hcat. eapply elem_of_group; [exact Hcg|left]. }
    apply merge_worker_entry in Hin as (_ & w & code & _ & Hcode & Hp2).
    exists w, code. cbn. split; [congruence|done]. }
  set (h := λ g : list (Row * Z), mkDataFrame (columns df) g.*1).
  set (wk := λ c : Z, default "" (cats !! Z.to_nat c)).
  assert (HG' : omap (λ cs : Z * list Row,
                        w ← cats !! Z.to_nat cs.1;
                        Some (w, mkDataFrame (columns df) cs.2))
                  (zip G.*1 (fmap (M:=list) fst <$> G.*2))
                = (λ cg, (wk cg.1, h cg.2)) <$> G).
  { clear -Hvalid. induction Hvalid as [|[c g] G (w & code & Hc & Hcode) _ IH];
      [done|].
    rewrite !fmap_cons. cbn [zip zip_with fst snd]. rewrite omap_cons.
    cbn [fst snd] in *. subst c.
    apply (code_of_category worker_for) in Hcode.
    unfold wk. rewrite Nat2Z.id, Hcode. cbn. by rewrite IH. }
  rewrite HG'. set (G' := (λ cg, (wk cg.1, h cg.2)) <$> G).
  assert (Hwk : ∀ c g, (c, g) ∈ G →
            ∃ code, c = Z.of_nat code ∧ code_of cats (wk c) = Some code).
  { intros c g Hcg. rewrite Forall_forall in Hvalid.
    destruct (Hvalid _ Hcg) as (w & code & Hc & Hcode). cbn in Hc. subst c.
    exists code. split; [done|]. unfold wk.
    rewrite Nat2Z.id, (code_of_category worker_for w code Hcode). done. }
  assert (Hnd' : NoDup G'.*1).
  { unfold G'. rewrite <- list_fmap_compose.
    change (fst ∘ (λ cg : Z * list (Row * Z), (wk cg.1, h cg.2)))
      with (wk ∘ (fst : Z * list (Row * Z) → Z)).
    rewrite list_fmap_compose. apply NoDup_fmap_2_strong; [|done].
    intros c1 c2 H1 H2 Heq.
    apply list_elem_of_fmap in H1 as ([c1' g1] & -> & H1).
    apply list_elem_of_fmap in H2 as ([c2' g2] & -> & H2).
    cbn in *. destruct (Hwk _ _ H1) as (code1 & -> & Hc1).
    destruct (Hwk _ _ H2) as (code2 & -> & Hc2).
    rewrite Heq in Hc1. congruence. }
  assert (Hout : dict G' = list_to_map G').
  { rewrite dict_list_to_map. apply list_to_map_proper.
    - by rewrite reverse_Permutation.
    - apply reverse_Permutation. }
  rewrite Hout.
  rewrite bool_decide_eq_true_2.
  2:{ rewrite (map_to_list_to_map G' Hnd'). unfold G'.
      rewrite <- !list_fmap_compose.
      rewrite <- (length_fmap fst merged) at 1.
      change (length merged.*1) with (length merged.*1).
      rewrite length_fmap, <- Hperm, <- Hcat, <- sum_list_length_concat.
      rewrite <- list_fmap_compose. f_equal. apply list_fmap_ext.
      intros _ [c g] _. cbn. unfold len. cbn. by rewrite length_fmap. }
  eexists. split; [done|]. split.
  - intros w. destruct (code_of cats w) as [code|] eqn:Hcode.
    + assert (Hlk : (list_to_map G' : gmap WorkerAddress DataFrame) !! w
                    = h <$> (list_to_map G : gmap Z (list (Row * Z)))
                            !! Z.of_nat code).
      { apply option_eq. intros shard.
        rewrite <- elem_of_list_to_map by done. rewrite fmap_Some.
        split.
        - intros Hin. apply list_elem_of_fmap in Hin as ([c g] & [= -> ->] & Hcg).
          destruct (Hwk _ _ Hcg) as (code' & -> & Hc'). cbn in *.
          exists g. split; [|done]. apply elem_of_list_to_map; [done|].
          rewrite Hcode in Hc'. by injection Hc' as <-.
        - intros (g & Hg & ->). apply elem_of_list_to_map in Hg; [|done].
          apply list_elem_of_fmap. exists (Z.of_nat code, g). split; [|done].
          cbn. f_equal. destruct (Hwk _ _ Hg) as (code' & Heq & Hc').
          apply Nat2Z.inj in Heq. subst code'.
          apply (code_of_category worker_for) in Hc', Hcode. congruence. }
      rewrite Hlk. unfold rows_of.
      rewrite <- (merge_worker_filter column worker_for (rows df) w code Hcode).
      fold merged. rewrite <- Hperm, Hfilter.
      by destruct (list_to_map G !! Z.of_nat code).
    + assert (Hnone : filter (λ r, dest r = Some w) (rows df) = []).
      { destruct (filter _ (rows df)) as [|r rs'] eqn:Hf; [done|].
        assert (Hr : r ∈ filter (λ r, dest r = Some w) (rows df))
          by (rewrite Hf; left).
        apply list_elem_of_filter in Hr as [Hdest _].
        unfold dest_worker in Hdest.
        destruct (r !! column) as [v|]; [|done]. cbn in Hdest.
        destruct (code_of_worker worker_for v w Hdest) as (code & Hc & _).
        congruence. }
      rewrite Hnone.
      destruct ((list_to_map G' : gmap WorkerAddress DataFrame) !! w)
        as [shard|] eqn:Hlk; [|done].
      apply elem_of_list_to_map in Hlk; [|done].
      apply list_elem_of_fmap in Hlk as ([c g] & [= -> ->] & Hcg).
      destruct (Hwk _ _ Hcg) as (code' & _ & Hc'). cbn in *. congruence.
  - intros w shard Hlk. apply elem_of_list_to_map in Hlk; [|done].
    apply list_elem_of_fmap in Hlk as ([c g] & [= -> ->] & Hcg).
    split; [done|]. cbn.
    rewrite Forall_forall in Hunif. destruct (Hunif _ Hcg) as [Hne _].
    cbn in Hne. by destruct g.
Qed.

End split_by_worker_shards.

(** ** From input partitions to output partitions *)

Section round_trip.
Import Table TabularShuffle.
Variable column : string.
Variable worker_for : gmap Z WorkerAddress.
Local Open Scope Z_scope.

Local Abbreviation dest := (dest_worker column worker_for).

Lemma concat_rows_omap {K} `{Countable K} (k : K)
    (ms : list (gmap K DataFrame)) :
  concat (rows <$> omap (λ m : gmap K DataFrame, m !! k) ms)
  = concat ((λ m : gmap K DataFrame, rows_of (m !! k)) <$> ms).
Proof.
  induction ms as [|m ms IH]; [done|].
  rewrite omap_cons, fmap_cons. unfold rows_of at 1.
  destruct (m !! k); cbn; by rewrite IH.
Qed.

Lemma transfer_shards (parts : list DataFrame) :
  Forall (λ df, column ∈ columns df ∧ "_worker" ∉ columns df) parts →
  ∃ outs,
    transfer column worker_for parts = Ok outs
    ∧ Forall2 (λ df (out : gmap WorkerAddress DataFrame),
         (∀ w, rows_of (out !! w) ≡ₚ filter (λ r, dest r = Some w) (rows df))
         ∧ ∀ w shard, out !! w = Some shard →
             columns shard = columns df ∧ rows shard ≠ [])
        parts outs.
Proof.
  unfold transfer. induction 1 as [|df parts [Hcol Hw] _ IH].
  - exists []. split; [done|constructor].
  - destruct IH as (outs & Houts & Hall).
    destruct (split_by_worker_shards column worker_for df Hcol Hw)
      as (out & Hout & Hrows & Hshape).
    exists (out :: outs). split.
    + cbn. rewrite Hout. cbn. by rewrite Houts.
    + by constructor.
Qed.

Lemma inbox_good (parts : list DataFrame)
    (outs : list (gmap WorkerAddress DataFrame)) (w : WorkerAddress) :
  Forall (λ df, column ∈ columns df ∧ "_worker" ∉ columns df) parts →
  Forall2 (λ df (out : gmap WorkerAddress DataFrame),
     (∀ w, rows_of (out !! w) ≡ₚ filter (λ r, dest r = Some w) (rows df))
     ∧ ∀ w shard, out !! w = Some shard →
         columns shard = columns df ∧ rows shard ≠ [])
    parts outs →
  Forall (good_shard column worker_for w) (inbox w outs).
Proof.
  intros Hparts Hall. unfold inbox.
  induction Hall as [|df out parts outs [Hrows Hshape] _ IH]; [constructor|].
  apply Forall_cons in Hparts as [[Hcol _] Hparts].
  rewrite omap_cons. destruct (out !! w) as [shard|] eqn:Hshard; [|by apply IH].
  constructor; [|by apply IH].
  destruct (Hshape w shard Hshard) as [Hcols Hne].
  split; [by rewrite Hcols|]. split; [done|].
  specialize (Hrows w). rewrite Hshard in Hrows. cbn in Hrows.
  apply Forall_forall. intros r Hr. rewrite Hrows in Hr.
  by apply list_elem_of_filter in Hr as [? _].
Qed.

Lemma inbox_rows (parts : list DataFrame)
    (outs : list (gmap WorkerAddress DataFrame)) (w : WorkerAddress) :
  Forall2 (λ df (out : gmap WorkerAddress DataFrame),
     (∀ w, rows_of (out !! w) ≡ₚ filter (λ r, dest r = Some w) (rows df))
     ∧ ∀ w shard, out !! w = Some shard →
         columns shard = columns df ∧ rows shard ≠ [])
    parts outs →
  concat (rows <$> inbox w outs)
  ≡ₚ filter (λ r, dest r = Some w) (concat (rows <$> parts)).
Proof.
  intros Hall. unfold inbox. rewrite concat_rows_omap, filter_concat.
  apply concat_Forall2_Permutation.
  rewrite <- list_fmap_compose. apply Forall2_fmap, Forall2_flip.
  eapply Forall2_impl; [exact Hall|]. intros df out [Hrows _]. apply Hrows.
Qed.

(** A batch of good shards is regrouped into the rows of each
    partition. *)
Lemma regroup_batch (w : WorkerAddress) (batch : list DataFrame) :
  batch ≠ [] → Forall (good_shard column worker_for w) batch →
  ∃ groups,
    split_by_partition (concat_tables batch) column = Ok groups
    ∧ ∀ j, rows_of (groups !! j)
           ≡ₚ filter (λ r : Row, r !! column = Some j)
                (concat (rows <$> batch)).
Proof.
  intros Hne Hgood. destruct batch as [|shard batch]; [done|].
  destruct (split_by_partition_groups column (concat_tables (shard :: batch)))
    as (groups & Hgroups & Hrows & _).
  - cbn. apply Forall_cons in Hgood as [[Hcol _] _]. done.
  - cbn. apply Forall_cons in Hgood as [(_ & Hrows & _) _].
    intros Hnil. by apply app_eq_nil in Hnil as [? _].
  - cbn [concat_tables rows]. apply Forall_forall. intros r Hr.
    apply list_elem_of_In, in_concat in Hr as (rs & Hrs & Hr).
    apply list_elem_of_In, list_elem_of_fmap in Hrs as (shard' & -> & Hshard').
    rewrite Forall_forall in Hgood.
    destruct (Hgood _ Hshard') as (_ & _ & Hdest).
    rewrite Forall_forall in Hdest.
    apply list_elem_of_In in Hr. specialize (Hdest r Hr).
    unfold dest_worker in Hdest. by destruct (r !! column).
  - exists groups. split; [done|]. exact Hrows.
Qed.

Lemma regroup_batches (w : WorkerAddress) (batches : list (list DataFrame)) :
  Forall (λ batch, batch ≠ []) batches →
  Forall (good_shard column worker_for w) (concat batches) →
  ∃ disk,
    regroup column batches = Ok disk
    ∧ ∀ j, output disk j
           ≡ₚ filter (λ r : Row, r !! column = Some j)
                (concat (rows <$> concat batches)).
Proof.
  unfold regroup, output. induction 1 as [|batch batches Hne _ IH]; intros Hgood.
  - exists []. by split.
  - cbn in Hgood. apply Forall_app in Hgood as [Hbatch Hrest].
    destruct (IH Hrest) as (disk & Hdisk & Hout).
    destruct (regroup_batch w batch Hne Hbatch) as (groups & Hgroups & Hrows).
    exists (groups :: disk). split.
    + cbn. rewrite Hgroups. cbn. by rewrite Hdisk.
    + intros j. rewrite concat_rows_omap, fmap_cons. cbn [concat].
      rewrite <- concat_rows_omap, Hout, Hrows.
      rewrite fmap_app, concat_app, filter_app. done.
Qed.

(** The rows of the partitions [l], bucket by bucket. *)
Lemma bucket_skip (r0 : Row) (R : list Row) (l : list nat) (j0 : nat) :
  r0 !! column = Some (Z.of_nat j0) → j0 ∉ l →
  (λ j : nat, filter (λ r : Row, r !! column = Some (Z.of_nat j)) (r0 :: R)) <$> l
  = (λ j : nat, filter (λ r : Row, r !! column = Some (Z.of_nat j)) R) <$> l.
Proof.
  intros Hr0. induction l as [|j l IH]; intros Hnot; [done|].
  apply not_elem_of_cons in Hnot as [Hne Hnot].
  rewrite !fmap_cons, IH by done. f_equal.
  rewrite filter_cons, decide_False; [done|].
  rewrite Hr0. intros [= Heq]. apply Nat2Z.inj in Heq. done.
Qed.

Lemma bucket_cons (r0 : Row) (R : list Row) (l : list nat) (j0 : nat) :
  r0 !! column = Some (Z.of_nat j0) → NoDup l → j0 ∈ l →
  concat ((λ j : nat,
             filter (λ r : Row, r !! column = Some (Z.of_nat j)) (r0 :: R)) <$> l)
  ≡ₚ r0 :: concat ((λ j : nat,
             filter (λ r : Row, r !! column = Some (Z.of_nat j)) R) <$> l).
Proof.
  intros Hr0. induction l as [|j l IH]; intros Hnd Hin.
  - by apply elem_of_nil in Hin.
  - apply NoDup_cons in Hnd as [Hj Hnd]. rewrite !fmap_cons. cbn [concat].
    destruct (decide (j = j0)) as [->|Hne].
    + rewrite (bucket_skip r0 R l j0) by done.
      rewrite filter_cons, decide_True by done. done.
    + apply elem_of_cons in Hin as [->|Hin]; [done|].
      rewrite IH by done.
      rewrite filter_cons, decide_False.
      * symmetry. apply Permutation_middle.
      * rewrite Hr0. intros [= Heq]. apply Nat2Z.inj in Heq. done.
Qed.

Lemma buckets_Permutation (M : nat) (R : list Row) :
  Forall (λ r : Row, ∃ j : nat, (j < M)%nat ∧ r !! column = Some (Z.of_nat j)) R →
  concat ((λ j : nat,
             filter (λ r : Row, r !! column = Some (Z.of_nat j)) R) <$> seq 0 M)
  ≡ₚ R.
Proof.
  induction 1 as [|r0 R (j0 & Hj0 & Hr0) _ IH].
  - generalize (seq 0 M). intros l. induction l as [|j l IHl]; [done|].
    rewrite fmap_cons. cbn [concat]. by rewrite IHl.
  - rewrite (bucket_cons r0 R (seq 0 M) j0), IH; [done|done|apply NoDup_seq|].
    apply elem_of_seq. lia.
Qed.

(** One output partition: its worker regroups what it received into the
    rows of the input whose column names the partition. *)
Lemma shuffle_output_rows (parts : list DataFrame)
    (outs : list (gmap WorkerAddress DataFrame))
    (received : WorkerAddress → list (list DataFrame)) (j : Z) :
  is_Some (worker_for !! j) →
  Forall (λ df, column ∈ columns df ∧ "_worker" ∉ columns df) parts →
  Forall2 (λ df (out : gmap WorkerAddress DataFrame),
     (∀ w, rows_of (out !! w) ≡ₚ filter (λ r, dest r = Some w) (rows df))
     ∧ ∀ w shard, out !! w = Some shard →
         columns shard = columns df ∧ rows shard ≠ [])
    parts outs →
  (∀ w, Forall (λ batch, batch ≠ []) (received w)
        ∧ concat (received w) ≡ₚ inbox w outs) →
  ∃ rows_j,
    shuffle_output column worker_for received j = Ok rows_j
    ∧ rows_j ≡ₚ filter (λ r : Row, r !! column = Some j)
                  (concat (rows <$> parts)).
Proof.
  intros [w Hw] Hparts Hall Hrecv. unfold shuffle_output. rewrite Hw.
  destruct (Hrecv w) as [Hne Hperm].
  destruct (regroup_batches w (received w) Hne) as (disk & Hdisk & Hrows).
  { apply Forall_forall. intros shard Hshard. rewrite Hperm in Hshard.
    pose proof (inbox_good parts outs w Hparts Hall) as Hgood.
    rewrite Forall_forall in Hgood. by apply Hgood. }
  exists (output disk j). split; [by rewrite Hdisk|].
  rewrite Hrows.
  assert (concat (rows <$> concat (received w))
          ≡ₚ filter (λ r, dest r = Some w) (concat (rows <$> parts))) as Hrecvd.
  { rewrite <- (inbox_rows parts outs w Hall).
    apply concat_Permutation. by apply fmap_Permutation. }
  rewrite Hrecvd, list_filter_filter_l; [done|].
  intros r Hr. unfold dest_worker. rewrite Hr. exact Hw.
Qed.

(** C1 (with the precondition it needs): input partitions that have the
    column and no column named [_worker], and whose rows all hold in the
    column the number of one of the [M] output partitions, each of which
    [worker_for] gives a worker.  Every input partition is split by
    [split_by_worker]; each worker receives its shards in batches of any
    grouping and order and regroups every batch with
    [split_by_partition].  Then all [M] output partitions are produced,
    together they hold exactly the rows of the input (as a multiset),
    every row of output partition [j] holds [j] in the column, and so
    the rows of one output partition agree on the bucket under every
    hash. *)
Theorem shuffle_round_trip (M : nat) (parts : list DataFrame) :
  (∀ j : nat, (j < M)%nat → is_Some (worker_for !! Z.of_nat j)) →
  Forall (λ df,
    column ∈ columns df ∧ ("_worker" ∉ columns df)
    ∧ Forall (λ r : Row,
        ∃ j : nat, (j < M)%nat ∧ r !! column = Some (Z.of_nat j)) (rows df))
    parts →
  ∃ outs,
    transfer column worker_for parts = Ok outs
    ∧ ∀ received : WorkerAddress → list (list DataFrame),
        (∀ w, Forall (λ batch, batch ≠ []) (received w)
              ∧ concat (received w) ≡ₚ inbox w outs) →
        ∃ outputs,
          shuffle_outputs column worker_for received M = Ok outputs
          ∧ concat outputs ≡ₚ concat (rows <$> parts)
          ∧ (∀ (j : nat) rows_j, outputs !! j = Some rows_j →
               Forall (λ r : Row, r !! column = Some (Z.of_nat j)) rows_j)
          ∧ (∀ (hash : Z → Z) rows_j r r',
               rows_j ∈ outputs → r ∈ rows_j → r' ∈ rows_j →
               bucket column hash M r = bucket column hash M r').
Proof.
  intros Hcover Hparts.
  assert (Forall (λ df, column ∈ columns df ∧ "_worker" ∉ columns df) parts)
    as Hshape.
  { eapply Forall_impl; [exact Hparts|]. intros df (? & ? & _). done. }
  assert (Forall (λ r : Row,
            ∃ j : nat, (j < M)%nat ∧ r !! column = Some (Z.of_nat j))
            (concat (rows <$> parts))) as Hrange.
  { clear Hshape. induction Hparts as [|df parts (_ & _ & Hdf) _ IH]; [constructor|].
    rewrite fmap_cons. cbn [concat]. apply Forall_app. done. }
  destruct (transfer_shards parts Hshape) as (outs & Houts & Hall).
  exists outs. split; [done|]. intros received Hrecv.
  set (R := concat (rows <$> parts)) in *.
  assert (∀ l, Forall (λ j : nat, (j < M)%nat) l →
    ∃ outputs,
      mapM (λ j : nat, shuffle_output column worker_for received (Z.of_nat j)) l
      = Ok outputs
      ∧ Forall2 (λ (j : nat) rows_j,
          rows_j ≡ₚ filter (λ r : Row, r !! column = Some (Z.of_nat j)) R)
          l outputs) as Hmap.
  { induction 1 as [|j l Hj _ (outputs & Houtputs & Hrows)].
    - exists []. split; [done|constructor].
    - destruct (shuffle_output_rows parts outs received (Z.of_nat j)
        (Hcover j Hj) Hshape Hall Hrecv) as (rows_j & Hrows_j & Hperm).
      exists (rows_j :: outputs). split.
      + cbn. rewrite Hrows_j. cbn. by rewrite Houtputs.
      + by constructor. }
  destruct (Hmap (seq 0 M)) as (outputs & Houtputs & Hrows).
  { apply Forall_forall. intros j Hj. apply elem_of_seq in Hj. lia. }
  assert (∀ (j : nat) rows_j, outputs !! j = Some rows_j →
            Forall (λ r : Row, r !! column = Some (Z.of_nat j)) rows_j) as Hcol.
  { intros j rows_j Hj.
    destruct (Forall2_lookup_r _ _ _ _ _ Hrows Hj) as (j' & Hj' & Hperm).
    apply lookup_seq in Hj' as [-> _]. cbn in Hperm.
    apply Forall_forall. intros r Hr. rewrite Hperm in Hr.
    by apply list_elem_of_filter in Hr as [? _]. }
  exists outputs. split; [done|]. split; [|split; [done|]].
  - rewrite <- (buckets_Permutation M R Hrange).
    apply concat_Forall2_Permutation.
    apply Forall2_fmap_r, Forall2_flip. exact Hrows.
  - intros hash rows_j r r' Hin Hr Hr'.
    apply list_elem_of_lookup in Hin as [j Hj].
    pose proof (Hcol j rows_j Hj) as Hall_j. rewrite Forall_forall in Hall_j.
    unfold bucket. by rewrite (Hall_j r Hr), (Hall_j r' Hr').
Qed.

End round_trip.

Section round_trip_examples.
Import Table TabularShuffle TableExamples.
Local Open Scope Z_scope.

Lemma one_by_one_delivery (outs : list (gmap WorkerAddress DataFrame))
    (w : WorkerAddress) :
  Forall (λ batch, batch ≠ []) (one_by_one outs w)
  ∧ concat (one_by_one outs w) ≡ₚ inbox w outs.
Proof.
  unfold one_by_one. generalize (inbox w outs). intros l. split.
  - apply Forall_fmap, Forall_true. done.
  - induction l as [|shard l IH]; [done|].
    rewrite fmap_cons. cbn. by rewrite IH.
Qed.

(** C1 as stated fails: with two output partitions, both with a worker,
    the row whose column holds 5 finds no partner in the merge of
    [split_by_worker]; nothing is sent, both output partitions come out
    without rows, and the row of the input is in none of them. *)
Lemma shuffle_drops_row_without_worker :
  worker_for_2 !! 0 = Some "W0" ∧ worker_for_2 !! 1 = Some "W1"
  ∧ rows stray = [{[ "k" := 5 ]}]
  ∧ split_by_worker stray "k" worker_for_2 = Ok ∅
  ∧ transfer "k" worker_for_2 [stray] = Ok [∅]
  ∧ shuffle_outputs "k" worker_for_2 (one_by_one [∅]) 2 = Ok [[]; []]
  ∧ ¬ (concat [[]; []] ≡ₚ concat (rows <$> [stray])).
Proof.
  split; [reflexivity|]. split; [reflexivity|]. split; [reflexivity|].
  split; [vm_compute; reflexivity|]. split; [vm_compute; reflexivity|].
  split; [vm_compute; reflexivity|].
  cbn. intros Hperm. apply Permutation_length in Hperm. done.
Qed.

Lemma shuffle_round_trip_witness :
  ∃ outs outputs,
    transfer "_partitions" worker_for_2 [part_a; part_b] = Ok outs
    ∧ shuffle_outputs "_partitions" worker_for_2 (one_by_one outs) 2
      = Ok outputs
    ∧ concat outputs ≡ₚ concat (rows <$> [part_a; part_b])
    ∧ (∀ (j : nat) rows_j, outputs !! j = Some rows_j →
         Forall (λ r : Row, r !! "_partitions" = Some (Z.of_nat j)) rows_j)
    ∧ (∀ (hash : Z → Z) rows_j r r',
         rows_j ∈ outputs → r ∈ rows_j → r' ∈ rows_j →
         bucket "_partitions" hash 2 r = bucket "_partitions" hash 2 r').
Proof.
  destruct (shuffle_round_trip "_partitions" worker_for_2 2 [part_a; part_b])
    as (outs & Houts & Hrt).
  - intros [|[|j]] Hj; [by exists "W0"|by exists "W1"|lia].
  - apply Forall_cons; split; [|apply Forall_cons; split; [|apply Forall_nil_2]];
      (split; [by apply (bool_decide_unpack _); vm_compute|];
       split; [by apply (bool_decide_unpack _); vm_compute|]);
      cbn [rows part_a part_b fmap list_fmap];
      repeat (apply Forall_cons; split); try apply Forall_nil_2;
      first [by exists 0%nat; split; [lia|vm_compute]
            |by exists 1%nat; split; [lia|vm_compute]].
  - destruct (Hrt (one_by_one outs) (one_by_one_delivery outs))
      as (outputs & Houtputs & Hrest).
    exists outs, outputs. split; [exact Houts|]. split; [exact Houtputs|].
    exact Hrest.
Defined.

(** The six rows of the example: output partition 0 holds the rows with
    even [k], output partition 1 those with odd [k]. *)
Lemma shuffle_six_rows :
  ∃ outs,
    transfer "_partitions" worker_for_2 [part_a; part_b] = Ok outs
    ∧ shuffle_outputs "_partitions" worker_for_2 (one_by_one outs) 2
      = Ok [row_k <$> [0; 2; 4]; row_k <$> [1; 3; 5]].
Proof. eexists. split; vm_compute; reflexivity. Qed.

End round_trip_examples.

(** ** Worker assignment *)

Section sharding.
Import Sharding.
Local Open Scope Z_scope.

Lemma getitem_in_range {A : Type} (workers : list A) (i : Z) :
  0 ≤ i < Z.of_nat (length workers) →
  ∃ w, getitem workers i = inr w ∧ workers !! Z.to_nat i = Some w.
Proof.
  intros Hi. unfold getitem.
  rewrite (bool_decide_eq_false_2 (i < 0)) by lia.
  rewrite bool_decide_eq_true_2 by lia.
  destruct (lookup_lt_is_Some_2 workers (Z.to_nat i)) as [w Hw]; [lia|].
  rewrite Hw. by exists w.
Qed.

Lemma range_index_bounds (n p W : Z) :
  0 < n → 0 ≤ p < n → 0 < W → 0 ≤ (W * p) `div` n < W.
Proof.
  intros Hn Hp HW. split.
  - apply Z.div_pos; nia.
  - apply Z.div_lt_upper_bound; nia.
Qed.

(** X1: range sharding gives every output partition in
    [0, npartitions) one of the workers, whenever there is a worker. *)
Theorem range_sharding_assigns_worker (npartitions output_partition : Z)
    (workers : list WorkerAddress) :
  0 ≤ output_partition < npartitions → workers ≠ [] →
  ∃ w, get_worker_for_range_sharding npartitions output_partition workers
       = inr w
       ∧ w ∈ workers.
Proof.
  intros Hp Hne. unfold get_worker_for_range_sharding, floordiv.
  rewrite bool_decide_eq_false_2 by lia.
  assert (0 < Z.of_nat (length workers)) as HW.
  { destruct workers; [done|]. cbn [length]. lia. }
  destruct (getitem_in_range workers
              ((Z.of_nat (length workers) * output_partition) `div` npartitions))
    as (w & Hw & Hlookup).
  { apply range_index_bounds; lia. }
  exists w. split; [done|]. by eapply list_elem_of_lookup_2.
Qed.

Lemma range_sharding_assigns_worker_witness :
  ∃ w, get_worker_for_range_sharding 10 7 ["a"; "b"; "c"] = inr w
       ∧ w ∈ ["a"; "b"; "c"].
Proof. apply range_sharding_assigns_worker; [lia|done]. Defined.

(** X2: range sharding is monotone: a larger output partition goes to a
    worker at the same or a later position of [workers], so every worker
    owns a contiguous range of output partitions. *)
Theorem range_sharding_monotone (npartitions p p' : Z)
    (workers : list WorkerAddress) :
  0 ≤ p → p ≤ p' → p' < npartitions → workers ≠ [] →
  ∃ (i i' : nat) w w',
    (i ≤ i')%nat
    ∧ workers !! i = Some w ∧ workers !! i' = Some w'
    ∧ get_worker_for_range_sharding npartitions p workers = inr w
    ∧ get_worker_for_range_sharding npartitions p' workers = inr w'.
Proof.
  intros Hp Hpp' Hp' Hne. unfold get_worker_for_range_sharding, floordiv.
  rewrite bool_decide_eq_false_2 by lia.
  assert (0 < Z.of_nat (length workers)) as HW.
  { destruct workers; [done|]. cbn [length]. lia. }
  set (W := Z.of_nat (length workers)) in *.
  destruct (getitem_in_range workers ((W * p) `div` npartitions))
    as (w & Hw & Hlookup); [apply range_index_bounds; lia|].
  destruct (getitem_in_range workers ((W * p') `div` npartitions))
    as (w' & Hw' & Hlookup'); [apply range_index_bounds; lia|].
  exists (Z.to_nat ((W * p) `div` npartitions)),
    (Z.to_nat ((W * p') `div` npartitions)), w, w'.
  split; [|done].
  apply Z2Nat.inj_le.
  - apply Z.div_pos; nia.
  - apply Z.div_pos; nia.
  - apply Z.div_le_mono; nia.
Qed.

Lemma range_sharding_monotone_witness :
  ∃ (i i' : nat) w w',
    (i ≤ i')%nat
    ∧ ["a"; "b"; "c"] !! i = Some w ∧ ["a"; "b"; "c"] !! i' = Some w'
    ∧ get_worker_for_range_sharding 10 3 ["a"; "b"; "c"] = inr w
    ∧ get_worker_for_range_sharding 10 8 ["a"; "b"; "c"] = inr w'.
Proof. apply range_sharding_monotone; [lia|lia|lia|done]. Defined.

(** X3: with at least as many output partitions as workers, range
    sharding leaves no worker without an output partition. *)
Theorem range_sharding_uses_every_worker (npartitions : Z)
    (workers : list WorkerAddress) (w : WorkerAddress) :
  Z.of_nat (length workers) ≤ npartitions → w ∈ workers →
  ∃ p, 0 ≤ p < npartitions
       ∧ get_worker_for_range_sharding npartitions p workers = inr w.
Proof.
  intros Hle Hw. apply list_elem_of_lookup in Hw as [i Hi].
  pose proof (lookup_lt_Some _ _ _ Hi) as Hlt.
  set (W := Z.of_nat (length workers)) in *.
  set (n := npartitions) in *.
  set (p := (Z.of_nat i * n + W - 1) `div` W).
  assert (0 < W) as HW by lia.
  assert (W * p ≤ Z.of_nat i * n + W - 1) as Hup.
  { unfold p. apply Z.mul_div_le. lia. }
  assert (Z.of_nat i * n < W * p + 1 ∧ Z.of_nat i * n + W - 1 < W * p + W) as [Hlo Hlo'].
  { unfold p. pose proof (Z.mod_pos_bound (Z.of_nat i * n + W - 1) W HW).
    pose proof (Z.div_mod (Z.of_nat i * n + W - 1) W). lia. }
  assert (0 ≤ p < n) as Hp.
  { split; [unfold p; apply Z.div_pos; nia|]. nia. }
  exists p. split; [done|].
  unfold get_worker_for_range_sharding, floordiv.
  rewrite bool_decide_eq_false_2 by lia. fold W.
  assert ((W * p) `div` n = Z.of_nat i) as ->.
  { symmetry. apply Z.div_unique with (W * p - Z.of_nat i * n); nia. }
  destruct (getitem_in_range workers (Z.of_nat i)) as (w' & Hw' & Hl); [lia|].
  rewrite Nat2Z.id, Hi in Hl. by injection Hl as <-.
Qed.

Lemma range_sharding_uses_every_worker_witness :
  ∃ p, 0 ≤ p < 10
       ∧ get_worker_for_range_sharding 10 p ["a"; "b"; "c"] = inr "b".
Proof.
  apply range_sharding_uses_every_worker; [cbn; lia|].
  by apply (bool_decide_unpack _); vm_compute.
Defined.

(** X5: an output partition at or past [npartitions] has no worker:
    range sharding raises [IndexError]. *)
Theorem range_sharding_out_of_range (npartitions output_partition : Z)
    (workers : list WorkerAddress) :
  0 < npartitions → npartitions ≤ output_partition →
  get_worker_for_range_sharding npartitions output_partition workers
  = inl IndexError.
Proof.
  intros Hn Hp. unfold get_worker_for_range_sharding, floordiv.
  rewrite bool_decide_eq_false_2 by lia.
  set (W := Z.of_nat (length workers)).
  assert (W ≤ (W * output_partition) `div` npartitions) as Hge.
  { apply Z.div_le_lower_bound; [lia|]. unfold W. nia. }
  assert (0 ≤ W) as HW by (unfold W; lia).
  unfold getitem. fold W.
  set (i := (W * output_partition) `div` npartitions) in *.
  rewrite (bool_decide_eq_false_2 (i < 0)) by lia.
  rewrite (bool_decide_eq_false_2 (0 ≤ i < W)) by lia. done.
Qed.

Lemma range_sharding_out_of_range_witness :
  get_worker_for_range_sharding 10 10 ["a"; "b"; "c"] = inl IndexError.
Proof. apply range_sharding_out_of_range; lia. Defined.

(** X6: hash sharding returns one of the workers for every value of the
    hash, negative ones included, and raises only when there is no
    worker, and then [ZeroDivisionError]. *)
Theorem hash_sharding_assigns_worker (hash : NDIndex → Z)
    (output_partition : NDIndex) (workers : list WorkerAddress) :
  match get_worker_for_hash_sharding hash output_partition workers with
  | inr w => w ∈ workers
  | inl e => workers = [] ∧ e = ZeroDivisionError
  end.
Proof.
  unfold get_worker_for_hash_sharding, pymod.
  destruct workers as [|w0 workers]; [done|].
  rewrite bool_decide_eq_false_2 by (cbn [length]; lia).
  set (ws := w0 :: workers).
  destruct (getitem_in_range ws
              (hash output_partition `mod` Z.of_nat (length ws)))
    as (w & Hw & Hlookup).
  { apply Z.mod_pos_bound. unfold ws. cbn [length]. lia. }
  rewrite Hw. by eapply list_elem_of_lookup_2.
Qed.

End sharding.

Section sharding_balance.
Import Sharding.
Local Open Scope Z_scope.

Lemma ceil_div_le (x W p : Z) :
  0 < W → (x + W - 1) `div` W ≤ p ↔ x ≤ W * p.
Proof.
  intros HW.
  pose proof (Z.div_mod (x + W - 1) W ltac:(lia)) as Hdm.
  pose proof (Z.mod_pos_bound (x + W - 1) W HW) as Hr.
  split; intros Hle; nia.
Qed.

Lemma length_filter_interval (a b n : nat) :
  (a ≤ b)%nat →
  length (filter (λ p : nat, (a ≤ p < b)%nat) (seq 0 n))
  = (Nat.min b n - Nat.min a n)%nat.
Proof.
  intros Hab. induction n as [|n IH]; [by rewrite Nat.min_0_r|].
  rewrite seq_S, filter_app, length_app, IH. cbn [seq Nat.add].
  rewrite filter_cons, filter_nil.
  destruct (decide (a ≤ n < b)%nat); cbn [length]; lia.
Qed.

Lemma range_sharding_index (n p : Z) (workers : list WorkerAddress)
    (i : nat) (w : WorkerAddress) :
  NoDup workers → workers !! i = Some w → 0 ≤ p < n →
  get_worker_for_range_sharding n p workers = inr w
  ↔ (Z.of_nat (length workers) * p) `div` n = Z.of_nat i.
Proof.
  intros Hnd Hi Hp.
  pose proof (lookup_lt_Some _ _ _ Hi) as Hlt.
  unfold get_worker_for_range_sharding, floordiv.
  rewrite bool_decide_eq_false_2 by lia.
  set (W := Z.of_nat (length workers)) in *.
  destruct (getitem_in_range workers ((W * p) `div` n))
    as (w' & Hw' & Hlookup); [apply range_index_bounds; lia|].
  rewrite Hw'. split.
  - intros [= ->].
    pose proof (NoDup_lookup _ _ _ _ Hnd Hlookup Hi) as Heq.
    pose proof (range_index_bounds n p W ltac:(lia) Hp ltac:(lia)). lia.
  - intros Heq. rewrite Heq, Nat2Z.id, Hi in Hlookup. by injection Hlookup as ->.
Qed.

(** X4: range sharding is balanced: with [W] distinct workers and [n]
    output partitions, every worker owns at least [n // W] and at most
    [ceil(n / W)] of them. *)
Theorem range_sharding_balanced (npartitions : nat)
    (workers : list WorkerAddress) (w : WorkerAddress) :
  NoDup workers → w ∈ workers →
  (npartitions / length workers
   ≤ length (partitions_of_worker npartitions workers w)
   ≤ (npartitions + length workers - 1) / length workers)%nat.
Proof.
  intros Hnd Hw. apply list_elem_of_lookup in Hw as [i Hi].
  pose proof (lookup_lt_Some _ _ _ Hi) as Hlt.
  set (Wn := length workers) in *.
  set (n := Z.of_nat npartitions). set (W := Z.of_nat Wn).
  assert (0 < W) as HW by (unfold W; lia).
  set (aZ := (Z.of_nat i * n + W - 1) `div` W).
  set (bZ := ((Z.of_nat i + 1) * n + W - 1) `div` W).
  assert (0 ≤ aZ) as Ha0 by (unfold aZ; apply Z.div_pos; unfold n; nia).
  assert (aZ ≤ bZ) as Hab by (unfold aZ, bZ; apply Z.div_le_mono; unfold n; nia).
  assert (bZ ≤ n) as Hbn by (unfold bZ; apply ceil_div_le; [done|]; unfold n, W; nia).
  assert (partitions_of_worker npartitions workers w
          = filter (λ p : nat, (Z.to_nat aZ ≤ p < Z.to_nat bZ)%nat)
              (seq 0 npartitions)) as ->.
  { unfold partitions_of_worker. apply filter_Forall_ext, Forall_forall.
    intros p Hp. apply elem_of_seq in Hp.
    rewrite (range_sharding_index _ _ workers i w Hnd Hi) by lia.
    fold Wn W n.
    pose proof (ceil_div_le (Z.of_nat i * n) W (Z.of_nat p) HW) as H1.
    pose proof (ceil_div_le ((Z.of_nat i + 1) * n) W (Z.of_nat p) HW) as H2.
    fold aZ in H1. fold bZ in H2.
    assert (0 < n) as Hn by (unfold n; lia).
    split.
    - intros Hdiv.
      pose proof (Z.div_mod (W * Z.of_nat p) n ltac:(lia)) as Hdm.
      pose proof (Z.mod_pos_bound (W * Z.of_nat p) n Hn) as Hr.
      rewrite Hdiv in Hdm.
      assert (aZ ≤ Z.of_nat p) by (apply H1; nia).
      assert (¬ bZ ≤ Z.of_nat p) by (rewrite H2; nia). lia.
    - intros [Hlo Hhi].
      assert (aZ ≤ Z.of_nat p) as Hlo' by lia.
      assert (¬ bZ ≤ Z.of_nat p) as Hhi' by lia.
      rewrite H1 in Hlo'. rewrite H2 in Hhi'.
      symmetry. apply Z.div_unique with (W * Z.of_nat p - Z.of_nat i * n); nia. }
  rewrite length_filter_interval by lia.
  rewrite !Nat.min_l by lia.
  pose proof (Z.div_mod n W ltac:(lia)) as Hd0.
  pose proof (Z.mod_pos_bound n W HW) as Hr0.
  pose proof (Z.div_mod (n + W - 1) W ltac:(lia)) as Hd3.
  pose proof (Z.mod_pos_bound (n + W - 1) W HW) as Hr3.
  pose proof (Z.div_mod (Z.of_nat i * n + W - 1) W ltac:(lia)) as Hd1.
  pose proof (Z.mod_pos_bound (Z.of_nat i * n + W - 1) W HW) as Hr1.
  pose proof (Z.div_mod ((Z.of_nat i + 1) * n + W - 1) W ltac:(lia)) as Hd2.
  pose proof (Z.mod_pos_bound ((Z.of_nat i + 1) * n + W - 1) W HW) as Hr2.
  fold aZ in Hd1. fold bZ in Hd2.
  assert (n `div` W ≤ bZ - aZ ≤ (n + W - 1) `div` W) as [Hlow Hupp] by nia.
  split.
  - apply Nat2Z.inj_le. rewrite Nat2Z.inj_div, Nat2Z.inj_sub by lia.
    rewrite !Z2Nat.id by lia. exact Hlow.
  - apply Nat2Z.inj_le. rewrite Nat2Z.inj_div, Nat2Z.inj_sub by lia.
    rewrite !Z2Nat.id by lia.
    rewrite Nat2Z.inj_sub, Nat2Z.inj_add by lia. exact Hupp.
Qed.

Lemma range_sharding_balanced_witness :
  (10 / 3 ≤ length (partitions_of_worker 10 ["a"; "b"; "c"] "b")
   ≤ (10 + 3 - 1) / 3)%nat.
Proof.
  apply (range_sharding_balanced 10 ["a"; "b"; "c"] "b").
  - by apply (bool_decide_unpack _); vm_compute.
  - by apply (bool_decide_unpack _); vm_compute.
Defined.

End sharding_balance.

(** ** Stability of the sort, and the order of the rows in a shard *)

Section stable.
Context {A : Type} (key : A → Z).
Local Open Scope Z_scope.

Lemma insert_by_filter (c : Z) (x : A) (l : list A) :
  StronglySorted (key_le key) l →
  filter (λ r, key r = c) (insert_by key x l)
  = filter (λ r, key r = c) l ++ filter (λ r, key r = c) [x].
Proof.
  induction 1 as [|y l Hl IH Hy]; [done|]. cbn [insert_by].
  case_bool_decide as Hxy.
  - rewrite !(filter_cons _ y), IH. by destruct (decide (key y = c)).
  - rewrite (filter_cons _ x). rewrite (filter_cons _ x []), filter_nil.
    destruct (decide (key x = c)) as [Hc|Hc]; [|by rewrite app_nil_r].
    assert (Forall (λ r, key r ≠ c) (y :: l)) as Hall.
    { constructor; [lia|]. eapply Forall_impl; [exact Hy|].
      unfold key_le. intros z Hz. lia. }
    assert (filter (λ r, key r = c) (y :: l) = []) as ->; [|done].
    revert Hall. generalize (y :: l). clear. intros l0 Hall.
    induction Hall as [|z l1 Hz _ IH]; [done|].
    by rewrite filter_cons, decide_False.
Qed.

(** The sort is stable: the elements of one key stay in their order. *)
Lemma sort_by_stable (c : Z) (l : list A) :
  filter (λ r, key r = c) (sort_by key l) = filter (λ r, key r = c) l.
Proof.
  unfold sort_by.
  assert (∀ acc, StronglySorted (key_le key) acc →
            filter (λ r, key r = c) (foldl (λ acc x, insert_by key x acc) acc l)
            = filter (λ r, key r = c) acc ++ filter (λ r, key r = c) l) as Hgen.
  { induction l as [|x l IH]; intros acc Hacc; cbn [foldl].
    - by rewrite filter_nil, app_nil_r.
    - rewrite IH by by apply insert_by_sorted.
      rewrite insert_by_filter by done. rewrite <- app_assoc. f_equal.
      rewrite !(filter_cons _ x), filter_nil.
      by destruct (decide (key x = c)). }
  rewrite Hgen by constructor. done.
Qed.

End stable.

Section ordered_groups.
Import Table TabularShuffle.
Variable column : string.
Local Open Scope Z_scope.

Local Abbreviation key := (λ r : Row, default 0 (r !! column)).

(** As [split_by_partition_groups], with the rows of every group in the
    order they have in the table. *)
Lemma split_by_partition_ordered_groups (t : DataFrame) :
  column ∈ columns t → rows t ≠ [] →
  Forall (λ r : Row, is_Some (r !! column)) (rows t) →
  ∃ groups,
    split_by_partition t column = Ok groups
    ∧ (∀ j, rows_of (groups !! j)
            = filter (λ r : Row, r !! column = Some j) (rows t))
    ∧ (∀ j g, groups !! j = Some g → columns g = columns t ∧ rows g ≠ [])
    ∧ sum_list (len <$> (map_to_list groups).*2) = len t.
Proof.
  intros Hcol Hne Hrows. unfold split_by_partition.
  rewrite column_values_total by done. cbn [mbind result_bind].
  set (t' := sort_by key (rows t)).
  assert (Hperm : t' ≡ₚ rows t) by apply sort_by_Permutation.
  destruct (sliced_sorted key t') as (G & Hcodes & Hshards & Hinc & Hunif
                                       & Hcat & Hfilter).
  { intros Hnil. rewrite Hnil in Hperm.
    by apply Permutation_nil in Hperm. }
  { apply sort_by_sorted. }
  assert (Hnd : NoDup G.*1) by by apply StronglySorted_lt_NoDup.
  rewrite Hshards.
  assert (Hparts : sort_by (λ v, v) (remove_dups (key <$> rows t)) = G.*1).
  { apply sort_by_unique; [done|].
    apply NoDup_Permutation; [apply NoDup_remove_dups|done|].
    intros c. rewrite elem_of_remove_dups.
    rewrite (group_codes key t' G c Hnd Hunif Hfilter). by rewrite Hperm. }
  rewrite Hparts.
  rewrite bool_decide_eq_true_2.
  2:{ unfold len. rewrite sum_list_length_concat, Hcat. by rewrite Hperm. }
  rewrite bool_decide_eq_true_2 by by rewrite !length_fmap.
  eexists. split; [done|].
  assert (Hdict : dict (zip G.*1 (mkDataFrame (columns t) <$> G.*2))
                  = mkDataFrame (columns t) <$> (list_to_map G : gmap Z (list Row))).
  { rewrite <- list_to_map_fmap.
    assert (Hzip : zip G.*1 (mkDataFrame (columns t) <$> G.*2)
                   = prod_map id (mkDataFrame (columns t)) <$> G).
    { clear. induction G as [|[c g] G IH]; cbn; [done|]. by rewrite IH. }
    rewrite Hzip, dict_list_to_map. apply list_to_map_proper.
    - rewrite reverse_Permutation, <- list_fmap_compose.
      by erewrite list_fmap_ext; [exact Hnd|].
    - apply reverse_Permutation. }
  rewrite Hdict. split; [|split].
  - intros j. rewrite lookup_fmap. unfold rows_of.
    rewrite (filter_Forall_ext (λ r : Row, r !! column = Some j)
               (λ r, key r = j)).
    + rewrite <- (sort_by_stable key j (rows t)). fold t'.
      rewrite Hfilter. by destruct (list_to_map G !! j).
    + eapply Forall_impl; [exact Hrows|].
      intros r [v Hv]. cbn. rewrite Hv. cbn. split; congruence.
  - intros j g. rewrite lookup_fmap.
    destruct (list_to_map G !! j) as [g'|] eqn:Hg'; [|done].
    intros [= <-]. split; [done|]. cbn.
    apply elem_of_list_to_map in Hg'; [|done].
    rewrite Forall_forall in Hunif. by destruct (Hunif _ Hg').
  - rewrite map_to_list_fmap, <- !list_fmap_compose.
    rewrite (map_to_list_to_map G Hnd).
    unfold len. rewrite <- Hperm, <- Hcat, <- sum_list_length_concat.
    by rewrite <- list_fmap_compose.
Qed.

End ordered_groups.

Section ordered_shards.
Import Table TabularShuffle.
Variable column : string.
Variable worker_for : gmap Z WorkerAddress.
Local Open Scope Z_scope.

Local Abbreviation cats := (categories worker_for).
Local Abbreviation dest := (dest_worker column worker_for).

(** As [split_by_worker_shards], with the rows of every shard in the
    order they have in the frame. *)
Lemma split_by_worker_ordered_shards (df : DataFrame) :
  column ∈ columns df → "_worker" ∉ columns df →
  ∃ out,
    split_by_worker df column worker_for = Ok out
    ∧ (∀ w, rows_of (out !! w) = filter (λ r, dest r = Some w) (rows df))
    ∧ (∀ w shard, out !! w = Some shard →
         columns shard = columns df ∧ rows shard ≠ []).
Proof.
  intros Hcol Hworker. unfold split_by_worker.
  rewrite bool_decide_eq_true_2 by done.
  rewrite bool_decide_eq_false_2 by done.
  set (merged := merge_worker (rows df) column worker_for).
  case_bool_decide as Hn.
  { exists ∅. split; [done|]. split.
    - intros w. rewrite lookup_empty. cbn.
      rewrite (merge_worker_nil column worker_for); [done|].
      by apply nil_length_inv.
    - intros w shard. by rewrite lookup_empty. }
  set (tp := sort_by snd merged).
  assert (Hperm : tp ≡ₚ merged) by apply sort_by_Permutation.
  destruct (sliced_sorted snd tp)
    as (G & Hcodes & Hshards & Hinc & Hunif & Hcat & Hfilter).
  { intros Hnil. rewrite Hnil in Hperm. apply Permutation_nil in Hperm.
    by rewrite Hperm in Hn. }
  { apply sort_by_sorted. }
  assert (Hnd : NoDup G.*1) by by apply StronglySorted_lt_NoDup.
  rewrite shards_of_fmap, Hshards, Hcodes.
  (* every code of a group is the code of a worker *)
  assert (Hvalid : Forall (λ cg : Z * list (Row * Z),
                     ∃ w code, cg.1 = Z.of_nat code
                               ∧ code_of cats w = Some code) G).
  { apply Forall_forall. intros [c g] Hcg.
    rewrite Forall_forall in Hunif. destruct (Hunif _ Hcg) as [Hne Hc].
    cbn in Hne, Hc. destruct g as [|p g]; [done|].
    apply Forall_cons in Hc as [Hp _].
    assert (Hin : p ∈ merged).
    { rewrite <- Hperm, <- Hcat. eapply elem_of_group; [exact Hcg|left]. }
    apply merge_worker_entry in Hin as (_ & w & code & _ & Hcode & Hp2).
    exists w, code. cbn. split; [congruence|done]. }
  set (h := λ g : list (Row * Z), mkDataFrame (columns df) g.*1).
  set (wk := λ c : Z, default "" (cats !! Z.to_nat c)).
  assert (HG' : omap (λ cs : Z * list Row,
                        w ← cats !! Z.to_nat cs.1;
                        Some (w, mkDataFrame (columns df) cs.2))
                  (zip G.*1 (fmap (M:=list) fst <$> G.*2))
                = (λ cg, (wk cg.1, h cg.2)) <$> G).
  { clear -Hvalid. induction Hvalid as [|[c g] G (w & code & Hc & Hcode) _ IH];
      [done|].
    rewrite !fmap_cons. cbn [zip zip_with fst snd]. rewrite omap_cons.
    cbn [fst snd] in *. subst c.
    apply (code_of_category worker_for) in Hcode.
    unfold wk. rewrite Nat2Z.id, Hcode. cbn. by rewrite IH. }
  rewrite HG'. set (G' := (λ cg, (wk cg.1, h cg.2)) <$> G).
  assert (Hwk : ∀ c g, (c, g) ∈ G →
            ∃ code, c = Z.of_nat code ∧ code_of cats (wk c) = Some code).
  { intros c g Hcg. rewrite Forall_forall in Hvalid.
    destruct (Hvalid _ Hcg) as (w & code & Hc & Hcode). cbn in Hc. subst c.
    exists code. split; [done|]. unfold wk.
    rewrite Nat2Z.id, (code_of_category worker_for w code Hcode). done. }
  assert (Hnd' : NoDup G'.*1).
  { unfold G'. rewrite <- list_fmap_compose.
    change (fst ∘ (λ cg : Z * list (Row * Z), (wk cg.1, h cg.2)))
      with (wk ∘ (fst : Z * list (Row * Z) → Z)).
    rewrite list_fmap_compose. apply NoDup_fmap_2_strong; [|done].
    intros c1 c2 H1 H2 Heq.
    apply list_elem_of_fmap in H1 as ([c1' g1] & -> & H1).
    apply list_elem_of_fmap in H2 as ([c2' g2] & -> & H2).
    cbn in *. destruct (Hwk _ _ H1) as (code1 & -> & Hc1).
    destruct (Hwk _ _ H2) as (code2 & -> & Hc2).
    rewrite Heq in Hc1. congruence. }
  assert (Hout : dict G' = list_to_map G').
  { rewrite dict_list_to_map. apply list_to_map_proper.
    - by rewrite reverse_Permutation.
    - apply reverse_Permutation. }
  rewrite Hout.
  rewrite bool_decide_eq_true_2.
  2:{ rewrite (map_to_list_to_map G' Hnd'). unfold G'.
      rewrite <- !list_fmap_compose.
      rewrite <- (length_fmap fst merged) at 1.
      change (length merged.*1) with (length merged.*1).
      rewrite length_fmap, <- Hperm, <- Hcat, <- sum_list_length_concat.
      rewrite <- list_fmap_compose. f_equal. apply list_fmap_ext.
      intros _ [c g] _. cbn. unfold len. cbn. by rewrite length_fmap. }
  eexists. split; [done|]. split.
  - intros w. destruct (code_of cats w) as [code|] eqn:Hcode.
    + assert (Hlk : (list_to_map G' : gmap WorkerAddress DataFrame) !! w
                    = h <$> (list_to_map G : gmap Z (list (Row * Z)))
                            !! Z.of_nat code).
      { apply option_eq. intros shard.
        rewrite <- elem_of_list_to_map by done. rewrite fmap_Some.
        split.
        - intros Hin. apply list_elem_of_fmap in Hin as ([c g] & [= -> ->] & Hcg).
          destruct (Hwk _ _ Hcg) as (code' & -> & Hc'). cbn in *.
          exists g. split; [|done]. apply elem_of_list_to_map; [done|].
          rewrite Hcode in Hc'. by injection Hc' as <-.
        - intros (g & Hg & ->). apply elem_of_list_to_map in Hg; [|done].
          apply list_elem_of_fmap. exists (Z.of_nat code, g). split; [|done].
          cbn. f_equal. destruct (Hwk _ _ Hg) as (code' & Heq & Hc').
          apply Nat2Z.inj in Heq. subst code'.
          apply (code_of_category worker_for) in Hc', Hcode. congruence. }
      rewrite Hlk. unfold rows_of.
      rewrite <- (merge_worker_filter column worker_for (rows df) w code Hcode).
      fold merged. rewrite <- (sort_by_stable snd (Z.of_nat code) merged).
      fold tp. rewrite Hfilter.
      by destruct (list_to_map G !! Z.of_nat code).
    + assert (Hnone : filter (λ r, dest r = Some w) (rows df) = []).
      { destruct (filter _ (rows df)) as [|r rs'] eqn:Hf; [done|].
        assert (Hr : r ∈ filter (λ r, dest r = Some w) (rows df))
          by (rewrite Hf; left).
        apply list_elem_of_filter in Hr as [Hdest _].
        unfold dest_worker in Hdest.
        destruct (r !! column) as [v|]; [|done]. cbn in Hdest.
        destruct (code_of_worker worker_for v w Hdest) as (code & Hc & _).
        congruence. }
      rewrite Hnone.
      destruct ((list_to_map G' : gmap WorkerAddress DataFrame) !! w)
        as [shard|] eqn:Hlk; [|done].
      apply elem_of_list_to_map in Hlk; [|done].
      apply list_elem_of_fmap in Hlk as ([c g] & [= -> ->] & Hcg).
      destruct (Hwk _ _ Hcg) as (code' & _ & Hc'). cbn in *. congruence.
  - intros w shard Hlk. apply elem_of_list_to_map in Hlk; [|done].
    apply list_elem_of_fmap in Hlk as ([c g] & [= -> ->] & Hcg).
    split; [done|]. cbn.
    rewrite Forall_forall in Hunif. destruct (Hunif _ Hcg) as [Hne _].
    cbn in Hne. by destruct g.
Qed.

End ordered_shards.

Section split_properties.
Import Table TabularShuffle.
Local Open Scope Z_scope.

Lemma split_by_worker_Ok_columns (df : DataFrame) (column : string)
    (worker_for : gmap Z WorkerAddress) (out : gmap WorkerAddress DataFrame) :
  split_by_worker df column worker_for = Ok out →
  column ∈ columns df ∧ "_worker" ∉ columns df.
Proof.
  unfold split_by_worker. case_bool_decide as Hcol; [|done].
  case_bool_decide as Hw; [done|]. done.
Qed.

Lemma column_values_Ok (t : DataFrame) (column : string) (vs : list Z) :
  column_values column t = Ok vs →
  column ∈ columns t ∧ Forall (λ r : Row, is_Some (r !! column)) (rows t).
Proof.
  unfold column_values. case_bool_decide as Hcol; [|done].
  destruct (mapM (λ r : Row, r !! column) (rows t)) as [vs'|] eqn:Hvs; [|done].
  intros _. split; [done|].
  apply mapM_Some in Hvs. apply Forall_forall. intros r Hr.
  apply list_elem_of_lookup in Hr as [i Hi].
  destruct (Forall2_lookup_l _ _ _ _ _ Hvs Hi) as (v & _ & Hv). by exists v.
Qed.


Lemma split_by_partition_empty (t : DataFrame) (column : string) :
  column ∈ columns t → rows t = [] →
  split_by_partition t column
  = Raise (AssertionError "split_by_partition: partitions").
Proof.
  intros Hcol Hnil. destruct t as [cols rs]. cbn in *. subst rs.
  unfold split_by_partition, column_values. cbn [columns rows].
  rewrite (bool_decide_eq_true_2 (column ∈ cols)) by done. reflexivity.
Qed.

Lemma split_by_partition_Ok (t : DataFrame) (column : string)
    (groups : gmap Z DataFrame) :
  split_by_partition t column = Ok groups →
  column ∈ columns t
  ∧ Forall (λ r : Row, is_Some (r !! column)) (rows t)
  ∧ rows t ≠ [].
Proof.
  intros Hgroups. destruct (column_values column t) as [vs|e] eqn:Hvs.
  - destruct (column_values_Ok _ _ _ Hvs) as [Hcol Hrows].
    split; [done|]. split; [done|]. intros Hnil.
    by rewrite (split_by_partition_empty t column Hcol Hnil) in Hgroups.
  - unfold split_by_partition in Hgroups. by rewrite Hvs in Hgroups.
Qed.


(** X8: [split_by_worker] sends no empty shard: a worker has an entry
    exactly when some row of the frame goes to it, and the entry then
    has rows and the schema of the frame. *)
Theorem split_by_worker_sends_no_empty_shard (df : DataFrame)
    (column : string) (worker_for : gmap Z WorkerAddress)
    (out : gmap WorkerAddress DataFrame) (w : WorkerAddress) :
  split_by_worker df column worker_for = Ok out →
  (is_Some (out !! w)
   ↔ ∃ r, r ∈ rows df ∧ dest_worker column worker_for r = Some w)
  ∧ ∀ shard, out !! w = Some shard →
      rows shard ≠ [] ∧ columns shard = columns df.
Proof.
  intros Hout.
  destruct (split_by_worker_Ok_columns _ _ _ _ Hout) as [Hcol Hw].
  destruct (split_by_worker_ordered_shards column worker_for df Hcol Hw)
    as (out' & Hout' & Hrows & Hshape).
  rewrite Hout in Hout'. injection Hout' as <-.
  specialize (Hrows w). split.
  - split.
    + intros [shard Hshard]. destruct (Hshape w shard Hshard) as [_ Hne].
      rewrite Hshard in Hrows. cbn in Hrows.
      destruct (rows shard) as [|r rs] eqn:Hrs; [done|].
      assert (r ∈ filter (λ r, dest_worker column worker_for r = Some w)
                    (rows df)) as Hin by (rewrite <- Hrows; left).
      apply list_elem_of_filter in Hin as [Hdest Hin]. by exists r.
    + intros (r & Hr & Hdest).
      destruct (out !! w) as [shard|]; [by eexists|].
      cbn in Hrows.
      assert (r ∈ filter (λ r, dest_worker column worker_for r = Some w)
                    (rows df)) as Hin by by apply list_elem_of_filter.
      rewrite <- Hrows in Hin. by apply elem_of_nil in Hin.
  - intros shard Hshard. destruct (Hshape w shard Hshard). done.
Qed.


(** X10: [split_by_partition] keeps the order of the rows: there is one
    group per value that occurs in the column, and it holds the rows
    with this value in the order they have in the table. *)
Theorem split_by_partition_keeps_row_order (t : DataFrame) (column : string)
    (groups : gmap Z DataFrame) (j : Z) :
  split_by_partition t column = Ok groups →
  rows_of (groups !! j)
  = filter (λ r : Row, r !! column = Some j) (rows t)
  ∧ (is_Some (groups !! j) ↔ ∃ r, r ∈ rows t ∧ r !! column = Some j).
Proof.
  intros Hgroups.
  destruct (split_by_partition_Ok _ _ _ Hgroups) as (Hcol & Hrows & Hne).
  destruct (split_by_partition_ordered_groups column t Hcol Hne Hrows)
    as (groups' & Hgroups' & Hfilter & Hshape & _).
  rewrite Hgroups in Hgroups'. injection Hgroups' as <-.
  specialize (Hfilter j). split; [done|]. split.
  - intros [g Hg]. destruct (Hshape j g Hg) as [_ Hg'].
    rewrite Hg in Hfilter. cbn in Hfilter.
    destruct (rows g) as [|r rs]; [done|].
    assert (r ∈ filter (λ r : Row, r !! column = Some j) (rows t)) as Hin
      by (rewrite <- Hfilter; left).
    apply list_elem_of_filter in Hin as [Hj Hin]. by exists r.
  - intros (r & Hr & Hj).
    destruct (groups !! j) as [g|]; [by eexists|]. cbn in Hfilter.
    assert (r ∈ filter (λ r : Row, r !! column = Some j) (rows t)) as Hin
      by by apply list_elem_of_filter.
    rewrite <- Hfilter in Hin. by apply elem_of_nil in Hin.
Qed.



Lemma split_by_worker_sends_no_empty_shard_witness :
  ∃ out,
    split_by_worker TableExamples.part_a "_partitions"
      TableExamples.worker_for_2 = Ok out
    ∧ (is_Some (out !! "W1")
       ↔ ∃ r, r ∈ rows TableExamples.part_a
              ∧ dest_worker "_partitions" TableExamples.worker_for_2 r
                = Some "W1")
    ∧ ∀ shard, out !! "W1" = Some shard →
        rows shard ≠ [] ∧ columns shard = columns TableExamples.part_a.
Proof.
  eexists. split; [vm_compute; reflexivity|].
  apply split_by_worker_sends_no_empty_shard. vm_compute. reflexivity.
Defined.

Lemma split_by_partition_keeps_row_order_witness :
  ∃ groups,
    split_by_partition TableExamples.part_a "_partitions" = Ok groups
    ∧ rows_of (groups !! 0)
      = filter (λ r : Row, r !! "_partitions" = Some 0)
          (rows TableExamples.part_a)
    ∧ (is_Some (groups !! 0)
       ↔ ∃ r, r ∈ rows TableExamples.part_a ∧ r !! "_partitions" = Some 0).
Proof.
  eexists. split; [vm_compute; reflexivity|].
  apply split_by_partition_keeps_row_order. vm_compute. reflexivity.
Defined.

End split_properties.

Section repartition_buffers.
Import Table TabularShuffle.
Variable column : string.
Variable list_of_buffers_to_table : list bytes → result DataFrame.
Variable serialize_table : DataFrame → bytes.

(** X12: the length check of [_repartition_buffers] never fails: what
    it raises is what the codec or [split_by_partition] raised, and
    otherwise it returns the serialized groups of the table. *)
Theorem repartition_buffers_length_check_holds (data : list bytes) :
  match DataFrameShuffleRun._repartition_buffers column
          list_of_buffers_to_table serialize_table data with
  | Ok out =>
      ∃ table groups,
        list_of_buffers_to_table data = Ok table
        ∧ split_by_partition table column = Ok groups
        ∧ out = serialize_table <$> groups
  | Raise e =>
      list_of_buffers_to_table data = Raise e
      ∨ ∃ table,
          list_of_buffers_to_table data = Ok table
          ∧ split_by_partition table column = Raise e
  end.
Proof.
  unfold DataFrameShuffleRun._repartition_buffers.
  destruct (list_of_buffers_to_table data) as [table|e]; [|by left].
  cbn [mbind result_bind].
  destruct (split_by_partition table column) as [groups|e] eqn:Hgroups;
    [|right; by exists table].
  cbn [mbind result_bind].
  destruct (split_by_partition_Ok _ _ _ Hgroups) as (Hcol & Hrows & Hne).
  destruct (split_by_partition_groups column table Hcol Hne Hrows)
    as (groups' & Hgroups' & _ & _ & Hsum).
  rewrite Hgroups in Hgroups'. injection Hgroups' as <-.
  rewrite bool_decide_eq_true_2 by done.
  by exists table, groups.
Qed.

End repartition_buffers.

(** ** [convert_chunk] hands [concatenate3] a full lattice only *)

Section lattice_complete.
Import Rechunk.
Local Open Scope nat_scope.

Lemma setitem_keys {V : Type} (d : list (NDIndex * V)) (k : NDIndex) (v : V) :
  (setitem d k v).*1 = if decide (k ∈ d.*1) then d.*1 else d.*1 ++ [k].
Proof.
  induction d as [|[k' v'] d IH]; [done|]. cbn [setitem fst].
  destruct (decide (k' = k)) as [->|Hne].
  - rewrite !fmap_cons. cbn [fst]. rewrite decide_True by left. done.
  - rewrite !fmap_cons, IH. cbn [fst].
    destruct (decide (k ∈ d.*1)) as [Hin|Hin].
    + rewrite decide_True by by right. done.
    + rewrite decide_False; [done|].
      intros Hk. apply elem_of_cons in Hk as [->|Hk]; done.
Qed.

Lemma setitem_NoDup {V : Type} (d : list (NDIndex * V)) (k : NDIndex) (v : V) :
  NoDup d.*1 → NoDup (setitem d k v).*1.
Proof.
  intros Hnd. rewrite setitem_keys. destruct (decide (k ∈ d.*1)); [done|].
  apply NoDup_app. split; [done|]. split; [|apply NoDup_singleton].
  intros k' Hk' Hin. apply list_elem_of_singleton in Hin. by subst.
Qed.

Lemma foldl_setitem_NoDup {V : Type} (block d : list (NDIndex * V)) :
  NoDup d.*1 →
  NoDup (foldl (λ shards kv, setitem shards kv.1 kv.2) d block).*1.
Proof.
  revert d. induction block as [|kv block IH]; intros d Hnd; [done|].
  cbn. by apply IH, setitem_NoDup.
Qed.

Lemma foldM_set_cell_Ok (shape : list nat) (pairs : list (NDIndex * ndarray))
    (arr arr' : gmap NDIndex ndarray) :
  foldM (λ arr kv, set_cell shape arr kv.1 kv.2) arr pairs = Ok arr' →
  Forall (λ kv, kv.1 ∈ ndindex shape) pairs.
Proof.
  revert arr. induction pairs as [|kv pairs IH]; intros arr Hok; [constructor|].
  cbn [foldM] in Hok.
  destruct (set_cell shape arr kv.1 kv.2) as [arr1|] eqn:Hstep; [|done].
  cbn [mbind result_bind] in Hok.
  constructor; [|by eapply IH].
  unfold set_cell in Hstep. case_bool_decide as Hcell; [|done].
  apply elem_of_ndindex. by destruct Hcell.
Qed.

Context `{Pickle (list (NDIndex * ndarray))}.

Lemma load_shards_NoDup (fuel : nat) (file : bytes)
    (acc shards : list (NDIndex * ndarray)) :
  NoDup acc.*1 → load_shards fuel file acc = Ok shards → NoDup shards.*1.
Proof.
  revert file acc. induction fuel as [|fuel IH]; intros file acc Hnd Hload.
  - destruct file; cbn in Hload; by injection Hload as <-.
  - destruct file as [|b file]; cbn [load_shards] in Hload;
      [by injection Hload as <-|].
    destruct (load (b :: file)) as [[block rest]|]; [|done].
    eapply IH; [|exact Hload]. by apply foldl_setitem_NoDup.
Qed.

(** X13: [convert_chunk] either raises before it reaches [concatenate3],
    or the indices of the shards it has read are exactly the cells of
    the lattice it builds, each once, and its value is that of
    [concatenate3] on this fully populated lattice.  A brick with a
    missing shard is never assembled. *)
Theorem convert_chunk_full_lattice_or_raises (data : bytes) :
  (∃ e, ∀ concatenate3, convert_chunk concatenate3 data = Raise e)
  ∨ (∃ shards,
       load_shards (length data) data [] = Ok shards
       ∧ let subshape := (λ dim, S (max_list dim)) <$> zip_star shards.*1 in
         shards.*1 ≡ₚ ndindex subshape
         ∧ ∀ concatenate3,
             convert_chunk concatenate3 data
             = concatenate3 (tolist subshape [] (dict shards))).
Proof.
  unfold convert_chunk.
  destruct (load_shards (length data) data []) as [shards|e] eqn:Hload;
    [|left; by exists e].
  cbn [mbind result_bind].
  set (subshape := (λ dim, S (max_list dim)) <$> zip_star shards.*1).
  case_bool_decide as Hlen; [|left; by eexists].
  destruct (foldM (λ arr (kv : NDIndex * ndarray),
                     set_cell subshape arr kv.1 kv.2) ∅ shards)
    as [arr|e] eqn:Hcells; [|left; by exists e].
  right. exists shards. split; [done|]. cbn zeta. fold subshape.
  pose proof (foldM_set_cell_Ok _ _ _ _ Hcells) as Hin.
  split.
  - apply submseteq_length_Permutation.
    + apply NoDup_submseteq.
      * eapply load_shards_NoDup; [|exact Hload]. constructor.
      * intros k Hk. apply list_elem_of_fmap in Hk as (kv & -> & Hkv).
        rewrite Forall_forall in Hin. by apply Hin.
    + rewrite length_ndindex, length_fmap. lia.
  - intros concatenate3. cbn [mbind result_bind].
    rewrite (foldM_set_cell subshape shards ∅ Hin) in Hcells.
    injection Hcells as <-. done.
Qed.

End lattice_complete.

(** ** Lookups in a dict built from pairs *)

Section dict_lookup.
Context `{Countable K} {V : Type}.

Lemma dict_app (l1 l2 : list (K * V)) : dict (l1 ++ l2) = dict l2 ∪ dict l1.
Proof.
  rewrite !dict_list_to_map, reverse_app. apply list_to_map_app.
Qed.

Lemma dict_lookup_None (l : list (K * V)) (k : K) :
  dict l !! k = None ↔ k ∉ l.*1.
Proof.
  rewrite dict_list_to_map, <- not_elem_of_list_to_map.
  by rewrite fmap_reverse, elem_of_reverse.
Qed.

Lemma dict_lookup_Some (l : list (K * V)) (k : K) (v : V) :
  NoDup l.*1 → dict l !! k = Some v ↔ (k, v) ∈ l.
Proof.
  intros Hnd. rewrite dict_list_to_map, <- elem_of_list_to_map.
  - by rewrite elem_of_reverse.
  - by rewrite fmap_reverse, reverse_Permutation.
Qed.

Lemma dict_size (l : list (K * V)) : NoDup l.*1 → size (dict l) = length l.
Proof.
  intros Hnd. rewrite dict_list_to_map, map_size_list_to_map.
  - apply length_reverse.
  - by rewrite fmap_reverse, reverse_Permutation.
Qed.

End dict_lookup.

(** ** [P2PShuffleLayer]: culling and the graph *)

Section layer.
Import Table P2PShuffleLayer.
Local Open Scope nat_scope.

Lemma keys_to_parts_spec (self : Layer) (keys : list Key) (part : nat) :
  part ∈ _keys_to_parts self keys ↔ TupleKey (name self) [part] ∈ keys.
Proof.
  unfold _keys_to_parts.
  assert (∀ acc : gset nat,
            part ∈ foldl (λ (parts : gset nat) key,
                            match key with
                            | TupleKey _name [_part] =>
                                if decide (_name ≠ name self) then parts
                                else {[_part]} ∪ parts
                            | _ => parts
                            end) acc keys
            ↔ part ∈ acc ∨ TupleKey (name self) [part] ∈ keys) as Hgen.
  { induction keys as [|key keys IH]; intros acc; cbn [foldl].
    - rewrite elem_of_nil. tauto.
    - rewrite IH, elem_of_cons. clear IH.
      destruct key as [_name [|_part [|]]|]; try (split; intros [|]; auto;
        try (right; right; done); destruct H as [|]; [done|auto]).
      destruct (decide (_name ≠ name self)) as [Hne|Heq].
      + split; [intros [|]; auto|intros [|[[= ]|]]; auto]. congruence.
      + apply dec_stable in Heq. subst _name.
        rewrite elem_of_union, elem_of_singleton.
        split; [intros [[->|]|]; auto|intros [|[[= ->]|]]; auto]. }
  rewrite Hgen, elem_of_empty. tauto.
Qed.

Lemma cull_deps_lookup (self : Layer) (keys : list Key) (part : nat) :
  TupleKey (name self) [part] ∈ keys →
  (cull self keys).2 !! TupleKey (name self) [part]
  = Some (list_to_set ((λ i, TupleKey (name_input self) [i])
                         <$> seq 0 (npartitions_input self))).
Proof.
  intros Hin.
  assert ((cull self keys).2
          = dict ((λ part,
                     (TupleKey (name self) [part],
                      (list_to_set ((λ i, TupleKey (name_input self) [i])
                                      <$> seq 0 (npartitions_input self))
                       : gset Key)))
                    <$> elements (_keys_to_parts self keys))) as ->.
  { unfold cull. by destruct (decide _). }
  apply dict_lookup_Some.
  - rewrite <- list_fmap_compose. apply NoDup_fmap_2_strong; [|apply NoDup_elements].
    intros p1 p2 _ _ [= ->]. done.
  - apply list_elem_of_fmap. exists part. split; [done|].
    apply elem_of_elements. by apply keys_to_parts_spec.
Qed.

(** X14: culling a layer to the output keys it already has gives back
    the layer itself, and every one of these keys depends on all the
    input partitions. *)
Theorem cull_to_own_keys (self : Layer) (keys : list Key) :
  (∀ part, TupleKey (name self) [part] ∈ keys ↔ part ∈ parts_out self) →
  (cull self keys).1 = self
  ∧ ∀ key, key ∈ get_output_keys self →
      (cull self keys).2 !! key
      = Some (list_to_set ((λ i, TupleKey (name_input self) [i])
                             <$> seq 0 (npartitions_input self))).
Proof.
  intros Hkeys.
  assert (_keys_to_parts self keys = parts_out self) as Hparts.
  { apply set_eq. intros part. by rewrite keys_to_parts_spec. }
  split.
  - unfold cull. rewrite Hparts. by rewrite decide_False by (intros ?; done).
  - intros key Hkey. unfold get_output_keys in Hkey.
    apply elem_of_map in Hkey as (part & -> & Hpart).
    apply cull_deps_lookup. by apply Hkeys.
Qed.

(** X15: culling to a set of keys that names at least one output of the
    layer gives a layer whose outputs are exactly the named ones; keys
    of other layers and keys that are no pairs are ignored. *)
Theorem cull_selects_named_outputs (self : Layer) (keys : list Key)
    (part0 : nat) :
  TupleKey (name self) [part0] ∈ keys →
  ∀ key, key ∈ get_output_keys (cull self keys).1
         ↔ key ∈ keys ∧ ∃ part, key = TupleKey (name self) [part].
Proof.
  intros Hpart0 key.
  assert (parts_out (cull self keys).1 = _keys_to_parts self keys
          ∧ name (cull self keys).1 = name self) as [Hparts Hname].
  { unfold cull. destruct (decide _) as [Hne|Heq].
    - cbn. rewrite decide_False; [done|].
      intros Hempty.
      assert (part0 ∈ _keys_to_parts self keys) as Hin
        by by apply keys_to_parts_spec.
      rewrite Hempty in Hin. by apply elem_of_empty in Hin.
    - apply dec_stable in Heq. done. }
  unfold get_output_keys. rewrite elem_of_map, Hparts, Hname. split.
  - intros (part & -> & Hpart). apply keys_to_parts_spec in Hpart.
    split; [done|by exists part].
  - intros [Hkey [part ->]]. exists part. split; [done|].
    by apply keys_to_parts_spec.
Qed.

(** X16: culling to keys that name no output of the layer does not give
    a layer without outputs: the empty selection is taken for no
    selection, and the culled layer has all [npartitions] outputs, while
    no dependency is reported. *)
Theorem cull_to_nothing_selects_everything (self : Layer)
    (keys : list Key) :
  (∀ part, TupleKey (name self) [part] ∉ keys) →
  parts_out self ≠ ∅ →
  parts_out (cull self keys).1 = list_to_set (seq 0 (npartitions self))
  ∧ (cull self keys).2 = ∅.
Proof.
  intros Hnone Hsome.
  assert (_keys_to_parts self keys = ∅) as Hparts.
  { apply set_eq. intros part. rewrite keys_to_parts_spec, elem_of_empty.
    split; [apply Hnone|done]. }
  unfold cull. rewrite Hparts, elements_empty.
  rewrite decide_True by done. cbn. by rewrite decide_True.
Qed.

End layer.

Section layer_graph.
Import Table P2PShuffleLayer.
Variable tokenize : string → string → nat → gset nat → string.
Variable barrier_key : ShuffleId → string.
Local Open Scope nat_scope.

Local Abbreviation token_of self :=
  (tokenize (name_input self) (column self) (npartitions self)
     (parts_out self)).

Lemma construct_graph_union (self : Layer) :
  _construct_graph tokenize barrier_key self
  = (dict ((λ part_out,
              (TupleKey (name self) [part_out],
               shuffle_unpack (token_of self) part_out
                 (StrKey (barrier_key (token_of self))) (meta_input self)))
             <$> elements (parts_out self))
     ∪ dict [(StrKey (barrier_key (token_of self)),
              shuffle_barrier (token_of self)
                ((λ i, TupleKey ("shuffle-transfer-" +:+ token_of self) [i])
                   <$> seq 0 (npartitions_input self)))])
    ∪ dict ((λ i,
               (TupleKey ("shuffle-transfer-" +:+ token_of self) [i],
                shuffle_transfer (TupleKey (name_input self) [i])
                  (token_of self) i (npartitions self) (column self)
                  (parts_out self)))
              <$> seq 0 (npartitions_input self)).
Proof.
  unfold _construct_graph. rewrite dict_app, dict_app.
  by rewrite <- list_fmap_compose.
Qed.

Lemma unpacks_NoDup (self : Layer) (token : string) (bk : Key) :
  NoDup ((λ part_out,
            (TupleKey (name self) [part_out],
             shuffle_unpack token part_out bk (meta_input self)))
           <$> elements (parts_out self)).*1.
Proof.
  rewrite <- list_fmap_compose.
  apply NoDup_fmap_2_strong; [|apply NoDup_elements].
  intros p1 p2 _ _ [= ->]. done.
Qed.

(** X17: every output key of the layer has a task in its graph: the
    unpack task of its output partition, which waits for the barrier of
    the shuffle.  [__getitem__] raises no [KeyError] on an output key. *)
Theorem layer_output_key_has_unpack_task (self : Layer) (key : Key) :
  key ∈ get_output_keys self →
  ∃ part,
    key = TupleKey (name self) [part]
    ∧ part ∈ parts_out self
    ∧ getitem tokenize barrier_key self key
      = Ok (shuffle_unpack (token_of self) part
              (StrKey (barrier_key (token_of self))) (meta_input self)).
Proof.
  intros Hkey. unfold get_output_keys in Hkey.
  apply elem_of_map in Hkey as (part & -> & Hpart).
  exists part. split; [done|]. split; [done|].
  unfold getitem. rewrite construct_graph_union.
  erewrite lookup_union_Some_l; [done|].
  apply lookup_union_Some_l. apply dict_lookup_Some; [apply unpacks_NoDup|].
  apply list_elem_of_fmap. exists part. split; [done|].
  by apply elem_of_elements.
Qed.

(** X18: the graph has one barrier task under the barrier key; it lists
    one transfer key per input partition, and each of them has a task. *)
Theorem layer_barrier_lists_every_transfer (self : Layer) :
  ∃ transfer_keys,
    _construct_graph tokenize barrier_key self
      !! StrKey (barrier_key (token_of self))
    = Some (shuffle_barrier (token_of self) transfer_keys)
    ∧ transfer_keys
      = (λ i, TupleKey ("shuffle-transfer-" +:+ token_of self) [i])
          <$> seq 0 (npartitions_input self)
    ∧ Forall (λ key,
        is_Some (_construct_graph tokenize barrier_key self !! key))
        transfer_keys.
Proof.
  eexists. split; [|split; [reflexivity|]].
  - rewrite construct_graph_union.
    apply lookup_union_Some_l. rewrite lookup_union_r.
    + unfold dict. cbn. by rewrite lookup_insert_eq.
    + apply dict_lookup_None. rewrite <- list_fmap_compose.
      intros Hin. apply list_elem_of_fmap in Hin as (part & Heq & _). done.
  - apply Forall_forall. intros key Hkey.
    apply list_elem_of_fmap in Hkey as (i & -> & Hi).
    rewrite construct_graph_union. apply lookup_union_is_Some. right.
    destruct (dict _ !! _) as [task|] eqn:Hlookup; [by eexists|].
    apply dict_lookup_None in Hlookup. exfalso. apply Hlookup.
    rewrite <- list_fmap_compose. apply list_elem_of_fmap. by exists i.
Qed.

(** X19: a layer whose name is not the name of its transfer tasks has a
    graph of one transfer task per input partition, the barrier and one
    unpack task per output partition, all under different keys. *)
Theorem layer_len (self : Layer) :
  name self ≠ "shuffle-transfer-" +:+ token_of self →
  len tokenize barrier_key self
  = npartitions_input self + 1 + size (parts_out self)
  ∧ ∀ i, i < npartitions_input self →
      _construct_graph tokenize barrier_key self
        !! TupleKey ("shuffle-transfer-" +:+ token_of self) [i]
      = Some (shuffle_transfer (TupleKey (name_input self) [i])
                (token_of self) i (npartitions self) (column self)
                (parts_out self)).
Proof.
  intros Hname. unfold len, _construct_graph.
  set (token := token_of self).
  set (transfers := (λ i, (TupleKey ("shuffle-transfer-" +:+ token) [i], _))
                      <$> seq 0 (npartitions_input self)).
  set (unpacks := (λ part_out, (TupleKey (name self) [part_out], _))
                    <$> elements (parts_out self)).
  set (barrier := (StrKey (barrier_key token), _)).
  assert (NoDup (transfers ++ [barrier] ++ unpacks).*1) as Hnd.
  { rewrite !fmap_app. apply NoDup_app. split; [|split].
    - unfold transfers. rewrite <- list_fmap_compose.
      apply NoDup_fmap_2_strong; [|apply NoDup_seq].
      intros i1 i2 _ _ [= ->]. done.
    - intros key Hkey Hin. unfold transfers in Hkey.
      rewrite <- list_fmap_compose in Hkey.
      apply list_elem_of_fmap in Hkey as (i & -> & _).
      apply elem_of_app in Hin as [Hin|Hin].
      + apply list_elem_of_singleton in Hin. done.
      + unfold unpacks in Hin. rewrite <- list_fmap_compose in Hin.
        apply list_elem_of_fmap in Hin as (part & [= Heq _] & _). done.
    - cbn. apply NoDup_cons. split; [|apply unpacks_NoDup].
      unfold unpacks. rewrite <- list_fmap_compose.
      intros Hin. apply list_elem_of_fmap in Hin as (part & Heq & _). done. }
  split.
  - rewrite dict_size by done.
    rewrite !length_app. unfold transfers, unpacks.
    rewrite !length_fmap, length_seq. cbn [length].
    unfold size, set_size. cbn. lia.
  - intros i Hi. apply dict_lookup_Some; [done|].
    apply elem_of_app. left. unfold transfers.
    apply list_elem_of_fmap. exists i. split; [done|].
    apply elem_of_seq. lia.
Qed.

End layer_graph.

Section layer_examples.
Import Table P2PShuffleLayer LayerExamples.
Local Open Scope nat_scope.

Lemma cull_to_own_keys_witness :
  (cull layer0 [TupleKey "shuffle-p2p-t" [0]; TupleKey "shuffle-p2p-t" [1];
                TupleKey "shuffle-p2p-t" [2]]).1 = layer0
  ∧ ∀ key, key ∈ get_output_keys layer0 →
      (cull layer0 [TupleKey "shuffle-p2p-t" [0]; TupleKey "shuffle-p2p-t" [1];
                    TupleKey "shuffle-p2p-t" [2]]).2 !! key
      = Some (list_to_set ((λ i, TupleKey (name_input layer0) [i])
                             <$> seq 0 (npartitions_input layer0))).
Proof.
  apply cull_to_own_keys. intros part.
  unfold layer0, init. cbn [parts_out name].
  rewrite !elem_of_cons, elem_of_nil, elem_of_list_to_set, elem_of_seq.
  split.
  - intros [Heq|[Heq|[Heq|Hf]]]; [injection Heq as ->; lia..|done].
  - intros Hpart.
    assert (part = 0 ∨ part = 1 ∨ part = 2) as [-> | [-> | ->]] by lia; auto.
Defined.

Lemma cull_selects_named_outputs_witness :
  TupleKey "foreign" [0]
    ∈ get_output_keys
        (cull layer0 [TupleKey "shuffle-p2p-t" [1]; StrKey "other";
                      TupleKey "foreign" [0]]).1
  ↔ TupleKey "foreign" [0]
      ∈ [TupleKey "shuffle-p2p-t" [1]; StrKey "other"; TupleKey "foreign" [0]]
    ∧ ∃ part, TupleKey "foreign" [0] = TupleKey (name layer0) [part].
Proof.
  apply (cull_selects_named_outputs layer0 _ 1). apply list_elem_of_here.
Defined.

Lemma cull_to_nothing_selects_everything_witness :
  parts_out (cull layer0 [StrKey "other"]).1
  = list_to_set (seq 0 (npartitions layer0))
  ∧ (cull layer0 [StrKey "other"]).2 = ∅.
Proof.
  apply cull_to_nothing_selects_everything.
  - intros part Hin. apply list_elem_of_singleton in Hin. done.
  - by apply (bool_decide_unpack _); vm_compute.
Defined.

Lemma layer_output_key_has_unpack_task_witness :
  ∃ part,
    TupleKey "shuffle-p2p-t" [1] = TupleKey (name layer0) [part]
    ∧ part ∈ parts_out layer0
    ∧ getitem tokenize0 barrier_key0 layer0 (TupleKey "shuffle-p2p-t" [1])
      = Ok (shuffle_unpack "t" part (StrKey (barrier_key0 "t"))
              (meta_input layer0)).
Proof.
  apply (layer_output_key_has_unpack_task tokenize0 barrier_key0 layer0).
  unfold get_output_keys. apply elem_of_map. exists 1. split; [done|].
  unfold layer0, init. cbn [parts_out].
  rewrite elem_of_list_to_set, elem_of_seq. lia.
Defined.

Lemma layer_len_witness :
  len tokenize0 barrier_key0 layer0 = 2 + 1 + size (parts_out layer0)
  ∧ ∀ i, i < 2 →
      _construct_graph tokenize0 barrier_key0 layer0
        !! TupleKey "shuffle-transfer-t" [i]
      = Some (shuffle_transfer (TupleKey "input" [i]) "t" i 3 "_partitions"
                (parts_out layer0)).
Proof.
  apply (layer_len tokenize0 barrier_key0 layer0). done.
Defined.

End layer_examples.

(** ** The bookkeeping of the plugin registry *)

Section plugin_consistent.
Import ShuffleWorkerPlugin PluginLifecycle.
Local Open Scope nat_scope.

Lemma NoDup_fmap_elem_inj {A B : Type} (f : A → B) (l : list A) (x y : A) :
  NoDup (f <$> l) → x ∈ l → y ∈ l → f x = f y → x = y.
Proof.
  intros Hnd Hx Hy Hf.
  apply list_elem_of_lookup in Hx as [i Hi].
  apply list_elem_of_lookup in Hy as [j Hj].
  assert (i = j) as ->; [|congruence].
  eapply (NoDup_lookup (f <$> l)); [done| |].
  - by rewrite list_lookup_fmap, Hi.
  - by rewrite list_lookup_fmap, Hj, Hf.
Qed.

Lemma delete_fmap_not_elem {A B : Type} (f : A → B) (l : list A) (i : nat)
    (x y : A) :
  NoDup (f <$> l) → l !! i = Some y → x ∈ delete i l → f x ≠ f y.
Proof.
  intros Hnd Hi Hx Hf.
  rewrite <- (take_drop_middle l i y Hi), fmap_app, fmap_cons in Hnd.
  apply NoDup_app in Hnd as (_ & Hdisj & Hnd).
  apply NoDup_cons in Hnd as [Hy _].
  rewrite delete_take_drop in Hx. apply elem_of_app in Hx as [Hx|Hx].
  - apply (Hdisj (f x)); [by apply list_elem_of_fmap_2|]. rewrite Hf. left.
  - apply Hy. rewrite <- Hf. by apply list_elem_of_fmap_2.
Qed.

Lemma elem_of_delete_other {A : Type} (l : list A) (i : nat) (x y : A) :
  x ∈ l → l !! i = Some y → x ≠ y → x ∈ delete i l.
Proof.
  intros Hx Hi Hne.
  rewrite <- (take_drop_middle l i y Hi) in Hx. rewrite delete_take_drop.
  rewrite elem_of_app, elem_of_cons in Hx. rewrite elem_of_app.
  destruct Hx as [?|[?|?]]; [by left|done|by right].
Qed.

Lemma consistent_setup (address : WorkerAddress) : consistent (setup address).
Proof.
  split; cbn.
  - intros k r. by rewrite lookup_empty.
  - intros r Hr. by apply elem_of_nil in Hr.
  - constructor.
  - intros task Htask. by apply elem_of_nil in Htask.
  - intros task k r Htask. by apply elem_of_nil in Htask.
  - constructor.
  - intros r Hr. by apply elem_of_nil in Hr.
  - done.
Qed.

(** The bookkeeping does not look at the fields of the runs. *)
Lemma consistent_ext (p p' : Plugin) :
  shuffles p' = shuffles p → _runs p' = _runs p → closed p' = closed p →
  background p' = background p → next_obj p' = next_obj p →
  consistent p → consistent p'.
Proof.
  intros Hs Hr Hc Hb Hn [H1 H2 H3 H4 H5 H6 H7 H8].
  split; rewrite ?Hs, ?Hr, ?Hc, ?Hb, ?Hn; done.
Qed.

Lemma consistent_set_core (p : Plugin) (shuffle : Run)
    (f : ShuffleRun.Core → ShuffleRun.Core) :
  consistent p → consistent (set_core shuffle f p).
Proof. by apply consistent_ext. Qed.

(** A registered run is taken out of the registry and its close task
    scheduled. *)
Lemma consistent_retire (p : Plugin) (k : ShuffleId) (r : Run) :
  consistent p → shuffles p !! k = Some r →
  consistent (call_soon (CloseShuffleRun r) (set_shuffles (delete k) p)).
Proof.
  intros [H1 H2 H3 H4 H5 H6 H7 H8] Hk.
  destruct (H1 k r Hk) as [Hr Hid].
  assert (∀ k' r', k' ≠ k → shuffles p !! k' = Some r' → obj r ≠ obj r')
    as Hother.
  { intros k' r' Hne Hk' Hobj. destruct (H1 k' r' Hk') as [Hr' Hid'].
    pose proof (NoDup_fmap_elem_inj obj _ r r' H3 Hr Hr' Hobj). congruence. }
  split; cbn.
  - intros k' r' Hk'. apply lookup_delete_Some in Hk' as [_ Hk']. by apply H1.
  - done.
  - done.
  - intros task Htask. apply elem_of_app in Htask as [Htask|Htask].
    + by apply H4.
    + apply list_elem_of_singleton in Htask. by subst task.
  - intros task k' r' Htask Hk'. apply lookup_delete_Some in Hk' as [Hne Hk'].
    apply elem_of_app in Htask as [Htask|Htask].
    + by eapply H5.
    + apply list_elem_of_singleton in Htask. subst task. cbn.
      by eapply Hother.
  - rewrite fmap_app. apply NoDup_app. split; [done|]. split.
    + intros o Ho Hin. cbn in Hin. apply list_elem_of_singleton in Hin. subst o.
      apply list_elem_of_fmap in Ho as (task & Ho & Htask).
      apply (H5 task k r Htask Hk). by rewrite Ho.
    + cbn. apply NoDup_singleton.
  - intros r0 Hr0. destruct (H7 r0 Hr0) as [Hreg|Hpend].
    + destruct (decide (id r0 = k)) as [Heq|Hne].
      * rewrite Heq, Hk in Hreg. injection Hreg as ->.
        right. apply elem_of_app. right. left.
      * left. by rewrite lookup_delete_ne.
    + right. apply elem_of_app. by left.
  - intros Hclosed. rewrite (H8 Hclosed). apply delete_empty.
Qed.

(** A run that was just made is registered. *)
Lemma consistent_install (p : Plugin) (k : ShuffleId) (r : Run) :
  consistent p → closed p = false → shuffles p !! k = None →
  obj r = next_obj p → id r = k →
  consistent (install k r p).
Proof.
  intros [H1 H2 H3 H4 H5 H6 H7 H8] Hopen Hk Hobj Hid.
  split; cbn.
  - intros k' r' Hk'. apply lookup_insert_Some in Hk' as [[<- <-]|[Hne Hk']].
    + split; [|done]. apply elem_of_app. right. left.
    + destruct (H1 k' r' Hk'). split; [|done]. apply elem_of_app. by left.
  - intros r0 Hr0. apply elem_of_app in Hr0 as [Hr0|Hr0].
    + specialize (H2 r0 Hr0). lia.
    + apply list_elem_of_singleton in Hr0. subst r0. lia.
  - rewrite fmap_app. apply NoDup_app. split; [done|]. split.
    + intros o Ho Hin. cbn in Hin. apply list_elem_of_singleton in Hin. subst o.
      apply list_elem_of_fmap in Ho as (r0 & Ho & Hr0).
      specialize (H2 r0 Hr0). lia.
    + cbn. apply NoDup_singleton.
  - intros task Htask. apply elem_of_app. left. by apply H4.
  - intros task k' r' Htask Hk'.
    apply lookup_insert_Some in Hk' as [[<- <-]|[Hne Hk']].
    + specialize (H2 _ (H4 task Htask)). lia.
    + by eapply H5.
  - done.
  - intros r0 Hr0. apply elem_of_app in Hr0 as [Hr0|Hr0].
    + destruct (H7 r0 Hr0) as [Hreg|Hpend]; [|by right].
      left. rewrite lookup_insert_ne; [done|].
      intros Heq. rewrite Heq in Hk. congruence.
    + apply list_elem_of_singleton in Hr0. subst r0. left.
      rewrite Hid. by rewrite lookup_insert_eq.
  - by rewrite Hopen.
Qed.

Lemma consistent_shuffle_fail (p : Plugin) (shuffle_id : ShuffleId)
    (run_id' : Z) (message : string) :
  consistent p → consistent (shuffle_fail shuffle_id run_id' message p).
Proof.
  intros Hp. unfold shuffle_fail.
  destruct (shuffles p !! shuffle_id) as [shuffle|] eqn:Hk; [|done].
  case_bool_decide; [done|].
  eapply consistent_ext; [..|exact (consistent_retire p _ _ Hp Hk)]; done.
Qed.

Lemma consistent_refresh_shuffle (p : Plugin) (shuffle_id : ShuffleId)
    (reply : SchedulerReply) :
  consistent p → consistent (_refresh_shuffle shuffle_id reply p).2.
Proof.
  intros Hp. unfold _refresh_shuffle.
  destruct reply as [message|reply_run_id ws sp]; [done|].
  destruct (closed p) eqn:Hopen; [done|].
  destruct (shuffles p !! shuffle_id) as [existing|] eqn:Hk.
  - case_bool_decide; [done|]. cbn [snd].
    apply consistent_install; try done.
    + eapply consistent_ext;
        [..|exact (consistent_retire p _ _ Hp Hk)]; done.
    + cbn. apply lookup_delete_eq.
  - cbn [snd]. by apply consistent_install.
Qed.

Lemma consistent_run_background (p : Plugin) (i : nat) :
  consistent p → consistent (run_background i p).2.
Proof.
  intros Hp. unfold run_background.
  destruct (background p !! i) as [task|] eqn:Hi; [|done].
  destruct Hp as [H1 H2 H3 H4 H5 H6 H7 H8].
  assert (task ∈ background p) as Htask by by eapply list_elem_of_lookup_2.
  unfold _close_shuffle_run. cbn [_runs set_core set_background].
  rewrite bool_decide_eq_true_2
    by (apply list_elem_of_fmap_2; by apply H4).
  cbn [snd]. split; cbn.
  - intros k r Hk. destruct (H1 k r Hk) as [Hr Hid]. split; [|done].
    apply list_elem_of_filter. split; [|done].
    intros Heq. by apply (H5 task k r Htask Hk).
  - intros r Hr. apply list_elem_of_filter in Hr as [_ Hr]. by apply H2.
  - eapply sublist_NoDup; [exact H3|]. apply fmap_sublist, sublist_filter.
  - intros task' Htask'. apply list_elem_of_filter. split.
    + by apply (delete_fmap_not_elem (obj ∘ task_run) (background p) i).
    + apply H4. by eapply list_elem_of_delete_inv.
  - intros task' k r Htask' Hk.
    eapply H5; [|done]. by eapply list_elem_of_delete_inv.
  - eapply sublist_NoDup; [exact H6|]. apply fmap_sublist, sublist_delete.
  - intros r Hr. apply list_elem_of_filter in Hr as [Hne Hr].
    destruct (H7 r Hr) as [Hreg|Hpend]; [by left|right].
    eapply elem_of_delete_other; [done|done|]. by intros <-.
  - done.
Qed.

Section with_popitem.
Variable popitem : gmap ShuffleId Run → option (ShuffleId * Run).
Hypothesis popitem_ok : popitem_contract popitem.

Lemma pop_all_set_closed (b : bool) (fuel : nat) (p : Plugin) :
  pop_all popitem fuel (set_closed b p)
  = set_closed b (pop_all popitem fuel p).
Proof.
  revert p. induction fuel as [|fuel IH]; intros p; [done|]. cbn.
  destruct (popitem (shuffles p)) as [[k r]|]; [|done].
  rewrite <- IH. reflexivity.
Qed.

Lemma pop_all_consistent (fuel : nat) (p : Plugin) :
  consistent p → consistent (pop_all popitem fuel p).
Proof.
  revert p. induction fuel as [|fuel IH]; intros p Hp; [done|]. cbn.
  pose proof (popitem_ok (shuffles p)) as Hpop.
  destruct (popitem (shuffles p)) as [[k r]|]; [|done].
  by apply IH, consistent_retire.
Qed.

Lemma pop_all_empty (fuel : nat) (p : Plugin) :
  size (shuffles p) ≤ fuel → shuffles (pop_all popitem fuel p) = ∅.
Proof.
  revert p. induction fuel as [|fuel IH]; intros p Hsize.
  - cbn. apply map_size_empty_inv. lia.
  - cbn. pose proof (popitem_ok (shuffles p)) as Hpop.
    destruct (popitem (shuffles p)) as [[k r]|]; [|done].
    apply IH. cbn. rewrite map_size_delete, Hpop. lia.
Qed.

Lemma consistent_teardown (p : Plugin) :
  consistent p → consistent (teardown popitem p).2.
Proof.
  intros Hp. unfold teardown. destruct (closed p) eqn:Hopen; [done|].
  cbn [snd]. rewrite pop_all_set_closed. cbn [shuffles set_closed].
  pose proof (pop_all_consistent (size (shuffles p)) p Hp) as Hq.
  pose proof (pop_all_empty (size (shuffles p)) p ltac:(lia)) as Hempty.
  destruct Hq as [H1 H2 H3 H4 H5 H6 H7 H8]. split; cbn; done.
Qed.

Lemma consistent_step (p p' : Plugin) :
  step popitem p p' → consistent p → consistent p'.
Proof.
  intros Hstep Hp. destruct Hstep.
  - by apply consistent_shuffle_fail.
  - by apply consistent_refresh_shuffle.
  - by apply consistent_run_background.
  - by apply consistent_teardown.
  - by apply consistent_set_core.
Qed.

Lemma consistent_rtc (p p' : Plugin) :
  rtc (step popitem) p p' → consistent p → consistent p'.
Proof. induction 1; eauto using consistent_step. Qed.

End with_popitem.

End plugin_consistent.

(** ** What the registry guarantees *)

Section registry_lifecycle.
Import ShuffleWorkerPlugin PluginLifecycle.
Variable popitem : gmap ShuffleId Run → option (ShuffleId * Run).
Local Open Scope nat_scope.

Lemma step_closed (p p' : Plugin) :
  step popitem p p' → closed p = true → closed p' = true.
Proof.
  intros Hstep Hclosed. destruct Hstep.
  - unfold shuffle_fail. destruct (shuffles p !! shuffle_id); [|done].
    by case_bool_decide.
  - unfold _refresh_shuffle. destruct reply; [done|]. by rewrite Hclosed.
  - unfold run_background. destruct (background p !! i); [|done].
    unfold _close_shuffle_run. by case_bool_decide.
  - unfold teardown. by rewrite Hclosed.
  - done.
Qed.

Lemma rtc_step_closed (p p' : Plugin) :
  rtc (step popitem) p p' → closed p = true → closed p' = true.
Proof. induction 1; eauto using step_closed. Qed.

Lemma reachable_consistent (address : WorkerAddress) (p : Plugin) :
  popitem_contract popitem → reachable popitem address p → consistent p.
Proof.
  intros Hpop Hreach.
  eapply consistent_rtc; [exact Hpop|exact Hreach|apply consistent_setup].
Qed.

Lemma run_background_pending (p : Plugin) (i : nat) (task : Background) :
  consistent p → background p !! i = Some task →
  run_background i p
  = (Ok tt,
     set_runs (filter (λ r, obj r ≠ obj (task_run task)))
       (set_core (task_run task) close (set_background (delete i) p))).
Proof.
  intros Hp Hi. unfold run_background. rewrite Hi. unfold _close_shuffle_run.
  cbn [_runs set_core set_background].
  rewrite bool_decide_eq_true_2; [done|].
  apply list_elem_of_fmap_2. apply (pending_in_runs p Hp).
  by eapply list_elem_of_lookup_2.
Qed.

(** The pending close tasks can always be run to the end. *)
Lemma drain (p : Plugin) :
  consistent p →
  ∃ p', rtc (step popitem) p p' ∧ background p' = [].
Proof.
  intros Hp.
  remember (length (background p)) as n eqn:Hn.
  revert p Hp Hn. induction n as [|n IH]; intros p Hp Hn.
  - exists p. split; [done|]. by apply nil_length_inv.
  - destruct (background p) as [|task tasks] eqn:Hbg; [done|].
    assert (background p !! 0 = Some task) as H0 by by rewrite Hbg.
    pose proof (run_background_pending p 0 task Hp H0) as Hrun.
    destruct (IH (run_background 0 p).2) as (p' & Hsteps & Hempty).
    + by apply consistent_run_background.
    + rewrite Hrun. cbn. rewrite Hbg. cbn in Hn. cbn. lia.
    + exists p'. split; [|done].
      eapply rtc_l; [apply step_background|exact Hsteps].
Qed.

(** X20: on every worker, whatever handlers and tasks have run, the
    bookkeeping of the plugin is consistent: the registered runs are in
    [_runs], every run in [_runs] is registered or has exactly one close
    task pending, the runs are distinct objects, and a closed plugin has
    no registered run. *)
Theorem registry_consistent (address : WorkerAddress) (p : Plugin) :
  popitem_contract popitem → reachable popitem address p → consistent p.
Proof. apply reachable_consistent. Qed.

(** X21: a close task never fails: when it runs, its run is still in
    [_runs], so that [_runs.remove] raises no [KeyError]; afterwards the
    run is gone from [_runs] and one task less is pending. *)
Theorem close_task_never_raises (address : WorkerAddress) (p : Plugin)
    (i : nat) (task : Background) :
  popitem_contract popitem → reachable popitem address p →
  background p !! i = Some task →
  (run_background i p).1 = Ok tt
  ∧ (obj (task_run task) ∉ obj <$> _runs (run_background i p).2)
  ∧ length (background (run_background i p).2)
    = pred (length (background p)).
Proof.
  intros Hpop Hreach Hi.
  pose proof (reachable_consistent address p Hpop Hreach) as Hp.
  rewrite (run_background_pending p i task Hp Hi). cbn.
  split; [done|]. split.
  - intros Hin. apply list_elem_of_fmap in Hin as (r & Hobj & Hr).
    apply list_elem_of_filter in Hr as [Hne _]. done.
  - rewrite length_delete by by eexists. lia.
Qed.

(** X22: [teardown] on an open plugin closes it and empties the
    registry.  From then on, whatever else happens on the worker, the
    plugin stays closed and without registered runs; the pending close
    tasks can be run to the end, and whenever none is pending the set
    [_runs] is empty, which is what [teardown] waits for. *)
Theorem teardown_drains (address : WorkerAddress) (p p' : Plugin) :
  popitem_contract popitem → reachable popitem address p →
  closed p = false →
  rtc (step popitem) (teardown popitem p).2 p' →
  (teardown popitem p).1 = Ok tt
  ∧ closed p' = true
  ∧ shuffles p' = ∅
  ∧ (background p' = [] → _runs p' = [])
  ∧ ∃ p'', rtc (step popitem) p' p'' ∧ background p'' = [] ∧ _runs p'' = [].
Proof.
  intros Hpop Hreach Hopen Hsteps.
  assert (reachable popitem address p') as Hreach'.
  { unfold reachable. etrans; [exact Hreach|].
    eapply rtc_l; [apply step_teardown|exact Hsteps]. }
  pose proof (reachable_consistent address p' Hpop Hreach') as Hp'.
  assert (closed p' = true) as Hclosed.
  { eapply rtc_step_closed; [exact Hsteps|].
    unfold teardown. rewrite Hopen. cbn [snd].
    by rewrite pop_all_set_closed. }
  assert (∀ q, consistent q → closed q = true → background q = [] →
               _runs q = []) as Hdrained.
  { intros q Hq Hqc Hbg. destruct (_runs q) as [|r rs] eqn:Hruns; [done|].
    destruct (runs_accounted q Hq r) as [Hreg|Hpend].
    - rewrite Hruns. left.
    - by rewrite (closed_empty q Hq Hqc) in Hreg.
    - rewrite Hbg in Hpend. by apply elem_of_nil in Hpend. }
  split; [unfold teardown; by rewrite Hopen|].
  split; [done|]. split; [by apply (closed_empty p' Hp')|].
  split; [by apply Hdrained|].
  destruct (drain p' Hp') as (p'' & Hsteps' & Hempty).
  exists p''. split; [done|]. split; [done|].
  apply Hdrained; [|by eapply rtc_step_closed|done].
  eapply consistent_rtc; [exact Hpop|exact Hsteps'|exact Hp'].
Qed.

(** X23: a closed plugin hands out no run: [_get_or_create_shuffle] and
    [_get_shuffle_run] raise for every shuffle, whatever the scheduler
    replies: its error if it replied with one, and [ShuffleClosedError]
    otherwise. *)
Theorem closed_plugin_refuses (address : WorkerAddress) (p : Plugin)
    (shuffle_id : ShuffleId) (run_id' : Z) (reply : SchedulerReply)
    (during_await : Plugin → Plugin) :
  popitem_contract popitem → reachable popitem address p →
  closed p = true → rtc (step popitem) p (during_await p) →
  let e := match reply with
           | ReplyError message => RuntimeError message
           | ReplyOK _ _ _ =>
               ShuffleClosedError "plugin has already been closed"
           end in
  _get_or_create_shuffle shuffle_id reply during_await p
  = (Raise e, during_await p)
  ∧ _get_shuffle_run shuffle_id run_id' reply during_await p
    = (Raise e, during_await p).
Proof.
  intros Hpop Hreach Hclosed Hawait e.
  pose proof (reachable_consistent address p Hpop Hreach) as Hp.
  pose proof (rtc_step_closed _ _ Hawait Hclosed) as Hclosed'.
  unfold _get_or_create_shuffle, _get_shuffle_run.
  rewrite (closed_empty p Hp Hclosed), lookup_empty.
  unfold _refresh_shuffle. destruct reply; [done|]. by rewrite Hclosed'.
Qed.

End registry_lifecycle.

Section registry_operations.
Import ShuffleWorkerPlugin PluginLifecycle.
Local Open Scope Z_scope.

(** X24: a refresh never goes back: when a run is registered and the
    refresh returns a run, this one is registered afterwards and its
    [run_id] is not smaller.  If it is larger the old run has been
    superseded: it carries a [RuntimeError], its close task is pending,
    and the new run is a fresh object; if it is the same the old run is
    returned and nothing has changed. *)
Theorem refresh_shuffle_supersedes (p : Plugin) (shuffle_id : ShuffleId)
    (reply : SchedulerReply) (existing shuffle : Run) :
  consistent p → shuffles p !! shuffle_id = Some existing →
  (_refresh_shuffle shuffle_id reply p).1 = Ok shuffle →
  let p' := (_refresh_shuffle shuffle_id reply p).2 in
  shuffles p' !! shuffle_id = Some shuffle
  ∧ run_id existing ≤ run_id shuffle
  ∧ (run_id existing < run_id shuffle →
       (∃ message, ShuffleRun._exception (core_of p' existing)
                   = Some (RuntimeError message))
       ∧ CloseShuffleRun existing ∈ background p'
       ∧ existing ∈ _runs p'
       ∧ core_of p' shuffle = ShuffleRun.fresh)
  ∧ (run_id existing = run_id shuffle → shuffle = existing ∧ p' = p).
Proof.
  intros Hp Hk. unfold _refresh_shuffle.
  destruct reply as [message|reply_run_id ws sp]; [done|].
  destruct (closed p); [done|]. rewrite Hk.
  case_bool_decide as Hle; cbn [fst snd].
  - intros [= <-]. split; [done|]. split; [lia|]. split; [lia|done].
  - intros [= <-]. cbn.
    destruct (registered_in_runs p Hp _ _ Hk) as [Hr _].
    pose proof (runs_made p Hp _ Hr) as Hobj.
    split; [by rewrite lookup_insert_eq|]. split; [lia|]. split; [|lia].
    intros _. unfold core_of. cbn. split; [|split; [|split]].
    + rewrite lookup_insert_ne by lia. rewrite lookup_insert_eq. cbn.
      by eexists.
    + apply elem_of_app. right. left.
    + apply elem_of_app. by left.
    + by rewrite lookup_insert_eq.
Qed.

(** X25: getting or creating a shuffle twice gives the same run: once
    a call has returned a run, every later call for this shuffle on the
    plugin as the first call left it returns this run again, without
    asking the scheduler and without changing the plugin. *)
Theorem get_or_create_shuffle_again (p p' : Plugin) (shuffle_id : ShuffleId)
    (reply reply' : SchedulerReply) (during_await during_await' : Plugin → Plugin)
    (shuffle : Run) :
  _get_or_create_shuffle shuffle_id reply during_await p = (Ok shuffle, p') →
  _get_or_create_shuffle shuffle_id reply' during_await' p'
  = (Ok shuffle, p').
Proof.
  intros Hfirst.
  assert (shuffles p' !! shuffle_id = Some shuffle
          ∧ closed p' = false
          ∧ ShuffleRun._exception (core_of p' shuffle) = None)
    as (Hk & Hopen & Hexc).
  { unfold _get_or_create_shuffle in Hfirst.
    destruct (shuffles p !! shuffle_id) as [shuffle0|] eqn:Hk0.
    - destruct (closed p) eqn:Hopen; [done|].
      destruct (ShuffleRun._exception (core_of p shuffle0)) eqn:Hexc; [done|].
      by injection Hfirst as <- <-.
    - destruct (_refresh_shuffle shuffle_id reply (during_await p))
        as [[shuffle1|e] q] eqn:Hrefresh; [|done].
      destruct (closed q) eqn:Hopen; [done|].
      destruct (ShuffleRun._exception (core_of q shuffle1)) eqn:Hexc; [done|].
      injection Hfirst as <- <-. split; [|done].
      unfold _refresh_shuffle in Hrefresh.
      destruct reply as [message|reply_run_id ws sp]; [done|].
      destruct (closed (during_await p)); [done|].
      destruct (shuffles (during_await p) !! shuffle_id) as [existing|] eqn:Hk1.
      + case_bool_decide.
        * by injection Hrefresh as <- <-.
        * injection Hrefresh as <- <-. cbn. by rewrite lookup_insert_eq.
      + injection Hrefresh as <- <-. cbn. by rewrite lookup_insert_eq. }
  unfold _get_or_create_shuffle. by rewrite Hk, Hopen, Hexc.
Qed.

(** X26: a barrier that returns was run on one run: the list of run ids
    is not empty, all its members are the [run_id] returned, and the run
    on which [barrier] was called is the registered one with this
    [run_id]. *)
Theorem barrier_runs_on_one_run (p p' : Plugin) (shuffle_id : ShuffleId)
    (run_ids : list Z) (reply : SchedulerReply)
    (during_await : Plugin → Plugin)
    (run_barrier : Run → Plugin → result unit * Plugin) (r : Z) :
  _barrier shuffle_id run_ids reply during_await run_barrier p = (Ok r, p') →
  run_ids ≠ [] ∧ Forall (λ id, id = r) run_ids
  ∧ ∃ shuffle q,
      _get_shuffle_run shuffle_id r reply during_await p = (Ok shuffle, q)
      ∧ run_id shuffle = r
      ∧ run_barrier shuffle q = (Ok tt, p').
Proof.
  unfold _barrier. destruct run_ids as [|run_id0 rest]; [done|].
  destruct (forallb _ _) eqn:Hall; [|done].
  destruct (_get_shuffle_run shuffle_id run_id0 reply during_await p)
    as [[shuffle|e] q] eqn:Hget; [|done].
  destruct (run_barrier shuffle q) as [[[]|e] q'] eqn:Hbarrier; [|done].
  intros [= <- <-]. split; [done|]. split.
  - apply Forall_forall. intros id Hid.
    rewrite forallb_forall in Hall. apply list_elem_of_In, Hall in Hid.
    by apply bool_decide_eq_true in Hid.
  - exists shuffle, q. split; [done|]. split; [|done].
    unfold _get_shuffle_run in Hget.
    destruct (match shuffles p !! shuffle_id with
              | Some shuffle0 => _
              | None => _
              end) as [[shuffle1|e] q1]; [|done].
    case_bool_decide as Hgt; [done|]. case_bool_decide as Hlt; [done|].
    destruct (ShuffleRun._exception (core_of q1 shuffle1)); [done|].
    injection Hget as <- <-. lia.
Qed.

(** X27: a barrier whose run ids differ fails its assertion before
    anything else happens: the plugin is as it was, the scheduler is
    not asked and no run is touched. *)
Theorem barrier_mixed_run_ids (p : Plugin) (shuffle_id : ShuffleId)
    (run_ids : list Z) (reply : SchedulerReply)
    (during_await : Plugin → Plugin)
    (run_barrier : Run → Plugin → result unit * Plugin) (a b : Z) :
  a ∈ run_ids → b ∈ run_ids → a ≠ b →
  ∃ message,
    _barrier shuffle_id run_ids reply during_await run_barrier p
    = (Raise (AssertionError message), p).
Proof.
  intros Ha Hb Hne. unfold _barrier.
  destruct run_ids as [|run_id0 rest]; [by apply elem_of_nil in Ha|].
  destruct (forallb _ _) eqn:Hall; [|by eexists].
  rewrite forallb_forall in Hall.
  apply list_elem_of_In, Hall, bool_decide_eq_true in Ha.
  apply list_elem_of_In, Hall, bool_decide_eq_true in Hb. congruence.
Qed.

End registry_operations.

Section closed_plugin_tasks.
Import ShuffleWorkerPlugin PluginLifecycle.
Variable popitem : gmap ShuffleId Run → option (ShuffleId * Run).
Context {A : Type}.

(** X28: what the tasks of the graph do on a worker whose plugin is
    closed, when the scheduler still knows the shuffle: the tabular
    transfer and unpack tasks raise [Reschedule]; the array transfer and
    unpack tasks and the barrier task raise [RuntimeError]. *)
Theorem tasks_on_closed_plugin (address : WorkerAddress) (p : Plugin)
    (shuffle_id : ShuffleId) (run_id' : Z) (run_ids : list Z)
    (reply_run_id : Z) (ws : gset WorkerAddress) (sp : RunSpec)
    (during_await : Plugin → Plugin)
    (run_method : Run → Plugin → result A * Plugin)
    (run_barrier : Run → Plugin → result unit * Plugin) :
  popitem_contract popitem → reachable popitem address p →
  closed p = true → rtc (step popitem) p (during_await p) →
  let reply := ReplyOK reply_run_id ws sp in
  Tasks.shuffle_transfer shuffle_id
    (add_partition shuffle_id reply during_await run_method p).1
  = Raise Reschedule
  ∧ Tasks.shuffle_unpack shuffle_id
      (get_output_partition shuffle_id run_id' reply during_await
         run_method p).1
    = Raise Reschedule
  ∧ Tasks.rechunk_transfer shuffle_id
      (add_partition shuffle_id reply during_await run_method p).1
    = Raise (RuntimeError
               ("rechunk_transfer failed during shuffle " +:+ shuffle_id))
  ∧ Tasks.rechunk_unpack shuffle_id
      (get_output_partition shuffle_id run_id' reply during_await
         run_method p).1
    = Raise (RuntimeError
               ("rechunk_unpack failed during shuffle " +:+ shuffle_id))
  ∧ Tasks.shuffle_barrier shuffle_id
      (barrier shuffle_id run_ids reply during_await run_barrier p).1
    = Raise (RuntimeError
               ("shuffle_barrier failed during shuffle " +:+ shuffle_id)).
Proof.
  intros Hpop Hreach Hclosed Hawait reply.
  pose proof (reachable_consistent popitem address p Hpop Hreach) as Hp.
  pose proof (rtc_step_closed popitem _ _ Hawait Hclosed) as Hclosed'.
  assert (∀ rid, _get_shuffle_run shuffle_id rid reply during_await p
          = (Raise (ShuffleClosedError "plugin has already been closed"),
             during_await p)) as Hget.
  { intros rid. unfold _get_shuffle_run.
    rewrite (closed_empty p Hp Hclosed), lookup_empty.
    unfold _refresh_shuffle, reply. by rewrite Hclosed'. }
  assert (_get_or_create_shuffle shuffle_id reply during_await p
          = (Raise (ShuffleClosedError "plugin has already been closed"),
             during_await p)) as Hcreate.
  { unfold _get_or_create_shuffle.
    rewrite (closed_empty p Hp Hclosed), lookup_empty.
    unfold _refresh_shuffle, reply. by rewrite Hclosed'. }
  unfold add_partition, get_output_partition, barrier, _barrier.
  rewrite Hcreate, Hget. cbn. repeat (split; [done|]).
  destruct run_ids as [|run_id0 rest]; [done|].
  destruct (forallb _ _); [|done]. by rewrite Hget.
Qed.

End closed_plugin_tasks.

Section registry_examples.
Import ShuffleWorkerPlugin PluginLifecycle LifecycleExamples.
Local Open Scope Z_scope.

Lemma popitem_first_contract : popitem_contract popitem_first.
Proof.
  intros m. unfold popitem_first.
  destruct (map_to_list m) as [|[k v] l] eqn:Hl; cbn.
  - by apply map_to_list_empty_iff.
  - apply elem_of_map_to_list. rewrite Hl. left.
Qed.

Lemma plugin2_reachable : reachable popitem_first "tcp://w0" Examples.plugin2.
Proof.
  eapply rtc_l; [|apply rtc_refl].
  apply (step_refresh_shuffle popitem_first "s" (Examples.reply_run 2)).
Qed.

Lemma plugin_failed_reachable :
  reachable popitem_first "tcp://w0" plugin_failed.
Proof.
  eapply rtc_r; [apply plugin2_reachable|].
  apply (step_shuffle_fail popitem_first "s" 2 "peer lost").
Qed.

Lemma plugin_torn_down_reachable :
  reachable popitem_first "tcp://w0"
    (teardown popitem_first Examples.plugin2).2.
Proof.
  eapply rtc_r; [apply plugin2_reachable|]. apply step_teardown.
Qed.

Lemma registry_consistent_witness : consistent Examples.plugin2.
Proof.
  apply (registry_consistent popitem_first "tcp://w0").
  - apply popitem_first_contract.
  - apply plugin2_reachable.
Defined.

Lemma close_task_never_raises_witness :
  (run_background 0 plugin_failed).1 = Ok tt
  ∧ (obj (task_run (CloseShuffleRun Examples.run2))
     ∉ obj <$> _runs (run_background 0 plugin_failed).2)
  ∧ length (background (run_background 0 plugin_failed).2)
    = pred (length (background plugin_failed)).
Proof.
  apply (close_task_never_raises popitem_first "tcp://w0").
  - apply popitem_first_contract.
  - apply plugin_failed_reachable.
  - reflexivity.
Defined.

Lemma teardown_drains_witness :
  (teardown popitem_first Examples.plugin2).1 = Ok tt
  ∧ closed (teardown popitem_first Examples.plugin2).2 = true
  ∧ shuffles (teardown popitem_first Examples.plugin2).2 = ∅
  ∧ (background (teardown popitem_first Examples.plugin2).2 = [] →
     _runs (teardown popitem_first Examples.plugin2).2 = [])
  ∧ ∃ p'',
      rtc (step popitem_first) (teardown popitem_first Examples.plugin2).2 p''
      ∧ background p'' = [] ∧ _runs p'' = [].
Proof.
  apply (teardown_drains popitem_first "tcp://w0" Examples.plugin2).
  - apply popitem_first_contract.
  - apply plugin2_reachable.
  - reflexivity.
  - apply rtc_refl.
Defined.

Lemma closed_plugin_refuses_witness :
  _get_or_create_shuffle "s" (Examples.reply_run 3) (λ q, q)
    (teardown popitem_first Examples.plugin2).2
  = (Raise (ShuffleClosedError "plugin has already been closed"),
     (teardown popitem_first Examples.plugin2).2)
  ∧ _get_shuffle_run "s" 3 (Examples.reply_run 3) (λ q, q)
      (teardown popitem_first Examples.plugin2).2
    = (Raise (ShuffleClosedError "plugin has already been closed"),
       (teardown popitem_first Examples.plugin2).2).
Proof.
  apply (closed_plugin_refuses popitem_first "tcp://w0"
           (teardown popitem_first Examples.plugin2).2 "s" 3
           (Examples.reply_run 3) (λ q, q)).
  - apply popitem_first_contract.
  - apply plugin_torn_down_reachable.
  - vm_compute. reflexivity.
  - apply rtc_refl.
Defined.

Lemma refresh_shuffle_supersedes_witness :
  ∃ shuffle,
    (_refresh_shuffle "s" (Examples.reply_run 3) Examples.plugin2).1
    = Ok shuffle
    ∧ let p' := (_refresh_shuffle "s" (Examples.reply_run 3)
                   Examples.plugin2).2 in
      shuffles p' !! "s" = Some shuffle
      ∧ run_id Examples.run2 ≤ run_id shuffle
      ∧ (run_id Examples.run2 < run_id shuffle →
           (∃ message, ShuffleRun._exception (core_of p' Examples.run2)
                       = Some (RuntimeError message))
           ∧ CloseShuffleRun Examples.run2 ∈ background p'
           ∧ Examples.run2 ∈ _runs p'
           ∧ core_of p' shuffle = ShuffleRun.fresh)
      ∧ (run_id Examples.run2 = run_id shuffle →
           shuffle = Examples.run2 ∧ p' = Examples.plugin2).
Proof.
  eexists. split; [vm_compute; reflexivity|].
  apply (refresh_shuffle_supersedes Examples.plugin2 "s"
           (Examples.reply_run 3) Examples.run2).
  - apply (reachable_consistent popitem_first "tcp://w0").
    + apply popitem_first_contract.
    + apply plugin2_reachable.
  - vm_compute. reflexivity.
  - vm_compute. reflexivity.
Defined.

Lemma get_or_create_shuffle_again_witness :
  _get_or_create_shuffle "s" (ReplyError "scheduler is gone") (λ q, q)
    Examples.plugin2
  = (Ok Examples.run2, Examples.plugin2).
Proof.
  apply (get_or_create_shuffle_again Examples.plugin0 Examples.plugin2 "s"
           (Examples.reply_run 2) (ReplyError "scheduler is gone")
           (λ q, q) (λ q, q)).
  vm_compute. reflexivity.
Defined.

Lemma barrier_runs_on_one_run_witness :
  [2; 2] ≠ [] ∧ Forall (λ id, id = 2) [2; 2]
  ∧ ∃ shuffle q,
      _get_shuffle_run "s" 2 (Examples.reply_run 2) (λ q, q) Examples.plugin2
      = (Ok shuffle, q)
      ∧ run_id shuffle = 2
      ∧ (λ (_ : Run) (q : Plugin), (Ok tt, q)) shuffle q
        = (Ok tt, Examples.plugin2).
Proof.
  apply (barrier_runs_on_one_run Examples.plugin2 Examples.plugin2 "s" [2; 2]
           (Examples.reply_run 2) (λ q, q) (λ _ q, (Ok tt, q)) 2).
  vm_compute. reflexivity.
Defined.

Lemma barrier_mixed_run_ids_witness :
  ∃ message,
    _barrier "s" [1; 2] (Examples.reply_run 2) (λ q, q)
      (λ _ q, (Ok tt, q)) Examples.plugin2
    = (Raise (AssertionError message), Examples.plugin2).
Proof.
  apply (barrier_mixed_run_ids Examples.plugin2 "s" [1; 2]
           (Examples.reply_run 2) (λ q, q) (λ _ q, (Ok tt, q)) 1 2).
  - by apply (bool_decide_unpack _); vm_compute.
  - by apply (bool_decide_unpack _); vm_compute.
  - done.
Defined.

Lemma tasks_on_closed_plugin_witness :
  Tasks.shuffle_transfer "s"
    (add_partition "s" (Examples.reply_run 3) (λ q, q)
       (λ (_ : Run) (q : Plugin), (Ok 3, q))
       (teardown popitem_first Examples.plugin2).2).1
  = Raise Reschedule
  ∧ Tasks.shuffle_unpack "s"
      (get_output_partition "s" 3 (Examples.reply_run 3) (λ q, q)
         (λ (_ : Run) (q : Plugin), (Ok 3, q))
         (teardown popitem_first Examples.plugin2).2).1
    = Raise Reschedule
  ∧ Tasks.rechunk_transfer "s"
      (add_partition "s" (Examples.reply_run 3) (λ q, q)
         (λ (_ : Run) (q : Plugin), (Ok 3, q))
         (teardown popitem_first Examples.plugin2).2).1
    = Raise (RuntimeError ("rechunk_transfer failed during shuffle " +:+ "s"))
  ∧ Tasks.rechunk_unpack "s"
      (get_output_partition "s" 3 (Examples.reply_run 3) (λ q, q)
         (λ (_ : Run) (q : Plugin), (Ok 3, q))
         (teardown popitem_first Examples.plugin2).2).1
    = Raise (RuntimeError ("rechunk_unpack failed during shuffle " +:+ "s"))
  ∧ Tasks.shuffle_barrier "s"
      (barrier "s" [3] (Examples.reply_run 3) (λ q, q)
         (λ _ q, (Ok tt, q)) (teardown popitem_first Examples.plugin2).2).1
    = Raise (RuntimeError ("shuffle_barrier failed during shuffle " +:+ "s")).
Proof.
  apply (tasks_on_closed_plugin popitem_first "tcp://w0"
           (teardown popitem_first Examples.plugin2).2 "s" 3 [3] 3
           {["tcp://w0"]}
           (DataFrameSpec "_partitions" {[0 := "tcp://w0"]})
           (λ q, q) (λ _ q, (Ok 3, q)) (λ _ q, (Ok tt, q))).
  - apply popitem_first_contract.
  - apply plugin_torn_down_reachable.
  - vm_compute. reflexivity.
  - apply rtc_refl.
Defined.

End registry_examples.

(** ** What a delivery does to a run *)

Section receive_effect.
Import ShuffleRun Table DataFrameShuffleRun Delivery.
Variable column : string.
Variable sizeof : Z * bytes → Z.
Variable list_of_buffers_to_table : list bytes → result DataFrame.
Variable serialize_table : DataFrame → bytes.
Local Open Scope Z_scope.

Local Abbreviation _receive :=
  (DataFrameShuffleRun._receive column sizeof list_of_buffers_to_table
     serialize_table).

Lemma df_receive_loop_fresh (data : list (Z * bytes)) (filtered : list bytes)
    (s : State) :
  foldl (λ (acc : list bytes * State) d,
           let '(filtered, s) := acc in
           if bool_decide (d.1 ∉ received s) then
             (filtered ++ [d.2],
              mkState (core s) (run_id s) (local_address s)
                ({[d.1]} ∪ received s) (total_recvd s + sizeof d)
                (transferred s) (comm s) (disk s))
           else (filtered, s)) (filtered, s) data
  = (filtered ++ (fresh_entries (received s) data).*2,
     mkState (core s) (run_id s) (local_address s)
       (list_to_set (fresh_entries (received s) data).*1 ∪ received s)
       (total_recvd s + total_size sizeof (fresh_entries (received s) data))
       (transferred s) (comm s) (disk s)).
Proof.
  revert filtered s. induction data as [|d data IH]; intros filtered s.
  - cbn. rewrite app_nil_r, (left_id_L ∅ (∪)), Z.add_0_r. by destruct s.
  - cbn [foldl fresh_entries]. destruct (decide (d.1 ∈ received s)) as [Hin|Hin].
    + rewrite bool_decide_eq_false_2 by (intros Hn; by apply Hn). apply IH.
    + rewrite bool_decide_eq_true_2 by done. rewrite IH.
      cbn [core run_id local_address received total_recvd transferred comm
           disk].
      rewrite <- app_assoc, !fmap_cons. cbn [list_to_set total_size foldr app].
      f_equal. f_equal.
      * by rewrite (comm_L (∪) {[d.1]} (list_to_set _)), <- (assoc_L (∪)).
      * unfold total_size. lia.
Qed.

(** X29: what a delivery does to an open tabular run.  The first entry
    of every producer that was not received before is taken, the others
    are dropped; the producers taken are added to [received] and
    [total_recvd] grows by the sizes of the entries taken, duplicates
    not counted.  With nothing taken, nothing else happens.  Otherwise
    the payloads taken are regrouped in one call and written to the
    disk buffer; if the regrouping raises, the exception is recorded on
    the run and raised, nothing is written, and the producers stay
    marked as received. *)
Theorem df_receive_effect (data : list (Z * bytes)) (s : State) :
  raise_if_closed (core s) = Ok tt →
  let fresh := fresh_entries (received s) data in
  let s' := (_receive data s).2 in
  received s' = list_to_set fresh.*1 ∪ received s
  ∧ total_recvd s' = total_recvd s + total_size sizeof fresh
  ∧ comm s' = comm s ∧ transferred s' = transferred s
  ∧ match fresh with
    | [] => (_receive data s).1 = Ok tt ∧ disk s' = disk s ∧ core s' = core s
    | _ :: _ =>
        match _repartition_buffers column list_of_buffers_to_table
                serialize_table fresh.*2 with
        | Ok groups =>
            (_receive data s).1 = Ok tt
            ∧ disk s' = disk s ++ [groups] ∧ core s' = core s
        | Raise e =>
            (_receive data s).1 = Raise e
            ∧ disk s' = disk s
            ∧ _exception (core s') = Some e
            ∧ closed (core s') = closed (core s)
        end
    end.
Proof.
  intros Hopen fresh s'. subst s'.
  unfold DataFrameShuffleRun._receive, mbind, op_bind, check_closed.
  rewrite Hopen. unfold DataFrameShuffleRun.receive_loop.
  rewrite df_receive_loop_fresh. fold fresh. cbn [fst snd app].
  destruct fresh as [|d0 fresh0] eqn:Hfresh.
  - cbn. done.
  - rewrite fmap_cons. cbn [fst snd].
    unfold try_except, offload, _write_to_disk, mbind, op_bind, check_closed,
      lift, modify, set_exception, raise. cbn [core fst snd].
    rewrite Hopen.
    destruct (_repartition_buffers _ _ _ _) as [groups|e]; cbn.
    + rewrite Hopen. cbn. done.
    + done.
Qed.

End receive_effect.

Section repartition_shards.
Import Rechunk ArrayRechunkRun Delivery.
Context `{Pickle (list (NDIndex * Shard)), Pickle (list Shard)}.

Lemma regroup_items_lookup (items : list (NDIndex * Shard))
    (rep : gmap NDIndex (list Shard)) (id : NDIndex) :
  foldl (λ (rep : gmap NDIndex (list Shard)) (item : NDIndex * Shard),
           <[item.1 := default [] (rep !! item.1) ++ [item.2]]> rep)
    rep items !! id
  = match shards_for id items with
    | [] => rep !! id
    | shards => Some (default [] (rep !! id) ++ shards)
    end.
Proof.
  revert rep. induction items as [|[id' shard] items IH]; intros rep; [done|].
  cbn [foldl]. rewrite IH. unfold shards_for. rewrite filter_cons. cbn [fst snd].
  destruct (decide (id' = id)) as [->|Hne].
  - rewrite lookup_insert_eq, fmap_cons. cbn [snd].
    destruct (snd <$> filter _ items) as [|sh shs]; [done|].
    cbn. by rewrite <- app_assoc.
  - by rewrite lookup_insert_ne.
Qed.

Lemma regroup_blocks (blocks : list (list (NDIndex * Shard)))
    (rep : gmap NDIndex (list Shard)) :
  foldM (λ (repartitioned : gmap NDIndex (list Shard)) (buffer : bytes),
           match load (A:=list (NDIndex * Shard)) buffer with
           | None => Raise UnpicklingError
           | Some (items, _) =>
               Ok (foldl (λ (rep : gmap NDIndex (list Shard))
                            (item : NDIndex * Shard),
                            <[item.1 := default [] (rep !! item.1) ++ [item.2]]> rep)
                     repartitioned items)
           end)
    rep (dumps <$> blocks)
  = Ok (foldl (λ (rep : gmap NDIndex (list Shard)) (item : NDIndex * Shard),
                 <[item.1 := default [] (rep !! item.1) ++ [item.2]]> rep)
          rep (concat blocks)).
Proof.
  revert rep. induction blocks as [|block blocks IH]; intros rep; [done|].
  rewrite fmap_cons. cbn [foldM concat].
  pose proof (load_dumps block []) as Hload. rewrite app_nil_r in Hload.
  rewrite Hload. cbn [mbind result_bind]. rewrite IH. by rewrite foldl_app.
Qed.

(** X30: [_repartition_shards] regroups by output chunk and keeps the
    order of arrival: from payloads that are the pickles of lists of
    [(chunk index, shard)] items it makes, for every chunk index that
    occurs, the pickle of the list of the shards of this index, in the
    order of the payloads and of the items in them; an index that does
    not occur gets no entry. *)
Theorem repartition_shards_groups (blocks : list (list (NDIndex * Shard))) :
  ∃ out,
    _repartition_shards (dumps <$> blocks) = Ok out
    ∧ ∀ id, out !! id
            = match shards_for id (concat blocks) with
              | [] => None
              | shards => Some (dumps shards)
              end.
Proof.
  unfold _repartition_shards. rewrite regroup_blocks. cbn [mbind result_bind].
  eexists. split; [done|]. intros id.
  rewrite lookup_fmap, regroup_items_lookup, lookup_empty.
  by destruct (shards_for id (concat blocks)).
Qed.

End repartition_shards.

Section receive_effect_examples.
Import ShuffleRun Table DataFrameShuffleRun Delivery.
Local Open Scope Z_scope.

Lemma df_receive_effect_witness :
  let sizeof := λ d : Z * bytes, Z.of_nat (length d.2) in
  let decode := λ _ : list bytes, Raise (A:=DataFrame) UnpicklingError in
  let encode := λ _ : DataFrame, [] : bytes in
  let data : list (Z * bytes) := [(0, []); (0, []); (1, [])] in
  let s := RunExamples.accepting in
  let fresh := fresh_entries (received s) data in
  let s' := (_receive "k" sizeof decode encode data s).2 in
  received s' = list_to_set fresh.*1 ∪ received s
  ∧ total_recvd s' = total_recvd s + total_size sizeof fresh
  ∧ comm s' = comm s ∧ transferred s' = transferred s
  ∧ match fresh with
    | [] => (_receive "k" sizeof decode encode data s).1 = Ok tt
            ∧ disk s' = disk s ∧ core s' = core s
    | _ :: _ =>
        match _repartition_buffers "k" decode encode fresh.*2 with
        | Ok groups =>
            (_receive "k" sizeof decode encode data s).1 = Ok tt
            ∧ disk s' = disk s ++ [groups] ∧ core s' = core s
        | Raise e =>
            (_receive "k" sizeof decode encode data s).1 = Raise e
            ∧ disk s' = disk s
            ∧ _exception (core s') = Some e
            ∧ closed (core s') = closed (core s)
        end
    end.
Proof.
  intros sizeof decode encode data s.
  apply (df_receive_effect "k" sizeof decode encode data s). reflexivity.
Defined.

End receive_effect_examples.
